(** * pylvp: the LVP serial client ([lvp.py]) and the device pool ([lvp_pool.py])

    A shallow embedding of the two modules and the properties of their
    parameter protocol, quiet scope, function declarations, query
    resolution and fan-out.

    Text is [string]: a character stands for the code point of the same
    number, so the texts are those of Latin-1 and the character tests
    below are the first 256 rows of the interpreter's tables.  What
    reaches the protocol layer went through [decode("ascii")] and is
    ASCII. *)

From Stdlib Require Import String Ascii List ZArith NArith Bool Lia.
From Stdlib Require Import Permutation DecimalString QArith_base RelationClasses.
From Stdlib Require DecimalPos.
Import ListNotations.

Local Open Scope list_scope.
Local Open Scope string_scope.

Set Implicit Arguments.
Set Warnings "-register-all".

(* ===================================================================== *)
(** ** Characters and text *)
(* ===================================================================== *)

Module Text.

Definition code (c : ascii) : N := N_of_ascii c.

Definition between (lo hi : N) (c : ascii) : bool :=
  ((lo <=? code c) && (code c <=? hi))%N.

(** [str.isspace] on one character, also the class [\s] of the
    patterns: TAB..CR, FS..US, the space, NEL and the no-break space. *)
Definition is_space (c : ascii) : bool :=
  between 9 13 c || between 28 31 c || (code c =? 32)%N
  || (code c =? 133)%N || (code c =? 160)%N.

Definition is_digit (c : ascii) : bool := between 48 57 c.

Definition is_alpha (c : ascii) : bool := between 65 90 c || between 97 122 c.

(** The letters and numeric characters above 127: the ordinal
    indicators, the micro sign, the superscript digits, the fractions and
    the accented letters. *)
Definition is_alnum_high (c : ascii) : bool :=
  (code c =? 170)%N || (code c =? 178)%N || (code c =? 179)%N || (code c =? 181)%N
  || (code c =? 185)%N || (code c =? 186)%N || between 188 190 c
  || between 192 214 c || between 216 246 c || between 248 255 c.

(** The class [[\w_]] of the patterns. *)
Definition is_word (c : ascii) : bool :=
  is_alpha c || is_digit c || (code c =? 95)%N || is_alnum_high c.

Definition lower (c : ascii) : ascii :=
  if between 65 90 c then ascii_of_N (code c + 32) else c.

Fixpoint map_str (f : ascii -> ascii) (s : string) : string :=
  match s with
  | EmptyString => EmptyString
  | String c t => String (f c) (map_str f t)
  end.

Fixpoint all_str (p : ascii -> bool) (s : string) : bool :=
  match s with
  | EmptyString => true
  | String c t => p c && all_str p t
  end.

(** Stripping the characters of a class from the left, from the right
    and from both ends. *)
Fixpoint lstrip (p : ascii -> bool) (s : string) : string :=
  match s with
  | String c t => if p c then lstrip p t else s
  | EmptyString => EmptyString
  end.

Fixpoint rstrip (p : ascii -> bool) (s : string) : string :=
  match s with
  | EmptyString => EmptyString
  | String c t =>
      match rstrip p t with
      | EmptyString => if p c then EmptyString else String c EmptyString
      | t' => String c t'
      end
  end.

Definition strip_class (p : ascii -> bool) (s : string) : string :=
  rstrip p (lstrip p s).

(** [str.strip()] with no argument. *)
Definition strip (s : string) : string := strip_class is_space s.

(** [s.endswith(suffix)]. *)
Definition endswith (s suffix : string) : bool :=
  let n := String.length s in
  let k := String.length suffix in
  (k <=? n)%nat && String.eqb (substring (n - k) k s) suffix.

(** [s.split(sep)] for a one-character separator: never an empty list. *)
Fixpoint split (sep : ascii) (s : string) : list string :=
  match s with
  | EmptyString => [EmptyString]
  | String c t =>
      if Ascii.eqb c sep then EmptyString :: split sep t
      else match split sep t with
           | w :: ws => String c w :: ws
           | [] => [String c EmptyString]
           end
  end.

(** [sep.join(parts)]. *)
Fixpoint join (sep : string) (parts : list string) : string :=
  match parts with
  | [] => EmptyString
  | [w] => w
  | w :: ws => w ++ sep ++ join sep ws
  end.

(** [s.replace("\r\n", "\n")]. *)
Fixpoint crlf_to_lf (s : string) : string :=
  match s with
  | EmptyString => EmptyString
  | String c t =>
      match t with
      | String d t' =>
          if (code c =? 13)%N && (code d =? 10)%N
          then String d (crlf_to_lf t')
          else String c (crlf_to_lf t)
      | EmptyString => s
      end
  end.

Definition dquote : ascii := ascii_of_N 34.

Definition hex_digit (n : N) : ascii :=
  if (n <? 10)%N then ascii_of_N (48 + n) else ascii_of_N (87 + n).

(** One character inside [repr(s)], [q] being the quote chosen. *)
Definition repr_char (q c : ascii) : string :=
  let n := code c in
  if (n =? 92)%N then "\\"
  else if Ascii.eqb c q then String "\" (String q EmptyString)
  else if (n =? 9)%N then "\t"
  else if (n =? 10)%N then "\n"
  else if (n =? 13)%N then "\r"
  else if (n <? 32)%N || ((127 <=? n) && (n <=? 160))%N || (n =? 173)%N
       then String "\" (String "x" (String (hex_digit (n / 16))
                                       (String (hex_digit (n mod 16)) EmptyString)))
  else String c EmptyString.

Fixpoint has_char (c : ascii) (s : string) : bool :=
  match s with
  | EmptyString => false
  | String d t => Ascii.eqb c d || has_char c t
  end.

Fixpoint repr_body (q : ascii) (s : string) : string :=
  match s with
  | EmptyString => EmptyString
  | String c t => repr_char q c ++ repr_body q t
  end.

(** [repr(s)] of a text, the [{out!r}] of the error messages: single
    quotes unless the text has a single quote and no double quote; the
    characters that are not printable are escaped. *)
Definition repr (s : string) : string :=
  let q := if has_char "'" s && negb (has_char dquote s) then dquote else "'"%char in
  String q (repr_body q s ++ String q EmptyString).

(** [str(n)] of an integer. *)
Definition str_of_int (z : Z) : string := NilZero.string_of_int (Z.to_int z).

End Text.

(* ===================================================================== *)
(** ** The builtins [int(str)] and [float(str)] *)
(* ===================================================================== *)

Module Builtins.
Import Text.

Definition digit_val (c : ascii) : N := (code c - 48)%N.

(** The blanks [int] and [float] accept around a number: those of C's
    [isspace], and above 127 those of [str.isspace]. *)
Definition is_blank (c : ascii) : bool :=
  between 9 13 c || (code c =? 32)%N || (code c =? 133)%N || (code c =? 160)%N.

(** Digits in which single underscores may stand between two digits;
    [prev] tells whether the previous character was a digit. *)
Fixpoint digits (acc : N) (prev : bool) (s : string) : option N :=
  match s with
  | EmptyString => if prev then Some acc else None
  | String c t =>
      if is_digit c then digits (10 * acc + digit_val c)%N true t
      else if (code c =? 95)%N then (if prev then digits acc false t else None)
      else None
  end.

(** [int(s)] in base ten: surrounding blanks, an optional sign, digits.
    [None] is the [ValueError].  The limit the interpreter may put on the
    number of digits is not modelled. *)
Definition int (s : string) : option Z :=
  match strip_class is_blank s with
  | String "+" t => option_map Z.of_N (digits 0 false t)
  | String "-" t => option_map (fun n => (- Z.of_N n)%Z) (digits 0 false t)
  | t => option_map Z.of_N (digits 0 false t)
  end.

(** A [float] as the decimal it was read from, [mantissa * 10 ^ exp10]
    with no trailing zero in the mantissa; the interpreter then rounds it
    to the nearest binary64, which is not modelled. *)
Inductive PyFloat : Type :=
| Finite (neg : bool) (mantissa : N) (exp10 : Z)
| Infinity (neg : bool)
| NaN.

(** Underscores of a [float] literal: each stands between two digits. *)
Fixpoint underscores_ok (prev : bool) (s : string) : bool :=
  match s with
  | EmptyString => true
  | String c t =>
      if (code c =? 95)%N
      then prev && match t with String d _ => is_digit d | EmptyString => false end
                && underscores_ok false t
      else underscores_ok (is_digit c) t
  end.

Fixpoint drop_underscores (s : string) : string :=
  match s with
  | EmptyString => EmptyString
  | String c t =>
      if (code c =? 95)%N then drop_underscores t else String c (drop_underscores t)
  end.

(** The longest run of digits at the head of [s]: its value, its length
    and what follows. *)
Fixpoint digit_run (acc : N) (len : nat) (s : string) : N * nat * string :=
  match s with
  | String c t =>
      if is_digit c then digit_run (10 * acc + digit_val c)%N (S len) t
      else (acc, len, s)
  | EmptyString => (acc, len, s)
  end.

(** [[eE][+-]?digits] or nothing, up to the end of the text. *)
Definition exponent (s : string) : option Z :=
  match s with
  | EmptyString => Some 0%Z
  | String c t =>
      if (code (lower c) =? 101)%N then
        let '(neg, u) :=
          match t with
          | String "-" u => (true, u)
          | String "+" u => (false, u)
          | _ => (false, t)
          end in
        match digit_run 0 0 u with
        | (_, O, _) => None
        | (e, _, EmptyString) => Some (if neg then - Z.of_N e else Z.of_N e)%Z
        | _ => None
        end
      else None
  end.

(** Strips the trailing zeros of a mantissa into the exponent. *)
Fixpoint normalise (fuel : nat) (m : N) (e : Z) : N * Z :=
  match fuel with
  | O => (m, e)
  | S k =>
      if (m =? 0)%N then (0%N, 0%Z)
      else if (m mod 10 =? 0)%N then normalise k (m / 10)%N (e + 1)%Z
      else (m, e)
  end.

(** The unsigned decimal part of [float(s)]. *)
Definition decimal (neg : bool) (s : string) : option PyFloat :=
  let '(ip, ilen, r) := digit_run 0 0 s in
  let '(m, flen, r') :=
    match r with
    | String "." u => let '(m, flen, r') := digit_run ip 0 u in (m, flen, r')
    | _ => (ip, O, r)
    end in
  match (ilen + flen)%nat with
  | O => None
  | _ =>
      match exponent r' with
      | Some e =>
          let '(m', e') := normalise (S (N.to_nat (N.size m))) m (e - Z.of_nat flen)%Z in
          Some (Finite neg m' e')
      | None => None
      end
  end.

(** [float(s)]: surrounding blanks, an optional sign, then [inf],
    [infinity] or [nan] in any case, or a decimal with an optional
    fraction and exponent.  [None] is the [ValueError]. *)
Definition float (s : string) : option PyFloat :=
  let s := strip_class is_blank s in
  let '(neg, body) :=
    match s with
    | String "-" t => (true, t)
    | String "+" t => (false, t)
    | _ => (false, s)
    end in
  let word := map_str lower body in
  if String.eqb word "inf" || String.eqb word "infinity" then Some (Infinity neg)
  else if String.eqb word "nan" then Some NaN
  else if underscores_ok false body then decimal neg (drop_underscores body)
  else None.

End Builtins.

(* ===================================================================== *)
(** ** Values and [normalize_response] *)
(* ===================================================================== *)

(** The objects a caller hands to the client: [Value = Union[str, float,
    int]] and the mappings from names to objects that [set] takes. *)
Inductive PyObj : Type :=
| Str (s : string)
| Int (z : Z)
| Float (f : Builtins.PyFloat)
| Mapping (items : list (string * PyObj)).

(** [normalize_response(value)]: the text is stripped first and the
    stripped text is what the two conversions and the last [return] see. *)
Definition normalize_response (value : string) : PyObj :=
  let value := Text.strip value in
  match Builtins.int value with
  | Some z => Int z
  | None =>
      match Builtins.float value with
      | Some f => Float f
      | None => Str value
      end
  end.

(* ===================================================================== *)
(** ** The patterns: a backtracking matcher for the fragment they use *)
(* ===================================================================== *)

Module Re.
Import Text.

(** Literal text, a greedy repetition of a character class, sequence and
    named group: all that the three patterns of [lvp.py] are made of. *)
Inductive regex : Type :=
| Lit (l : string)
| Plus (p : ascii -> bool)
| Star (p : ascii -> bool)
| Cat (r1 r2 : regex)
| Group (name : string) (r : regex).

(** [groupdict()] of a match. *)
Definition groupdict := list (string * string).

Fixpoint group (name : string) (g : groupdict) : string :=
  match g with
  | [] => EmptyString
  | (n, v) :: t => if String.eqb n name then v else group name t
  end.

(** What is left of [s] after the literal [l], when [s] starts with it. *)
Fixpoint lit (l s : string) : option string :=
  match l, s with
  | EmptyString, _ => Some s
  | String a l', String b s' => if Ascii.eqb a b then lit l' s' else None
  | String _ _, EmptyString => None
  end.

(** The part of [s] before its suffix [rest]. *)
Definition consumed (s rest : string) : string :=
  substring 0 (String.length s - String.length rest) s.

Section Matcher.
Variable X : Type.

(** Greedy [[p]*]: the longest run first, then one character less. *)
Fixpoint star (p : ascii -> bool) (s : string) (k : string -> option X) : option X :=
  match s with
  | String c t =>
      if p c then
        match star p t k with
        | Some x => Some x
        | None => k s
        end
      else k s
  | EmptyString => k s
  end.

(** [run r s g k]: match [r] at the head of [s], then hand the rest of
    the text and the groups to [k]; [None] makes the matcher backtrack. *)
Fixpoint run (r : regex) (s : string) (g : groupdict)
    (k : string -> groupdict -> option X) : option X :=
  match r with
  | Lit l =>
      match lit l s with
      | Some rest => k rest g
      | None => None
      end
  | Star p => star p s (fun rest => k rest g)
  | Plus p =>
      match s with
      | String c t => if p c then star p t (fun rest => k rest g) else None
      | EmptyString => None
      end
  | Cat r1 r2 => run r1 s g (fun rest g' => run r2 rest g' k)
  | Group n r' => run r' s g (fun rest g' => k rest ((n, consumed s rest) :: g'))
  end.

End Matcher.

(** [pattern.fullmatch(s)]. *)
Definition fullmatch (r : regex) (s : string) : option groupdict :=
  run r s [] (fun rest g => match rest with EmptyString => Some g | _ => None end).

(** [pattern.search(s)]: the leftmost start at which the pattern matches. *)
Fixpoint search (r : regex) (s : string) : option groupdict :=
  match run r s [] (fun _ g => Some g) with
  | Some g => Some g
  | None =>
      match s with
      | String _ t => search r t
      | EmptyString => None
      end
  end.

(** What it is for [r] to match exactly the text [s], taking the groups
    from [g] to [g']: the declarative reading of the fragment, against
    which the matcher is justified below. *)
Inductive matches : regex -> string -> groupdict -> groupdict -> Prop :=
| m_lit l g : matches (Lit l) l g g
| m_plus p c s g :
    p c = true -> all_str p s = true -> matches (Plus p) (String c s) g g
| m_star p s g : all_str p s = true -> matches (Star p) s g g
| m_cat r1 r2 s1 s2 g g1 g2 :
    matches r1 s1 g g1 -> matches r2 s2 g1 g2 ->
    matches (Cat r1 r2) (s1 ++ s2) g g2
| m_group n r s g g1 :
    matches r s g g1 -> matches (Group n r) s g ((n, s) :: g1).

(** [r] matches somewhere in [s]. *)
Definition occurs (r : regex) (s : string) : Prop :=
  exists before m after g, s = before ++ m ++ after /\ matches r m [] g.

Definition not_in (l : list N) (c : ascii) : bool :=
  negb (existsb (N.eqb (code c)) l).

(** [FUNC_SPEC_RE]: group [name], one or more of [[\w_]]; an opening
    parenthesis; group [args], any run of characters other than the two
    parentheses; a closing parenthesis. *)
Definition FUNC_SPEC_RE : regex :=
  Cat (Group "name" (Plus is_word))
      (Cat (Lit "(") (Cat (Group "args" (Star (not_in [40; 41]%N))) (Lit ")"))).

(** The pattern "Parameter\s+'(?P<name>[\w_]+)':\s+(?P<value>[^\n\r]+)". *)
Definition GET_RESP_RE : regex :=
  Cat (Lit "Parameter") (Cat (Plus is_space) (Cat (Lit "'")
    (Cat (Group "name" (Plus is_word)) (Cat (Lit "':") (Cat (Plus is_space)
      (Group "value" (Plus (not_in [10; 13]%N)))))))).

(** The pattern "Parameter\s+'(?P<name>[\w_]+)'\s+set to\s+'(?P<value>[^\n\r']+)'". *)
Definition SET_RESP_RE : regex :=
  Cat (Lit "Parameter") (Cat (Plus is_space) (Cat (Lit "'")
    (Cat (Group "name" (Plus is_word)) (Cat (Lit "'") (Cat (Plus is_space)
      (Cat (Lit "set to") (Cat (Plus is_space) (Cat (Lit "'")
        (Cat (Group "value" (Plus (not_in [10; 13; 39]%N))) (Lit "'")))))))))).

End Re.

(* ===================================================================== *)
(** ** The link: [class LVP] *)
(* ===================================================================== *)

Module Lvp.
Import Text.

(** [bytes]: the same carrier as text, one character per octet. *)
Definition bytes := string.

(** The serial port as the client sees it: the timeout it holds, every
    [write] in order, and the octets the device is going to send.  A
    [None] on the input is a silence that outlasts a read timeout; a read
    with no timeout waits through it.  The lock of the link is not
    modelled: one thread runs at a time here. *)
Record Serial : Type := mkSerial {
  timeout : option Q;
  written : list bytes;
  incoming : list (option ascii)
}.

(** The link: its attributes, with [_messages] the bounded history of
    logged messages and [functions] the attributes [declare] has set,
    each the name of a function with the argument names it captured. *)
Record LVP : Type := mkLVP {
  _id : option string;
  device : string;
  _quiet : bool;
  _init : bool;
  _messages : list bytes;
  _serial : Serial;
  functions : list (string * list string)
}.

(** The [id] property. *)
Definition id (self : LVP) : string :=
  match _id self with
  | None => last (split "/" (device self)) EmptyString
  | Some i => i
  end.

Definition with_timeout (t : option Q) (p : Serial) : Serial :=
  mkSerial t (written p) (incoming p).

Definition with_incoming (i : list (option ascii)) (p : Serial) : Serial :=
  mkSerial (timeout p) (written p) i.

Definition with_serial (p : Serial) (self : LVP) : LVP :=
  mkLVP (_id self) (device self) (_quiet self) (_init self) (_messages self)
        p (functions self).

Definition with_quiet (q : bool) (self : LVP) : LVP :=
  mkLVP (_id self) (device self) q (_init self) (_messages self)
        (_serial self) (functions self).

Definition with_init (i : bool) (self : LVP) : LVP :=
  mkLVP (_id self) (device self) (_quiet self) i (_messages self)
        (_serial self) (functions self).

Definition with_messages (m : list bytes) (self : LVP) : LVP :=
  mkLVP (_id self) (device self) (_quiet self) (_init self) m
        (_serial self) (functions self).

Definition with_functions (f : list (string * list string)) (self : LVP) : LVP :=
  mkLVP (_id self) (device self) (_quiet self) (_init self) (_messages self)
        (_serial self) f.

(** *** Outcomes of a method call *)

Inductive Exception : Type :=
| RuntimeError (msg : string)
| ValueError (msg : string)
| TypeError (msg : string)
| UnicodeEncodeError
| UnicodeDecodeError
| EOFError.

(** A call returns, raises, or waits for ever on a read with no timeout;
    each outcome carries the link as the call left it. *)
Inductive Outcome (A : Type) : Type :=
| Return (a : A) (self : LVP)
| Raise (e : Exception) (self : LVP)
| Blocks (self : LVP).

Arguments Raise {A} e self.
Arguments Blocks {A} self.

Definition M (A : Type) : Type := LVP -> Outcome A.

Definition ret {A} (a : A) : M A := fun self => Return a self.

Definition bind {A B} (c : M A) (k : A -> M B) : M B :=
  fun self =>
    match c self with
    | Return a self' => k a self'
    | Raise e self' => Raise e self'
    | Blocks self' => Blocks self'
    end.

Definition raise {A} (e : Exception) : M A := fun self => Raise e self.

Definition state_of {A} (o : Outcome A) : LVP :=
  match o with
  | Return _ s | Raise _ s | Blocks s => s
  end.

Notation "x <- c ;; k" := (bind c (fun x => k))
  (at level 61, c at next level, right associativity).
Notation "c ;; k" := (bind c (fun _ => k))
  (at level 61, right associativity).

(** [for x in xs: body(x)] *)
Fixpoint for_each {A} (body : A -> M unit) (xs : list A) : M unit :=
  match xs with
  | [] => ret tt
  | x :: t => body x ;; for_each body t
  end.

(** [tuple(f(x) for x in xs)] *)
Fixpoint map_m {A B} (f : A -> M B) (xs : list A) : M (list B) :=
  match xs with
  | [] => ret []
  | x :: t => y <- f x ;; ys <- map_m f t ;; ret (y :: ys)
  end.

(** *** The port *)

(** [serial.read_until(expected)]: octets are taken until the text read
    ends with [expected]; a silence ends a read that has a timeout. *)
Fixpoint read_until_from (expected : bytes) (t : option Q) (acc : bytes)
    (inp : list (option ascii)) : option (bytes * list (option ascii)) :=
  match inp with
  | [] => match t with Some _ => Some (acc, []) | None => None end
  | None :: r =>
      match t with
      | Some _ => Some (acc, r)
      | None => read_until_from expected t acc r
      end
  | Some c :: r =>
      let acc' := acc ++ String c EmptyString in
      if endswith acc' expected then Some (acc', r)
      else read_until_from expected t acc' r
  end.

Definition LF : bytes := String (ascii_of_N 10) EmptyString.
Definition CRLF : bytes := String (ascii_of_N 13) LF.

Definition read_until (expected : bytes) : M bytes := fun self =>
  let p := _serial self in
  match read_until_from expected (timeout p) EmptyString (incoming p) with
  | Some (out, rest) => Return out (with_serial (with_incoming rest p) self)
  | None => Blocks (with_serial (with_incoming [] p) self)
  end.

Definition readline : M bytes := read_until LF.

Definition set_timeout (t : option Q) : M unit := fun self =>
  Return tt (with_serial (with_timeout t (_serial self)) self).

Definition write (msg : bytes) : M unit := fun self =>
  let p := _serial self in
  Return tt (with_serial (mkSerial (timeout p) (written p ++ [msg])%list (incoming p)) self).

(** [deque.append] on a deque of [maxlen] 64. *)
Definition deque_append (d : list bytes) (x : bytes) : list bytes :=
  let d' := (d ++ [x])%list in
  skipn (length d' - 64) d'.

(** [self.log(msg)]: the message joins the bounded history; the sink that
    writes it out is the caller's. *)
Definition log (msg : bytes) : M unit := fun self =>
  Return tt (with_messages (deque_append (_messages self) msg) self).

Definition is_empty (s : string) : bool :=
  match s with EmptyString => true | _ => false end.

(** *** [_send], [init], [_recv], [send] *)

Definition _send (msg : bytes) : M unit :=
  write msg ;; log (">>> " ++ msg).

Definition ACK_MSG : bytes := "Manual connection established." ++ LF ++ CRLF.

(** [while msg: msg = readline(); self.log(msg)], with as many rounds as
    the input can feed. *)
Fixpoint drain_boot (fuel : nat) : M unit :=
  match fuel with
  | O => ret tt
  | S k =>
      msg <- readline ;;
      log msg ;;
      if is_empty msg then ret tt else drain_boot k
  end.

Definition rounds (self : LVP) : nat := S (length (incoming (_serial self))).

Definition init (force : bool) : M unit := fun self =>
  if force || negb (_init self) then
    (set_timeout (Some (1 # 16)%Q) ;;
     (fun s => drain_boot (rounds s) s) ;;
     set_timeout None ;;
     _send ("manual_connect" ++ LF) ;;
     ack <- read_until ACK_MSG ;;
     log ack ;;
     (fun s => Return tt (with_init true s))) self
  else Return tt self.

(** [while msg: msg = readline(); out += msg] *)
Fixpoint flush_lines (fuel : nat) (out : bytes) : M bytes :=
  match fuel with
  | O => ret out
  | S k =>
      msg <- readline ;;
      if is_empty msg then ret (out ++ msg) else flush_lines k (out ++ msg)
  end.

(** [_recv(until, flush, timeout=1/64)]; [until] is [None] or bytes. *)
Definition _recv (until : option bytes) (flush : bool) (t : Q) : M bytes := fun self =>
  if _quiet self then Return EmptyString self
  else
    (out <- match until with
            | Some u => if is_empty u then readline else read_until u
            | None => readline
            end ;;
     if flush then
       set_timeout (Some t) ;;
       (fun s => flush_lines (rounds s) out s)
     else ret out) self.

Definition is_ascii (s : string) : bool := all_str (fun c => (code c <? 128)%N) s.

(** [send(msg, timeout=None)] for a text [msg]. *)
Definition send (msg : string) (t : option Q) : M string :=
  if is_ascii msg then
    let msg := if endswith msg LF then msg else msg ++ LF in
    init false ;;
    set_timeout t ;;
    _send msg ;;
    out <- _recv (Some CRLF) true (1 # 64)%Q ;;
    log out ;;
    if is_ascii out then ret (crlf_to_lf out) else raise UnicodeDecodeError
  else raise UnicodeEncodeError.

(** [exec(cmd)] *)
Definition exec (cmd : string) : M string := send cmd None.

(** *** Dictionaries: association lists in insertion order *)

Definition dict := list (string * PyObj).

Section Dict.
Variable V : Type.

(** [d[k] = v]: the value is replaced in place, or the key is appended. *)
Fixpoint setitem (d : list (string * V)) (k : string) (v : V) : list (string * V) :=
  match d with
  | [] => [(k, v)]
  | (k', v') :: t =>
      if String.eqb k' k then (k', v) :: t else (k', v') :: setitem t k v
  end.

(** [d.update(items)], also [{**d, **items}] and [dict(items)]. *)
Definition update (d items : list (string * V)) : list (string * V) :=
  fold_left (fun acc kv => setitem acc (fst kv) (snd kv)) items d.

Fixpoint getitem (d : list (string * V)) (k : string) : option V :=
  match d with
  | [] => None
  | (k', v) :: t => if String.eqb k' k then Some v else getitem t k
  end.

(** [k in d] *)
Definition has_key (k : string) (d : list (string * V)) : bool :=
  existsb (fun kv => String.eqb (fst kv) k) d.

End Dict.

(** *** The quiet scope and its siblings *)

(** [with self.quiet(): body].  The generator runs up to its [yield],
    the block runs, and the generator is resumed; an exception of the
    block is thrown into the generator at the [yield], where nothing
    catches it, so the code after the [yield] is skipped. *)
Definition quiet_enter : M bool := fun self =>
  let is_quiet := _quiet self in
  ((if negb is_quiet then _send ("quiet_connect" ++ LF) else ret tt) ;;
   ret is_quiet) self.

Definition quiet_exit (is_quiet : bool) : M unit :=
  (fun self => Return tt (with_quiet is_quiet self)) ;;
  if negb is_quiet then send "manual_connect" None ;; ret tt else ret tt.

Definition quiet {A} (body : M A) : M A :=
  is_quiet <- quiet_enter ;;
  r <- body ;;
  quiet_exit is_quiet ;;
  ret r.

(** [with self._force_manual(): body] *)
Definition _force_manual {A} (body : M A) : M A :=
  is_quiet <- (fun self => Return (_quiet self) self) ;;
  (fun self => Return tt (with_quiet false self)) ;;
  (if is_quiet then send "manual_connect" None ;; ret tt else ret tt) ;;
  r <- body ;;
  (fun self => Return tt (with_quiet is_quiet self)) ;;
  (if negb is_quiet then _send ("quiet_connect" ++ LF) else ret tt) ;;
  ret r.

(** [with self._maybe_quiet(flag): body] *)
Definition _maybe_quiet {A} (flag : bool) (body : M A) : M A :=
  if flag then quiet body else body.

(** *** The parameter protocol *)

(** [type(o).__name__] *)
Definition type_name (o : PyObj) : string :=
  match o with
  | Str _ => "str"
  | Int _ => "int"
  | Float _ => "float"
  | Mapping _ => "dict"
  end.

Section Protocol.

(** [str(x)] of a float and of a dict, as an f-string renders them. *)
Variable float_str : Builtins.PyFloat -> string.
Variable dict_str : dict -> string.

(** The text an f-string puts for [{o}]. *)
Definition format (o : PyObj) : string :=
  match o with
  | Str s => s
  | Int z => str_of_int z
  | Float f => float_str f
  | Mapping m => dict_str m
  end.

(** [RuntimeError(f"bad response: {out!r}")] *)
Definition bad_response (out : string) : Exception :=
  RuntimeError ("bad response: " ++ repr out).

(** [data["name"] == name]: a matched text equals a text of the same
    characters and no other object. *)
Definition same_name (matched : string) (name : PyObj) : bool :=
  match name with
  | Str n => String.eqb matched n
  | _ => false
  end.

Definition _get (name : PyObj) : M PyObj :=
  out <- send ("get(" ++ format name ++ ")") None ;;
  match Re.search Re.GET_RESP_RE out with
  | Some data =>
      if same_name (Re.group "name" data) name
      then ret (normalize_response (Re.group "value" data))
      else raise (bad_response out)
  | None => raise (bad_response out)
  end.

(** What [get] returns: one value, or the tuple of several. *)
Inductive GetResult : Type :=
| One (v : PyObj)
| Tuple (vs : list PyObj).

Definition get (args : list PyObj) : M GetResult :=
  match args with
  | [Str n] => v <- _get (Str n) ;; ret (One v)
  | [Mapping m] =>
      vs <- map_m _get (map (fun kv => Str (fst kv)) (update [] m)) ;;
      ret (Tuple vs)
  | [a] => raise (TypeError ("'" ++ type_name a ++ "' object is not iterable"))
  | _ => vs <- map_m _get args ;; ret (Tuple vs)
  end.

Definition _set (name value : PyObj) : M unit :=
  out <- send ("set(" ++ format name ++ "," ++ format value ++ ")") None ;;
  match Re.search Re.SET_RESP_RE out with
  | Some data =>
      if same_name (Re.group "name" data) name then ret tt
      else raise (bad_response out)
  | None => raise (bad_response out)
  end.

(** [kwargs.items()] *)
Definition items (d : dict) : list (PyObj * PyObj) :=
  map (fun kv => (Str (fst kv), snd kv)) d.

Definition set_each (assignments : list (PyObj * PyObj)) : M unit :=
  for_each (fun kv => _set (fst kv) (snd kv)) assignments.

(** [set] with its positional arguments [args] and its keywords
    [kwargs].  A key that is not a text can only come from
    the two-argument form and is never equal to a keyword, so it goes
    last. *)
Definition set (args : list PyObj) (kwargs : dict) : M unit :=
  match args with
  | [] => set_each (items kwargs)
  | [a] =>
      match a with
      | Mapping m => set_each (items (update (update [] m) kwargs))
      | _ => raise (TypeError ("'" ++ type_name a ++ "' object is not a mapping"))
      end
  | [key; value] =>
      match key with
      | Str k => set_each (items (setitem kwargs k value))
      | Mapping _ => raise (TypeError "unhashable type: 'dict'")
      | _ => set_each (items kwargs ++ [(key, value)])%list
      end
  | _ => raise (TypeError "function accepts at most 2 positional arguments")
  end.

(** *** Declared functions *)

(** The closure [func] that [declare] builds: the name and the argument
    names it captured. *)
Definition Func : Type := string * list string.

(** [setattr(self, name, func)] for a [name] under which the link has
    no attribute yet, or has a function declared before: the function is
    one more attribute of the link.  Under the name of an attribute of
    its own or of its class ([_quiet], [send], [id], ...) the assignment
    replaces what the methods read there, or raises; such names are
    outside this model, and the statements on [declare] with [bind] say
    so. *)
Definition setattr (name : string) (argnames : list string) : M unit := fun self =>
  Return tt (with_functions (setitem (functions self) name argnames) self).

Definition declare (spec : string) (bind : bool) : M Func :=
  match Re.fullmatch Re.FUNC_SPEC_RE spec with
  | None => raise (ValueError ("invalid specification: " ++ repr spec))
  | Some data =>
      let name := Re.group "name" data in
      let argnames := map strip (split "," (Re.group "args" data)) in
      (if bind then setattr name argnames else ret tt) ;;
      ret (name, argnames)
  end.

(** Calling the closure with positional [args] and the [quiet] keyword. *)
Definition call (f : Func) (args : list PyObj) (quiet_flag : bool) : M string :=
  _maybe_quiet quiet_flag
    (set [Mapping (update [] (combine (snd f) args))] [] ;;
     exec (fst f)).

(** [LVP(device, functions=..., id=...)] on a port that will deliver
    [input]: the link before initialisation, with its functions declared. *)
Definition __init__ (dev : string) (ident : option string) (specs : list string)
    (input : list (option ascii)) : Outcome unit :=
  for_each (fun spec => declare spec true ;; ret tt) specs
    (mkLVP ident dev false false [] (mkSerial None [] input) []).

End Protocol.

End Lvp.

(* ===================================================================== *)
(** ** The pool: [class LVPPool] *)
(* ===================================================================== *)

Module Pool.
Import Lvp.

(** [self.devices]: the read-only view of a dict from id to link, in
    insertion order. *)
Record LVPPool : Type := mkPool { devices : list (string * LVP) }.

(** [{dev.id: dev for dev in devices}] *)
Definition __init__ (devs : list LVP) : LVPPool :=
  mkPool (update [] (map (fun dev => (id dev, dev)) devs)).

(** [__iter__] and [__len__] *)
Definition values (self : LVPPool) : list LVP := map snd (devices self).
Definition __len__ (self : LVPPool) : nat := length (devices self).

Inductive Result (A : Type) : Type :=
| Ok (a : A)
| Err (e : Exception).

Arguments Err {A} e.

(** The selectors [query] tells apart: the [...] sentinel, a link, a list
    or tuple of selectors, and a literal looked up among the ids.  The
    literals here are texts, as the ids are.  An object that cannot be
    hashed (a dict, a set) is no selector: the lookup raises a
    [TypeError] on it, and it is not among the queries below. *)
Inductive Query : Type :=
| Ellipsis
| Link (dev : LVP)
| Seq (qs : list Query)
| Key (k : string).

(** The members of one pool are distinct objects registered under
    distinct ids, so two of them are the same object when their ids are
    equal. *)
Definition same (a b : LVP) : bool := String.eqb (id a) (id b).

(** The elements of a set after the additions [l], first additions
    first. *)
Fixpoint distinct (l : list LVP) : list LVP :=
  match l with
  | [] => []
  | x :: t => x :: filter (fun y => negb (same x y)) (distinct t)
  end.

Section Query.

(** [list(result)] for the set that received the additions given: the
    order in which a set is iterated is the interpreter's. *)
Variable listing : list LVP -> list LVP.

Definition lookup (self : LVPPool) (k : string) : Result (list LVP) :=
  match getitem (devices self) k with
  | Some dev => Ok [dev]
  | None => Err (ValueError "invalid query")
  end.

Fixpoint query (self : LVPPool) (q : Query) : Result (list LVP) :=
  match q with
  | Ellipsis => Ok (values self)
  | Link dev => lookup self (id dev)
  | Seq qs =>
      (fix each (qs : list Query) (added : list LVP) : Result (list LVP) :=
         match qs with
         | [] => Ok (listing added)
         | q' :: t =>
             match query self q' with
             | Ok l => each t (added ++ l)%list
             | Err e => Err e
             end
         end) qs []
  | Key k => lookup self k
  end.

End Query.

(** *** [_parallel_map]: one thread per target *)

Section ParallelMap.

(** The values the mapped function returns; a slot holds [None] until
    its thread stores one. *)
Variable R : Type.

(** What [func(dev, ...)] does once it has run to its end. *)
Inductive Fate : Type :=
| Returns (v : option R)
| Raises.

(** One step of an execution: thread [i] runs [target] to its end; the
    [join] the caller is waiting in returns because its thread has
    ended; or that [join] gives up because the timeout has passed. *)
Inductive Event : Type :=
| Finish (i : nat)
| JoinEnds
| JoinExpires.

Record Threads : Type := mkThreads {
  results : list (option R);
  ended : list bool;
  joined : nat
}.

(** [xs[i] = x] *)
Fixpoint assign {A} (xs : list A) (i : nat) (x : A) : list A :=
  match xs, i with
  | [], _ => []
  | _ :: t, O => x :: t
  | y :: t, S j => y :: assign t j x
  end.

Variable func : LVP -> Fate.
Variable targets : list LVP.
Variable timeout : option Q.

Definition step (st : Threads) (ev : Event) : option Threads :=
  match ev with
  | Finish i =>
      match nth_error targets i, nth_error (ended st) i with
      | Some dev, Some false =>
          let res :=
            match func dev with
            | Returns v => assign (results st) i v
            | Raises => results st
            end in
          Some (mkThreads res (assign (ended st) i true) (joined st))
      | _, _ => None
      end
  | JoinEnds =>
      match nth_error (ended st) (joined st) with
      | Some true => Some (mkThreads (results st) (ended st) (S (joined st)))
      | _ => None
      end
  | JoinExpires =>
      match timeout, nth_error (ended st) (joined st) with
      | Some _, Some false => Some (mkThreads (results st) (ended st) (S (joined st)))
      | _, _ => None
      end
  end.

(** [{dev.id: res for dev, res in zip(devices, results)}] *)
Definition collect (st : Threads) : list (string * option R) :=
  update [] (combine (map id targets) (results st)).

(** The execution [sched], from the moment every thread has been started:
    the mapping is built as soon as the last [join] is over.  [None]: the
    events are not an execution, or the call has not returned yet. *)
Fixpoint run (sched : list Event) (st : Threads) : option (list (string * option R)) :=
  if (length targets <=? joined st)%nat then Some (collect st)
  else
    match sched with
    | [] => None
    | ev :: rest =>
        match step st ev with
        | Some st' => run rest st'
        | None => None
        end
    end.

Definition start : Threads :=
  mkThreads (repeat None (length targets)) (repeat false (length targets)) 0.

End ParallelMap.

(** [_parallel_map(func, devices, timeout=timeout)] along the execution
    [sched]; with no [devices] the targets are the pool's links. *)
Definition _parallel_map {R} (self : LVPPool) (func : LVP -> Fate R)
    (devs : option (list LVP)) (timeout : option Q) (sched : list Event)
    : option (list (string * option R)) :=
  let targets := match devs with None => values self | Some l => l end in
  run func targets timeout sched (start R targets).

End Pool.

(* ===================================================================== *)
(** ** What the specification says, in its own words *)
(* ===================================================================== *)

Module Spec.
Import Text.

Definition no_paren (c : ascii) : bool :=
  negb (Ascii.eqb c "(") && negb (Ascii.eqb c ")").

Definition no_comma (c : ascii) : bool := negb (Ascii.eqb c ",").

(** A specification of the form [name(arg1, arg2, ...)]: a bare
    identifier, then between parentheses a comma-separated list of
    argument names in which no parenthesis occurs. *)
Definition spec_form (spec : string) : Prop :=
  exists (name : string) (args : list string),
    name <> "" /\
    all_str is_word name = true /\
    Forall (fun a => all_str no_paren a = true /\ all_str no_comma a = true) args /\
    spec = name ++ "(" ++ join "," args ++ ")".

(** The merged assignments of [set], in the words of its description. *)
Section Assignments.
Import Lvp.




Variable float_str : Builtins.PyFloat -> string.
Variable dict_str : dict -> string.

(** The text of the command [set(NAME,VALUE)], and its bytes on the
    wire. *)
Definition set_text (kv : PyObj * PyObj) : string :=
  "set(" ++ format float_str dict_str (fst kv) ++ ","
         ++ format float_str dict_str (snd kv) ++ ")".

Definition set_command (kv : PyObj * PyObj) : bytes :=
  "set(" ++ format float_str dict_str (fst kv) ++ ","
         ++ format float_str dict_str (snd kv) ++ ")" ++ LF.

(** A response that matches [Parameter 'NAME' set to 'VALUE'] with the
    name that was asked for. *)
Definition set_accepts (name : PyObj) (out : string) : bool :=
  match Re.search Re.SET_RESP_RE out with
  | Some data => same_name (Re.group "name" data) name
  | None => false
  end.

(** A response that matches [Parameter 'NAME': VALUE] with the name that
    was asked for. *)
Definition get_accepts (name : PyObj) (out : string) : option string :=
  match Re.search Re.GET_RESP_RE out with
  | Some data =>
      if same_name (Re.group "name" data) name
      then Some (Re.group "value" data) else None
  | None => None
  end.

(** The two errors of the codec: the command is not ASCII, or the
    response is not. *)
Definition codec (e : Exception) : Prop :=
  e = UnicodeEncodeError \/ e = UnicodeDecodeError.

(** How a run of assignments ended after [n] commands were written. *)
Definition ended_after (order : list (PyObj * PyObj)) (n : nat) (o : Outcome unit) : Prop :=
  match o with
  | Return _ _ => n = length order
  | Raise e _ =>
      codec e \/
      exists out kv,
        nth_error order (pred n) = Some kv /\ (0 < n)%nat /\
        e = bad_response out /\ set_accepts (fst kv) out = false
  | Blocks _ => True
  end.




End Assignments.

(** Reading an execution of [_parallel_map]. *)
Section FanOut.
Import Lvp Pool.
Variable R : Type.

(** What a task leaves in its slot: the value it returns, and nothing
    when it raises. *)
Definition value_of (f : Fate R) : option R :=
  match f with
  | Returns v => v
  | Raises _ => None
  end.

Definition is_join (ev : Event) : bool :=
  match ev with
  | Finish _ => false
  | _ => true
  end.

Definition finishes (i : nat) (ev : Event) : bool :=
  match ev with
  | Finish j => Nat.eqb i j
  | _ => false
  end.

(** The events that happen before the mapping is built: those up to the
    last of the [n] joins, [joined] of which are over already. *)
Fixpoint executed (n joined : nat) (sched : list Event) : list Event :=
  if (n <=? joined)%nat then []
  else
    match sched with
    | [] => []
    | ev :: rest => ev :: executed n (if is_join ev then S joined else joined) rest
    end.

(** Thread [i] ran to its end before the mapping was built. *)
Definition completed (n : nat) (sched : list Event) (i : nat) : bool :=
  existsb (finishes i) (executed n 0 sched).

(** The [join] of thread [i] gave up: its task exceeded the timeout. *)
Definition timed_out (sched : list Event) (i : nat) : bool :=
  match nth_error (filter is_join sched) i with
  | Some JoinExpires => true
  | _ => false
  end.

(** The slots, given which threads are over. *)
Definition slots (func : LVP -> Fate R) (targets : list LVP) (over : list bool)
    : list (option R) :=
  map (fun tb : LVP * bool => if snd tb then value_of (func (fst tb)) else None)
      (combine targets over).

(** The mapping a returning execution is expected to give: every target
    under its id, in the order of the targets, with the value of its task
    when the task ran to its end and returned before the mapping was
    built, and [None] otherwise. *)
Definition expected (func : LVP -> Fate R) (targets : list LVP) (sched : list Event)
    : list (string * option R) :=
  combine (map id targets)
          (slots func targets
                 (map (completed (length targets) sched) (seq 0 (length targets)))).

(** What holds of the threads at every moment of an execution: [g]
    tells which have run to their end, and the slots are those of the
    threads that have. *)
Definition inv (func : LVP -> Fate R) (targets : list LVP)
    (st : Threads R) (g : nat -> bool) : Prop :=
  ended st = map g (seq 0 (length targets)) /\
  results st = slots func targets (ended st).

End FanOut.

End Spec.

(* ===================================================================== *)
(** ** What is observed of a call *)
(* ===================================================================== *)

Module Observe.
Import Text Lvp Pool.

(** The writes of the link so far. *)
Definition wire (self : LVP) : list bytes := written (_serial self).

(** Four ways in which the link a call leaves is related to the one it
    found: the flags and attributes are the same; the wire only grew; the
    wire is the same; an initialised link stays initialised. *)
Definition frame (s s' : LVP) : Prop :=
  _quiet s' = _quiet s /\ functions s' = functions s /\
  _id s' = _id s /\ device s' = device s.

Definition extends (s s' : LVP) : Prop :=
  exists more, wire s' = (wire s ++ more)%list.

Definition same_wire (s s' : LVP) : Prop := wire s' = wire s.

Definition keeps_init (s s' : LVP) : Prop := _init s = true -> _init s' = true.

(** [respects R c]: whatever way [c] ends, the link it leaves is related
    by [R] to the one it found. *)
Definition respects (R : LVP -> LVP -> Prop) {A} (c : M A) : Prop :=
  forall s, R s (state_of (c s)).

(** [raises_only P c]: every exception [c] raises satisfies [P]. *)
Definition raises_only (P : Exception -> Prop) {A} (c : M A) : Prop :=
  forall s e s', c s = Raise e s' -> P e.


(** The two mode commands as they go on the wire. *)
Definition manual_connect : bytes := "manual_connect" ++ LF.

Definition quiet_connect : bytes := "quiet_connect" ++ LF.

(** The bytes [send] writes for the text [msg]. *)
Definition framed (msg : string) : bytes :=
  if endswith msg LF then msg else msg ++ LF.

(** The results of the selectors of a sequence, gathered in order. *)
Fixpoint gather (rs : list (Result (list LVP))) (added : list LVP) : Result (list LVP) :=
  match rs with
  | [] => Ok added
  | Ok l :: t => gather t (added ++ l)%list
  | Err e :: _ => Err e
  end.

(** [x] is one of the objects of [l]. *)
Definition mem (x : LVP) (l : list LVP) : bool := existsb (same x) l.

End Observe.

(* ===================================================================== *)
(** ** Links, pools and devices of the examples *)
(* ===================================================================== *)

Module Examples.
Import Text Lvp Pool.

(** The octets of a text, as the device sends them. *)
Definition feed (s : string) : list (option ascii) :=
  map Some (list_ascii_of_string s).

(** A link that is initialised and not quiet, on a port that will
    deliver [input]. *)
Definition ready_link (input : list (option ascii)) : LVP :=
  mkLVP (Some "A") "/dev/ttyUSB0" false true [] (mkSerial None [] input) [].

(** Renderings for the objects the runs below do not use. *)
Definition no_float (_ : Builtins.PyFloat) : string := "".

Definition no_dict (_ : dict) : string := "".

(** The device acknowledges [set(b,2)] and then [set(a,1)], with a
    silence after each answer. *)
Definition two_answers : list (option ascii) :=
  (feed ("Parameter 'b' set to '2'" ++ CRLF) ++ [None]
   ++ feed ("Parameter 'a' set to '1'" ++ CRLF) ++ [None])%list.

(** A block that runs one command inside the quiet scope of a link that
    was not quiet; the device answers the block and the [manual_connect]
    of the exit. *)
Definition blink_answers : list (option ascii) :=
  (feed ("ok" ++ CRLF) ++ [None] ++ feed ("Manual connection established." ++ CRLF)
   ++ [None])%list.

(** The device answers a command with a line of another form. *)
Definition other_answer : list (option ascii) := (feed ("ok" ++ CRLF) ++ [None])%list.

(** The device answers [get(speed)]. *)
Definition speed_answer : list (option ascii) :=
  (feed ("Parameter 'speed': 10" ++ CRLF) ++ [None])%list.

(** A pool of three links. *)
Definition member (i : string) : LVP :=
  mkLVP (Some i) "/dev/ttyUSB0" false true [] (mkSerial None [] []) [].

Definition abc : list LVP := [member "A"; member "B"; member "C"].

(** The task of [B] raises; the others return [1]. *)
Definition task (dev : LVP) : Fate nat :=
  if String.eqb (id dev) "B" then Raises nat else Returns (Some 1%nat).

(** No timeout: the threads end in the order [C], [A], [B], and then the
    three joins return. *)
Definition any_order : list Event :=
  [Finish 2; Finish 0; Finish 1; JoinEnds; JoinEnds; JoinEnds].

End Examples.

(* ===================================================================== *)
(** ** The link: the interactive loop *)
(* ===================================================================== *)

Module Console.
Import Text Lvp.

(** [interact()], with [typed] the lines the user types and [eof] what
    comes after them: the end of the input, at which [input] raises
    [EOFError], or nothing, [input] waiting for a line for ever.  Each
    line but [quit] is sent and the response printed; the console takes
    what is printed, and the texts printed are what is returned here. *)
Fixpoint interact (typed : list string) (eof : bool) : M (list string) :=
  match typed with
  | [] => if eof then raise EOFError else fun self => Blocks self
  | msg :: more =>
      if String.eqb msg "quit" then ret []
      else
        out <- send msg None ;;
        printed <- interact more eof ;;
        ret (out :: printed)
  end.

End Console.

(* ===================================================================== *)
(** ** The default logger: [prefix_lines] *)
(* ===================================================================== *)

Module Logger.
Import Text Lvp.

(** [msg.splitlines(True)] on bytes: the lines with their ends, a line
    ending at LF, at CR LF, or at a CR that no LF follows. *)
Fixpoint splitlines (s : bytes) : list bytes :=
  match s with
  | EmptyString => []
  | String c t =>
      if (code c =? 10)%N then String c EmptyString :: splitlines t
      else if (code c =? 13)%N then
        match t with
        | String d t' =>
            if (code d =? 10)%N
            then String c (String d EmptyString) :: splitlines t'
            else String c EmptyString :: splitlines t
        | EmptyString => [String c EmptyString]
        end
      else
        match splitlines t with
        | ln :: lns => String c ln :: lns
        | [] => [String c EmptyString]
        end
  end.

(** [prefix_lines(prefix, msg)]: the prefix before each line, and the
    lines joined again. *)
Definition prefix_lines (prefix msg : bytes) : bytes :=
  join "" (map (fun ln => prefix ++ ln) (splitlines msg)).

End Logger.

(* ===================================================================== *)
(** ** The pool: [all_devices], [declare] and [get] *)
(* ===================================================================== *)

Module PoolApi.
Import Text Lvp Pool.

(** [LVPPool.all_devices(exclude)], with [comports] the devices of the
    serial ports of the machine and [tape] what each port will deliver:
    one link of the default kind, with no id and no function, for each
    port that is not excluded. *)
Definition all_devices (comports exclude : list string)
    (tape : string -> list (option ascii)) : LVPPool :=
  __init__
    (map (fun device => state_of (Lvp.__init__ device None [] (tape device)))
         (filter (fun device => negb (existsb (String.eqb device) exclude)) comports)).

(** [{dev.id: dev.declare(spec, bind=False) for dev in self}], the items
    in the order of the links; [None] if a declaration did not return. *)
Fixpoint declare_on (spec : string) (devs : list LVP)
    : option (Result (list (string * Func))) :=
  match devs with
  | [] => Some (Ok [])
  | dev :: t =>
      match Lvp.declare spec false dev with
      | Return f _ =>
          match declare_on spec t with
          | Some (Ok fs) => Some (Ok ((id dev, f) :: fs))
          | other => other
          end
      | Raise e _ => Some (Err e)
      | Blocks _ => None
      end
  end.

(** The closure [func] that [declare] builds on a pool: its name and
    the function of each link under its id. *)
Definition PoolFunc : Type := string * list (string * Func).

(** [setattr(self, name, func)] on a pool on which the functions [bound]
    were declared before, for a [name] under which the pool has no
    attribute of its own or of its class. *)
Definition bind_on_pool (bound : list (string * PoolFunc)) (func : PoolFunc)
    : list (string * PoolFunc) :=
  setitem bound (fst func) func.

(** [declare(spec, bind)] on a pool on which the functions [bound] were
    declared before: the function of the pool, named
    [spec.split("(")[0]], and the functions declared on the pool after
    the call. *)
Definition declare (self : LVPPool) (bound : list (string * PoolFunc))
    (spec : string) (bind : bool)
    : option (Result (PoolFunc * list (string * PoolFunc))) :=
  match declare_on spec (values self) with
  | Some (Ok funcs) =>
      let func := (hd "" (split "(" spec), update [] funcs) in
      Some (Ok (func, if bind then bind_on_pool bound func else bound))
  | Some (Err e) => Some (Err e)
  | None => None
  end.

Section Get.
Variable listing : list LVP -> list LVP.
Variable R : Type.

(** [get(ref, ..., timeout=timeout)] on a pool, with [task] what
    [d.get(...)] does on each link once it has run to its end, along the
    execution [sched]: the [timeout] is not handed on to
    [_parallel_map]. *)
Definition get (self : LVPPool) (ref : Query) (task : LVP -> Fate R)
    (timeout : option Q) (sched : list Event)
    : Result (option (list (string * option R))) :=
  match query listing self ref with
  | Ok devs => Ok (_parallel_map self task (Some devs) None sched)
  | Err e => Err e
  end.

End Get.

End PoolApi.

(* ===================================================================== *)
(** ** More of what is observed *)
(* ===================================================================== *)

Module Behaviour.
Import Text Lvp Pool.

(** The name of a specification as the pool reads it: the text before
    the first opening parenthesis. *)
Definition name_of (spec : string) : string := hd "" (split "(" spec).

(** The interpreter may refuse a conversion between an integer and a
    text of more digits than a limit, 4300 unless it is set otherwise and
    never below 640; [int] above has no limit, and is the interpreter's
    on the texts of at most this many digits. *)
Definition sure_digits : Z := 640.

(** The value of a run of decimal digits read after [acc]. *)
Fixpoint read_digits (acc : N) (u : Decimal.uint) : N :=
  match u with
  | Decimal.Nil => acc
  | Decimal.D0 l => read_digits (10 * acc) l
  | Decimal.D1 l => read_digits (10 * acc + 1) l
  | Decimal.D2 l => read_digits (10 * acc + 2) l
  | Decimal.D3 l => read_digits (10 * acc + 3) l
  | Decimal.D4 l => read_digits (10 * acc + 4) l
  | Decimal.D5 l => read_digits (10 * acc + 5) l
  | Decimal.D6 l => read_digits (10 * acc + 6) l
  | Decimal.D7 l => read_digits (10 * acc + 7) l
  | Decimal.D8 l => read_digits (10 * acc + 8) l
  | Decimal.D9 l => read_digits (10 * acc + 9) l
  end.

(** The names under which a link has an attribute before any function
    is declared: those its constructor assigns, the methods and the
    property of its class, and the three every object has that take no
    function.  Declaring a function under one of them with [bind]
    replaces what the methods read there ([_quiet], [_init], [send],
    ...) or raises ([id], [__class__], [__dict__], [__weakref__]); under
    any other name the function is one more attribute, which nothing
    else reads. *)
Definition attributes : list string :=
  ["_id"; "_quiet"; "_init"; "_lock"; "_messages"; "_log"; "device"; "_serial";
   "_connect_deadline";
   "id"; "__init__"; "__getattr__"; "__repr__"; "log"; "init"; "send"; "_send"; "_recv";
   "get"; "_get"; "set"; "_set"; "exec"; "background"; "declare"; "interact"; "quiet";
   "_force_manual"; "_maybe_quiet";
   "__class__"; "__dict__"; "__weakref__"].

(** The same for a pool. *)
Definition pool_attributes : list string :=
  ["devices"; "all_devices"; "__init__"; "__iter__"; "__len__"; "__repr__";
   "_parallel_map"; "query"; "get"; "set"; "declare"; "exec"; "background";
   "__class__"; "__dict__"; "__weakref__"].

(** The lines typed before the first [quit]. *)
Fixpoint before_quit (typed : list string) : list string :=
  match typed with
  | [] => []
  | msg :: more => if String.eqb msg "quit" then [] else msg :: before_quit more
  end.

(** The last [n] elements of a list. *)
Definition latest {A} (n : nat) (l : list A) : list A := skipn (length l - n) l.

(** A link that is not quiet is not made quiet. *)
Definition loud (s s' : LVP) : Prop := _quiet s = false -> _quiet s' = false.


(** A text at which a greedy repetition of [p] stops: it is empty or
    starts with a character that is not in [p]. *)
Definition stops (p : ascii -> bool) (s : string) : Prop :=
  match s with
  | String c _ => p c = false
  | EmptyString => True
  end.

(** The execution in which thread after thread runs to its end and is
    joined at once. *)
Definition one_by_one (from n : nat) : list Event :=
  flat_map (fun i => [Finish i; JoinEnds]) (seq from n).

Section Commands.
Variable float_str : Builtins.PyFloat -> string.
Variable dict_str : dict -> string.


Definition get_command (name : PyObj) : bytes :=
  "get(" ++ format float_str dict_str name ++ ")" ++ LF.


End Commands.

End Behaviour.

(* ===================================================================== *)
(** ** More links and devices for the examples *)
(* ===================================================================== *)

Module Samples.
Import Text Lvp Pool Examples.


(** The device answers one command with [ok]. *)
Definition ok_answer : list (option ascii) := (feed ("ok" ++ CRLF) ++ [None])%list.



(** The device acknowledges [set(n,3)] and answers [blink] with [ok]. *)
Definition blink_3 : list (option ascii) :=
  (feed ("Parameter 'n' set to '3'" ++ CRLF) ++ [None] ++ feed ("ok" ++ CRLF) ++ [None])%list.

(** The ports of a machine, and ports that deliver nothing. *)
Definition ports : list string := ["/dev/ttyUSB0"; "/dev/ttyACM0"; "COM3"].

Definition silent (_ : string) : list (option ascii) := [].

End Samples.

(* ===================================================================== *)
(** * Properties *)
(* ===================================================================== *)

(** ** Text *)

Module TextFacts.
Import Text.

Lemma append_nil_r (s : string) : s ++ "" = s.
Proof. induction s as [|c s IH]; simpl; [reflexivity | now rewrite IH]. Qed.

Lemma append_assoc (a b c : string) : (a ++ b) ++ c = a ++ (b ++ c).
Proof. induction a as [|x a IH]; simpl; [reflexivity | now rewrite IH]. Qed.

Lemma length_append (a b : string) :
  String.length (a ++ b) = (String.length a + String.length b)%nat.
Proof. induction a as [|x a IH]; simpl; [reflexivity | now rewrite IH]. Qed.

Lemma append_eq_nil (a b : string) : a ++ b = "" -> a = "" /\ b = "".
Proof. destruct a; simpl; [auto | discriminate]. Qed.

Lemma substring_prefix (a b : string) :
  substring 0 (String.length a) (a ++ b) = a.
Proof.
  induction a as [|x a IH]; simpl.
  - destruct b; reflexivity.
  - now rewrite IH.
Qed.

Lemma all_str_append (p : ascii -> bool) (a b : string) :
  all_str p (a ++ b) = all_str p a && all_str p b.
Proof.
  induction a as [|x a IH]; simpl; [reflexivity|].
  rewrite IH. now rewrite andb_assoc.
Qed.

End TextFacts.

(** ** The matcher against the declarative reading *)

Module ReFacts.
Import Text TextFacts Re.

Lemma lit_spec (l s rest : string) : lit l s = Some rest <-> s = l ++ rest.
Proof.
  revert s; induction l as [|a l IH]; intros s; simpl.
  - split; [now intros [= ->] | now intros ->].
  - destruct s as [|b s]; [split; discriminate|].
    destruct (Ascii.eqb_spec a b) as [->|Hab].
    + rewrite IH. split; [now intros -> | now intros [= ->]].
    + split; [discriminate | intros [= E _]; now symmetry in E].
Qed.

Lemma consumed_app (s1 rest : string) : consumed (s1 ++ rest) rest = s1.
Proof.
  unfold consumed. rewrite length_append.
  replace (String.length s1 + String.length rest - String.length rest)%nat
    with (String.length s1) by lia.
  apply substring_prefix.
Qed.

Section Engine.
Variable X : Type.

Lemma star_none (p : ascii -> bool) (s : string) (k : string -> option X) :
  star p s k = None <->
  (forall s1 s2, s = s1 ++ s2 -> all_str p s1 = true -> k s2 = None).
Proof.
  induction s as [|c t IH]; simpl.
  - split.
    + intros H s1 s2 E _. symmetry in E. apply append_eq_nil in E as [_ ->]. exact H.
    + intros H. now apply (H "" "").
  - destruct (p c) eqn:Hc.
    + destruct (star p t k) eqn:Hs.
      * split; [discriminate|]. intros H. exfalso.
        assert (Hn : Some x = None); [|discriminate].
        apply IH. intros s1 s2 E Hp.
        apply (H (String c s1) s2); simpl; [now rewrite E | now rewrite Hc].
      * destruct IH as [IH _]. specialize (IH eq_refl). split.
        -- intros H [|d s1] s2 E Hp; simpl in E.
           ++ now subst s2.
           ++ injection E as <- E. simpl in Hp. rewrite Hc in Hp. now apply (IH s1 s2).
        -- intros H. now apply (H "" (String c t)).
    + split.
      * intros H [|d s1] s2 E Hp; simpl in E.
        -- now subst s2.
        -- injection E as <- E. simpl in Hp. now rewrite Hc in Hp.
      * intros H. now apply (H "" (String c t)).
Qed.

Lemma star_some (p : ascii -> bool) (s : string) (k : string -> option X) (x : X) :
  star p s k = Some x ->
  exists s1 s2, s = s1 ++ s2 /\ all_str p s1 = true /\ k s2 = Some x.
Proof.
  induction s as [|c t IH]; simpl.
  - intros H. now exists "", "".
  - destruct (p c) eqn:Hc.
    + destruct (star p t k) eqn:Hs.
      * intros [= ->]. destruct (IH eq_refl) as (s1 & s2 & -> & Hp & Hk).
        exists (String c s1), s2. simpl. now rewrite Hc.
      * intros H. now exists "", (String c t).
    + intros H. now exists "", (String c t).
Qed.

Lemma run_none (r : regex) :
  forall s g (k : string -> groupdict -> option X),
    run r s g k = None <->
    (forall s1 s2 g', s = s1 ++ s2 -> matches r s1 g g' -> k s2 g' = None).
Proof.
  induction r as [l | p | p | r1 IH1 r2 IH2 | n r IH]; intros s g k; simpl.
  - destruct (lit l s) as [rest|] eqn:Hl.
    + apply lit_spec in Hl. subst s. split.
      * intros H s1 s2 g' E Hm. inversion Hm; subst.
        assert (s2 = rest); [|now subst].
        clear -E. induction s1 as [|c s1 IH]; simpl in E; [now subst|].
        injection E as E. now apply IH.
      * intros H. apply (H l rest g eq_refl). constructor.
    + split; [|reflexivity]. intros _ s1 s2 g' E Hm. inversion Hm; subst.
      exfalso.
      assert (Hl' : lit s1 (s1 ++ s2) = Some s2) by now apply lit_spec.
      congruence.
  - destruct s as [|c t].
    + split; [|reflexivity]. intros _ s1 s2 g' E Hm. inversion Hm; subst.
      discriminate.
    + destruct (p c) eqn:Hc.
      * rewrite star_none. split.
        -- intros H s1 s2 g' E Hm. inversion Hm; subst. simpl in E.
           injection E as <- E. now apply (H s s2).
        -- intros H s1 s2 E Hp. apply (H (String c s1) s2 g); simpl; [now rewrite E|].
           now constructor.
      * split; [|reflexivity]. intros _ s1 s2 g' E Hm. inversion Hm; subst.
        simpl in E. injection E as <- E. congruence.
  - rewrite star_none. split.
    + intros H s1 s2 g' E Hm. inversion Hm; subst. eapply H; eauto.
    + intros H s1 s2 E Hp. apply (H s1 s2 g E). now constructor.
  - rewrite IH1. split.
    + intros H s12 s3 g' E Hm.
      inversion Hm as [ | | | ra rb a b g0 ga gb Ha Hb | ]; subst.
      rewrite append_assoc in H.
      specialize (H a (b ++ s3) ga eq_refl Ha).
      rewrite IH2 in H. now apply (H b s3).
    + intros H s1 s23 g1 E Hm1. apply IH2. intros s2 s3 g2 E' Hm2. subst.
      apply (H (s1 ++ s2) s3 g2); [now rewrite append_assoc|].
      econstructor; eassumption.
  - rewrite IH. split.
    + intros H s1 s2 g' E Hm.
      inversion Hm as [ | | | | n0 r0 a g0 ga Ha ]; subst.
      specialize (H s1 s2 ga eq_refl Ha). now rewrite consumed_app in H.
    + intros H s1 s2 g1 E Hm. subst. rewrite consumed_app.
      apply (H s1 s2); [reflexivity | now constructor].
Qed.

Lemma run_some (r : regex) :
  forall s g (k : string -> groupdict -> option X) x,
    run r s g k = Some x ->
    exists s1 s2 g', s = s1 ++ s2 /\ matches r s1 g g' /\ k s2 g' = Some x.
Proof.
  induction r as [l | p | p | r1 IH1 r2 IH2 | n r IH]; intros s g k x; simpl.
  - destruct (lit l s) as [rest|] eqn:Hl; [|discriminate].
    apply lit_spec in Hl. intros H. exists l, rest, g. repeat split; auto. constructor.
  - destruct s as [|c t]; [discriminate|].
    destruct (p c) eqn:Hc; [|discriminate].
    intros H. apply star_some in H as (s1 & s2 & -> & Hp & Hk).
    exists (String c s1), s2, g. repeat split; auto. now constructor.
  - intros H. apply star_some in H as (s1 & s2 & -> & Hp & Hk).
    exists s1, s2, g. repeat split; auto. now constructor.
  - intros H. apply IH1 in H as (s1 & s23 & g1 & -> & Hm1 & H).
    apply IH2 in H as (s2 & s3 & g2 & -> & Hm2 & H).
    exists (s1 ++ s2), s3, g2. rewrite append_assoc. repeat split; auto.
    econstructor; eassumption.
  - intros H. apply IH in H as (s1 & s2 & g1 & -> & Hm & H).
    rewrite consumed_app in H.
    exists s1, s2, ((n, s1) :: g1). repeat split; auto. now constructor.
Qed.

End Engine.

End ReFacts.

(** ** Function declarations *)

Module DeclareFacts.
Import Text TextFacts Re ReFacts Lvp Spec.

Lemma not_in_parens (c : ascii) : not_in [40; 41]%N c = no_paren c.
Proof. destruct c as [[] [] [] [] [] [] [] []]; reflexivity. Qed.

Lemma all_str_ext (p q : ascii -> bool) (s : string) :
  (forall c, p c = q c) -> all_str p s = all_str q s.
Proof. intros E. induction s as [|c s IH]; simpl; [reflexivity | now rewrite E, IH]. Qed.

Lemma split_cons (sep : ascii) (s : string) :
  exists w ws, split sep s = w :: ws.
Proof.
  induction s as [|c s (w & ws & IH)]; simpl; [now eexists _, _|].
  destruct (Ascii.eqb c sep); [now eexists _, _|].
  rewrite IH. now eexists _, _.
Qed.

Lemma join_split (sep : ascii) (s : string) :
  join (String sep "") (split sep s) = s.
Proof.
  induction s as [|c s IH]; simpl; [reflexivity|].
  destruct (split_cons sep s) as (w & ws & E).
  destruct (Ascii.eqb_spec c sep) as [->|Hc].
  - rewrite E in *. simpl. now rewrite <- IH.
  - rewrite E in *. rewrite <- IH. destruct ws; reflexivity.
Qed.

Lemma split_pieces (p : ascii -> bool) (sep : ascii) (s : string) :
  all_str p s = true ->
  Forall (fun w => all_str p w = true /\ all_str (fun c => negb (Ascii.eqb c sep)) w = true)
         (split sep s).
Proof.
  induction s as [|c s IH]; simpl.
  - intros _. now repeat constructor.
  - intros H. apply andb_true_iff in H as [Hc Hs]. specialize (IH Hs).
    destruct (Ascii.eqb c sep) eqn:Ec.
    + constructor; [now split | exact IH].
    + destruct (split sep s) as [|w ws]; [now repeat constructor; simpl; rewrite ?Hc, ?Ec|].
      inversion IH as [|? ? [Hw1 Hw2] Hws]; subst.
      constructor; [|exact Hws]. simpl. now rewrite Hc, Ec, Hw1, Hw2.
Qed.

Lemma join_pieces (p : ascii -> bool) (sep : ascii) (ws : list string) :
  p sep = true ->
  Forall (fun w => all_str p w = true) ws ->
  all_str p (join (String sep "") ws) = true.
Proof.
  intros Hsep H. induction H as [|w ws Hw Hws IH]; [reflexivity|].
  destruct ws as [|w' ws']; [exact Hw|].
  change (join (String sep "") (w :: w' :: ws'))
    with (w ++ String sep "" ++ join (String sep "") (w' :: ws')).
  rewrite !all_str_append, Hw, IH. simpl. now rewrite Hsep.
Qed.

(** The pattern of [declare] accepts exactly the specifications of the
    form the specification describes. *)
Lemma fullmatch_spec_form (spec : string) :
  fullmatch FUNC_SPEC_RE spec <> None <-> spec_form spec.
Proof.
  unfold fullmatch. split.
  - destruct (run FUNC_SPEC_RE spec [] _) as [data|] eqn:H; [intros _|congruence].
    apply run_some in H as (s1 & s2 & g' & -> & Hm & Hk).
    destruct s2; [|discriminate]. rewrite append_nil_r.
    inversion Hm as [ | | | ? ? n rest ? g1 ? Hn Hrest | ]; subst.
    inversion Hn as [ | | | | ? ? ? ? ? Hn' ]; subst.
    inversion Hn' as [ | ? c w ? Hc Hw | | | ]; subst.
    inversion Hrest as [ | | | ? ? o rest' ? g2 ? Ho Hrest' | ]; subst.
    inversion Ho; subst.
    inversion Hrest' as [ | | | ? ? a cl ? g3 ? Ha Hcl | ]; subst.
    inversion Hcl; subst.
    inversion Ha as [ | | | | ? ? ? ? ? Ha' ]; subst.
    inversion Ha' as [ | | ? ? ? Hp | | ]; subst.
    exists (String c w), (split "," a). repeat split.
    + discriminate.
    + simpl. now rewrite Hc, Hw.
    + rewrite (all_str_ext _ _ _ not_in_parens) in Hp.
      exact (split_pieces no_paren "," a Hp).
    + now rewrite join_split.
  - intros (name & args & Hne & Hw & Hargs & ->) H.
    rewrite run_none in H.
    destruct name as [|c w]; [congruence|]. simpl in Hw.
    apply andb_true_iff in Hw as [Hc Hw].
    specialize (H (String c w ++ "(" ++ join "," args ++ ")") ""
                  [("args", join "," args); ("name", String c w)]).
    rewrite append_nil_r in H. specialize (H eq_refl).
    assert (Hm : matches FUNC_SPEC_RE (String c w ++ "(" ++ join "," args ++ ")") []
                   [("args", join "," args); ("name", String c w)]);
      [|specialize (H Hm); discriminate].
    unfold FUNC_SPEC_RE.
    apply m_cat with (g1 := [("name", String c w)]).
    { constructor. now constructor. }
    apply m_cat with (g1 := [("name", String c w)]); [constructor|].
    apply m_cat with (g1 := [("args", join "," args); ("name", String c w)]);
      [|constructor].
    constructor. constructor.
    rewrite (all_str_ext _ _ _ not_in_parens).
    apply join_pieces; [reflexivity|].
    eapply Forall_impl; [|exact Hargs]. now intros a [Ha _].
Qed.

(** A specification of the form is accepted, and binding it adds one
    attribute to the link and changes nothing else. *)
Lemma declare_accepts (spec : string) (self : LVP) :
  spec_form spec ->
  exists f, declare spec true self
            = Return f (with_functions (setitem (functions self) (fst f) (snd f)) self).
Proof.
  intros H. apply fullmatch_spec_form in H. unfold declare.
  destruct (fullmatch FUNC_SPEC_RE spec) as [data|]; [|congruence].
  now eexists (_, _).
Qed.

(** C7.  A specification that is not of the form [name(arg1, arg2, ...)]
    makes [declare] raise its [ValueError], and the link is what it was:
    no function has been registered. *)
Theorem declare_rejects_malformed (spec : string) (bind : bool) (self : LVP) :
  ~ spec_form spec ->
  declare spec bind self
  = Raise (ValueError ("invalid specification: " ++ repr spec)) self
  /\ functions (state_of (declare spec bind self)) = functions self.
Proof.
  intros H. unfold declare.
  destruct (fullmatch FUNC_SPEC_RE spec) as [data|] eqn:E.
  - exfalso. apply H. apply fullmatch_spec_form. congruence.
  - now split.
Qed.

(** The specification with the closing parenthesis missing. *)
Lemma declare_rejects_malformed_witness :
  let self := mkLVP None "/dev/ttyUSB0" false false [] (mkSerial None [] []) [] in
  declare "foo(a,b" true self
  = Raise (ValueError "invalid specification: 'foo(a,b'") self
  /\ functions (state_of (declare "foo(a,b" true self)) = functions self.
Proof.
  apply (@declare_rejects_malformed "foo(a,b" true).
  intros H. apply fullmatch_spec_form in H. now apply H.
Defined.

End DeclareFacts.

(** ** What a call leaves alone *)

Module LvpFacts.
Import Text TextFacts Lvp Observe.

Lemma state_of_bind {A B} (c : M A) (k : A -> M B) (s : LVP) :
  state_of (bind c k s)
  = match c s with
    | Return a s' => state_of (k a s')
    | o => state_of o
    end.
Proof. unfold bind. now destruct (c s). Qed.

Lemma bind_return {A B} (c : M A) (k : A -> M B) (s s' : LVP) (a : A) :
  c s = Return a s' -> bind c k s = k a s'.
Proof. unfold bind. now intros ->. Qed.

Lemma bind_raise {A B} (c : M A) (k : A -> M B) (s s' : LVP) (e : Exception) :
  c s = Raise e s' -> bind c k s = Raise e s'.
Proof. unfold bind. now intros ->. Qed.



Lemma state_of_then_ret {A B} (c : M A) (b : B) (s : LVP) :
  state_of ((c ;; ret b) s) = state_of (c s).
Proof. unfold bind. now destruct (c s). Qed.

#[export] Instance frame_preorder : PreOrder frame.
Proof.
  split.
  - now intros s.
  - intros a b c (H1 & H2 & H3 & H4) (H5 & H6 & H7 & H8).
    repeat split; congruence.
Qed.

#[export] Instance extends_preorder : PreOrder extends.
Proof.
  split.
  - intros s. exists []. now rewrite app_nil_r.
  - intros a b c [m1 H1] [m2 H2]. exists (m1 ++ m2)%list.
    now rewrite H2, H1, app_assoc.
Qed.

#[export] Instance same_wire_preorder : PreOrder same_wire.
Proof. split; [now intros s | intros a b c H1 H2; unfold same_wire in *; congruence]. Qed.

#[export] Instance keeps_init_preorder : PreOrder keeps_init.
Proof. split; [now intros s | intros a b c H1 H2 H; auto]. Qed.

Section Respects.
Context (R : LVP -> LVP -> Prop) `{!PreOrder R}.

Lemma respects_ret {A} (a : A) : respects R (ret a).
Proof. intros s. reflexivity. Qed.

Lemma respects_raise {A} (e : Exception) : respects R (@raise A e).
Proof. intros s. reflexivity. Qed.

Lemma respects_bind {A B} (c : M A) (k : A -> M B) :
  respects R c -> (forall a, respects R (k a)) -> respects R (bind c k).
Proof.
  intros Hc Hk s. rewrite state_of_bind. specialize (Hc s).
  destruct (c s) as [a s'| |]; simpl in *; auto.
  etransitivity; [exact Hc | apply Hk].
Qed.

Lemma respects_if {A} (b : bool) (c d : M A) :
  respects R c -> respects R d -> respects R (if b then c else d).
Proof. now destruct b. Qed.

Lemma respects_for_each {A} (body : A -> M unit) (xs : list A) :
  (forall x, respects R (body x)) -> respects R (for_each body xs).
Proof.
  intros H. induction xs as [|x t IH]; simpl.
  - apply respects_ret.
  - apply respects_bind; auto.
Qed.

Lemma respects_map_m {A B} (f : A -> M B) (xs : list A) :
  (forall x, respects R (f x)) -> respects R (map_m f xs).
Proof.
  intros H. induction xs as [|x t IH]; simpl.
  - apply respects_ret.
  - apply respects_bind; [auto|]. intros y.
    apply respects_bind; [auto|]. intros ys. apply respects_ret.
Qed.

(** The port and the history: relations that do not look at what was
    read, at the timeout or at the history are respected by every step
    that touches nothing else. *)
Hypothesis R_read : forall s t i m,
  R s (with_messages m (with_serial (mkSerial t (written (_serial s)) i) s)).

Lemma respects_read_until (e : bytes) : respects R (read_until e).
Proof.
  intros s. unfold read_until.
  destruct (read_until_from _ _ _ _) as [[out rest]|]; simpl.
  - exact (R_read s (timeout (_serial s)) rest (_messages s)).
  - exact (R_read s (timeout (_serial s)) [] (_messages s)).
Qed.

Lemma respects_set_timeout (t : option Q) : respects R (set_timeout t).
Proof. intros s. exact (R_read s t (incoming (_serial s)) (_messages s)). Qed.

Lemma respects_log (msg : bytes) : respects R (log msg).
Proof.
  intros s. simpl.
  generalize (R_read s (timeout (_serial s)) (incoming (_serial s))
                (deque_append (_messages s) msg)).
  now destruct s as [? ? ? ? ? [? ? ?] ?].
Qed.

Lemma respects_drain_boot (fuel : nat) : respects R (drain_boot fuel).
Proof.
  induction fuel as [|k IH]; simpl.
  - apply respects_ret.
  - apply respects_bind; [apply respects_read_until|]. intros msg.
    apply respects_bind; [apply respects_log|]. intros _.
    apply respects_if; [apply respects_ret | exact IH].
Qed.

Lemma respects_flush_lines (fuel : nat) (out : bytes) :
  respects R (flush_lines fuel out).
Proof.
  revert out. induction fuel as [|k IH]; intros out; simpl.
  - apply respects_ret.
  - apply respects_bind; [apply respects_read_until|]. intros msg.
    apply respects_if; [apply respects_ret | apply IH].
Qed.

Lemma respects_recv (until : option bytes) (flush : bool) (t : Q) :
  respects R (_recv until flush t).
Proof.
  intros s. unfold _recv. destruct (_quiet s); [reflexivity|].
  revert s. apply respects_bind.
  - destruct until as [u|]; [destruct (is_empty u)|]; apply respects_read_until.
  - intros out. apply respects_if; [|apply respects_ret].
    apply respects_bind; [apply respects_set_timeout|]. intros _.
    intros s0. cbv beta. apply respects_flush_lines.
Qed.

(** Relations that moreover let the wire grow and the link become
    initialised are respected by the whole exchange. *)
Hypothesis R_write : forall s msg,
  R s (with_serial (mkSerial (timeout (_serial s)) (written (_serial s) ++ [msg])%list
                             (incoming (_serial s))) s).
Hypothesis R_init : forall s, R s (with_init true s).

Lemma respects_write (msg : bytes) : respects R (write msg).
Proof. intros s. apply R_write. Qed.

Lemma respects__send (msg : bytes) : respects R (_send msg).
Proof.
  apply respects_bind; [apply respects_write|]. intros _. apply respects_log.
Qed.

Lemma respects_init (force : bool) : respects R (init force).
Proof.
  intros s. unfold init. destruct (force || negb (_init s)); [|reflexivity].
  revert s.
  apply respects_bind; [apply respects_set_timeout|]. intros _.
  apply respects_bind; [intros s0; cbv beta; apply respects_drain_boot|].
  intros _.
  apply respects_bind; [apply respects_set_timeout|]. intros _.
  apply respects_bind; [apply respects__send|]. intros _.
  apply respects_bind; [apply respects_read_until|]. intros ack.
  apply respects_bind; [apply respects_log|]. intros _.
  intros s. apply R_init.
Qed.

Lemma respects_send (msg : string) (t : option Q) : respects R (send msg t).
Proof.
  unfold send. destruct (is_ascii msg); [|apply respects_raise].
  apply respects_bind; [apply respects_init|]. intros _.
  apply respects_bind; [apply respects_set_timeout|]. intros _.
  apply respects_bind; [apply respects__send|]. intros _.
  apply respects_bind; [apply respects_recv|]. intros out.
  apply respects_bind; [apply respects_log|]. intros _.
  apply respects_if; [apply respects_ret | apply respects_raise].
Qed.

(** The parameter protocol is made of exchanges. *)
Variable float_str : Builtins.PyFloat -> string.
Variable dict_str : dict -> string.

Lemma respects__get (name : PyObj) : respects R (_get float_str dict_str name).
Proof.
  apply respects_bind; [apply respects_send|]. intros out.
  destruct (Re.search _ out) as [data|]; [|apply respects_raise].
  apply respects_if; [apply respects_ret | apply respects_raise].
Qed.

Lemma respects__set (name value : PyObj) :
  respects R (_set float_str dict_str name value).
Proof.
  apply respects_bind; [apply respects_send|]. intros out.
  destruct (Re.search _ out) as [data|]; [|apply respects_raise].
  apply respects_if; [apply respects_ret | apply respects_raise].
Qed.

Lemma respects_set_each (l : list (PyObj * PyObj)) :
  respects R (set_each float_str dict_str l).
Proof. apply respects_for_each. intros x. apply respects__set. Qed.

Lemma respects_set (args : list PyObj) (kwargs : dict) :
  respects R (set float_str dict_str args kwargs).
Proof.
  unfold set.
  destruct args as [|a [|b [|c rest]]];
    repeat match goal with
           | |- respects R (match ?x with _ => _ end) => destruct x
           end;
    first [apply respects_set_each | apply respects_raise].
Qed.

End Respects.

(** *** The four relations at the primitive steps *)

Lemma frame_read s t i m :
  frame s (with_messages m (with_serial (mkSerial t (written (_serial s)) i) s)).
Proof. now repeat split. Qed.

Lemma frame_write s msg :
  frame s (with_serial (mkSerial (timeout (_serial s)) (written (_serial s) ++ [msg])%list
                                 (incoming (_serial s))) s).
Proof. now repeat split. Qed.

Lemma frame_init s : frame s (with_init true s).
Proof. now repeat split. Qed.

Lemma extends_read s t i m :
  extends s (with_messages m (with_serial (mkSerial t (written (_serial s)) i) s)).
Proof. exists []. unfold wire. simpl. now rewrite app_nil_r. Qed.

Lemma extends_write s msg :
  extends s (with_serial (mkSerial (timeout (_serial s)) (written (_serial s) ++ [msg])%list
                                   (incoming (_serial s))) s).
Proof. now exists [msg]. Qed.

Lemma extends_init s : extends s (with_init true s).
Proof. exists []. unfold wire. simpl. now rewrite app_nil_r. Qed.

Lemma same_wire_read s t i m :
  same_wire s (with_messages m (with_serial (mkSerial t (written (_serial s)) i) s)).
Proof. reflexivity. Qed.

Lemma keeps_init_read s t i m :
  keeps_init s (with_messages m (with_serial (mkSerial t (written (_serial s)) i) s)).
Proof. now intros H. Qed.

Lemma keeps_init_write s msg :
  keeps_init s (with_serial (mkSerial (timeout (_serial s)) (written (_serial s) ++ [msg])%list
                                      (incoming (_serial s))) s).
Proof. now intros H. Qed.

Lemma keeps_init_init s : keeps_init s (with_init true s).
Proof. now intros H. Qed.

Create HintDb lvp.

#[export] Hint Resolve frame_read frame_write frame_init extends_read extends_write
  extends_init same_wire_read keeps_init_read keeps_init_write keeps_init_init : lvp.

(** An exchange leaves the flags and the attributes alone, only adds to
    the wire, and keeps an initialised link initialised. *)
Lemma send_frame msg t : respects frame (send msg t).
Proof. apply respects_send; auto with lvp; typeclasses eauto. Qed.

Lemma send_extends msg t : respects extends (send msg t).
Proof. apply respects_send; auto with lvp; typeclasses eauto. Qed.

Lemma send_keeps_init msg t : respects keeps_init (send msg t).
Proof. apply respects_send; auto with lvp; typeclasses eauto. Qed.

(** *** The loops never run out of rounds *)

Lemma read_until_from_shrinks e t : forall inp acc out rest,
  read_until_from e t acc inp = Some (out, rest) ->
  (length rest < length inp)%nat \/ (inp = [] /\ rest = [] /\ out = acc).
Proof.
  induction inp as [|[c|] r IH]; intros acc out rest; simpl.
  - destruct t; [intros [= <- <-]; now right | discriminate].
  - destruct (endswith _ e).
    + intros [= <- <-]. left. lia.
    + intros H. apply IH in H as [H|(-> & -> & _)]; left; simpl; lia.
  - destruct t.
    + intros [= <- <-]. left. lia.
    + intros H. apply IH in H as [H|(-> & -> & _)]; left; simpl; lia.
Qed.

Lemma readline_shrinks s msg s' :
  readline s = Return msg s' -> is_empty msg = false ->
  (length (incoming (_serial s')) < length (incoming (_serial s)))%nat.
Proof.
  unfold readline, read_until.
  destruct (read_until_from _ _ _ _) as [[out rest]|] eqn:E; [|discriminate].
  intros [= <- <-] Hne. simpl.
  apply read_until_from_shrinks in E as [H|(_ & _ & ->)]; [exact H | discriminate].
Qed.

(** [flush_lines] and [drain_boot] stop by reading the empty bytes
    before their rounds are used up: more rounds change nothing. *)
Lemma flush_lines_rounds : forall n m out s,
  (length (incoming (_serial s)) < n)%nat ->
  (length (incoming (_serial s)) < m)%nat ->
  flush_lines n out s = flush_lines m out s.
Proof.
  induction n as [|n IH]; intros m out s Hn Hm; [lia|].
  destruct m as [|m]; [lia|]. simpl. unfold bind.
  destruct (readline s) as [msg s'| |] eqn:E; try reflexivity.
  destruct (is_empty msg) eqn:Em; [reflexivity|].
  assert (H := readline_shrinks s E Em). apply IH; lia.
Qed.

Lemma drain_boot_rounds : forall n m s,
  (length (incoming (_serial s)) < n)%nat ->
  (length (incoming (_serial s)) < m)%nat ->
  drain_boot n s = drain_boot m s.
Proof.
  induction n as [|n IH]; intros m s Hn Hm; [lia|].
  destruct m as [|m]; [lia|]. simpl. unfold bind at 1 3.
  destruct (readline s) as [msg s'| |] eqn:E; try reflexivity.
  unfold bind. simpl.
  destruct (is_empty msg) eqn:Em; [reflexivity|].
  assert (H := readline_shrinks s E Em).
  apply IH; simpl; destruct s' as [? ? ? ? ? [? ? ?] ?]; simpl in *; lia.
Qed.

(** *** Reads with a timeout come back *)

Lemma read_until_from_timed e q acc inp :
  read_until_from e (Some q) acc inp <> None.
Proof.
  revert acc. induction inp as [|[c|] r IH]; intros acc; simpl; try discriminate.
  destruct (endswith _ e); [discriminate | apply IH].
Qed.

Lemma drain_boot_returns fuel s q :
  timeout (_serial s) = Some q ->
  exists s', drain_boot fuel s = Return tt s' /\ wire s' = wire s.
Proof.
  revert s. induction fuel as [|k IH]; intros s Ht; simpl.
  - now exists s.
  - unfold bind at 1. unfold readline, read_until. rewrite Ht.
    destruct (read_until_from LF (Some q) "" (incoming (_serial s)))
      as [[msg rest]|] eqn:E; [|now apply read_until_from_timed in E].
    unfold bind at 1. simpl.
    destruct (is_empty msg).
    + eexists. split; [reflexivity|]. reflexivity.
    + match goal with |- context [drain_boot k ?s1] =>
        destruct (IH s1) as (s' & Hs' & Hw); [exact Ht|] end.
      exists s'. split; [exact Hs'|]. rewrite Hw. reflexivity.
Qed.


(** The handshake puts [manual_connect] on the wire, and nothing else,
    before it waits for the acknowledgement. *)
Lemma init_wire s :
  _init s = false ->
  wire (state_of (init false s)) = (wire s ++ [manual_connect])%list.
Proof.
  intros Hi. unfold init. rewrite Hi. simpl orb. cbv iota.
  erewrite bind_return by reflexivity.
  match goal with |- context [bind (fun s => drain_boot (rounds s) s) ?k ?s1] =>
    destruct (@drain_boot_returns (rounds s1) s1 (1 # 16)%Q eq_refl) as (s2 & H2 & W2);
    rewrite (@bind_return _ _ (fun s => drain_boot (rounds s) s) k s1 s2 tt H2)
  end.
  erewrite bind_return by reflexivity.
  erewrite bind_return by reflexivity.
  match goal with |- context [state_of (bind ?c ?k ?s4)] =>
    assert (He : same_wire s4 (state_of (bind c k s4)))
  end.
  { apply respects_bind; [typeclasses eauto | |].
    - apply respects_read_until; auto with lvp.
    - intros ack. apply respects_bind; [typeclasses eauto | |].
      + apply respects_log; auto with lvp.
      + intros _ s'. reflexivity. }
  unfold same_wire in He. rewrite He.
  unfold wire at 1. simpl. unfold wire in W2. simpl in W2. now rewrite W2.
Qed.


Lemma init_ready s : _init s = true -> init false s = Return tt s.
Proof. intros H. unfold init. now rewrite H. Qed.


(** What follows the write in [send] reads and logs, and writes nothing. *)
Lemma after_write_same_wire :
  respects same_wire
    (out <- _recv (Some CRLF) true (1 # 64)%Q ;;
     log out ;;
     if is_ascii out then ret (crlf_to_lf out) else raise UnicodeDecodeError).
Proof.
  apply respects_bind; [typeclasses eauto | |].
  - apply respects_recv; auto with lvp. typeclasses eauto.
  - intros out. apply respects_bind; [typeclasses eauto | |].
    + apply respects_log; auto with lvp.
    + intros _. apply respects_if;
        [apply respects_ret | apply respects_raise]; typeclasses eauto.
Qed.

(** On an initialised link an exchange writes its command, once, however
    the exchange ends. *)
Lemma send_wire_ready msg t s :
  _init s = true -> is_ascii msg = true ->
  wire (state_of (send msg t s)) = (wire s ++ [framed msg])%list.
Proof.
  intros Hi Ha. unfold send. rewrite Ha.
  erewrite bind_return by now apply init_ready.
  erewrite bind_return by reflexivity.
  erewrite bind_return by reflexivity.
  rewrite after_write_same_wire. reflexivity.
Qed.

Lemma send_wire_not_ascii msg t s :
  is_ascii msg = false -> send msg t s = Raise UnicodeEncodeError s.
Proof. intros Ha. unfold send. now rewrite Ha. Qed.

(** [send("manual_connect")] puts the command on the wire whether or not
    the link was initialised: the handshake it may run first sends the
    same bytes. *)
Lemma send_manual_connect_wire t s :
  exists more,
    wire (state_of (send "manual_connect" t s)) = (wire s ++ manual_connect :: more)%list.
Proof.
  destruct (_init s) eqn:Hi.
  - exists []. now rewrite send_wire_ready.
  - unfold send. change (is_ascii "manual_connect") with true. cbv iota.
    rewrite state_of_bind.
    assert (Hw := init_wire s Hi).
    destruct (init false s) as [[] s'| e s' | s'] eqn:E; simpl in Hw;
      [|now exists []..].
    match goal with |- context [state_of (?c s')] =>
      assert (He : extends s' (state_of (c s')))
    end.
    { apply respects_bind; [typeclasses eauto | |].
      - apply respects_set_timeout; auto with lvp.
      - intros _. apply respects_bind; [typeclasses eauto | |].
        + apply respects__send; auto with lvp. typeclasses eauto.
        + intros _. intros s0.
          assert (Hs := after_write_same_wire s0). unfold same_wire in Hs.
          exists []. rewrite app_nil_r. exact Hs. }
    destruct He as [more He]. exists more.
    rewrite He, Hw, <- app_assoc. reflexivity.
Qed.

End LvpFacts.

(** ** The quiet scope *)

Module QuietFacts.
Import Text TextFacts Lvp Observe Examples LvpFacts.

(** Entering the scope always gets to the [yield]; it writes
    [quiet_connect] when the link was not quiet and nothing otherwise, and
    it leaves the flag as it found it. *)
Lemma quiet_enter_returns (self : LVP) :
  quiet_enter self = Return (_quiet self) (state_of (quiet_enter self)).
Proof. unfold quiet_enter. now destruct (_quiet self). Qed.

Lemma quiet_enter_state (self : LVP) :
  _quiet (state_of (quiet_enter self)) = _quiet self /\
  wire (state_of (quiet_enter self))
  = (wire self ++ (if _quiet self then [] else [quiet_connect]))%list /\
  incoming (_serial (state_of (quiet_enter self))) = incoming (_serial self).
Proof.
  unfold quiet_enter, wire. destruct (_quiet self) eqn:Hq; simpl.
  - now rewrite app_nil_r, Hq.
  - now rewrite Hq.
Qed.

(** C4, at the failing input.  On a link that is not quiet, entering the
    quiet scope writes [quiet_connect] and leaves [_quiet] false: a
    [_recv] inside the block is not the no-op that returns the empty
    bytes, it reads what the device sent.  Entering the scope of a link
    that is quiet already writes nothing. *)
Theorem quiet_scope_flag_stays_clear :
  let answer := "Parameter 'x': 5" ++ CRLF in
  let self := ready_link (feed answer) in
  let inside := state_of (quiet_enter self) in
  _quiet inside = false /\
  wire inside = [quiet_connect] /\
  (exists s', _recv (Some CRLF) true (1 # 64)%Q inside = Return answer s') /\
  wire (state_of (quiet_enter (with_quiet true self))) = [].
Proof.
  cbv zeta. repeat split.
  eexists. vm_compute. reflexivity.
Qed.

Lemma quiet_exit_state (q : bool) (s1 : LVP) :
  _quiet (state_of (quiet_exit q s1)) = q /\
  (q = true -> quiet_exit q s1 = Return tt (with_quiet true s1)) /\
  (q = false ->
   exists more, wire (state_of (quiet_exit q s1)) = (wire s1 ++ manual_connect :: more)%list).
Proof.
  unfold quiet_exit. erewrite bind_return by reflexivity.
  destruct q; cbn [negb]; cbv iota.
  - split; [reflexivity | split; [reflexivity | discriminate]].
  - rewrite state_of_then_ret.
    destruct (send_frame "manual_connect" None (with_quiet false s1)) as (Hq & _).
    destruct (send_manual_connect_wire None (with_quiet false s1)) as [more Hw].
    split; [exact Hq | split; [discriminate | now exists more]].
Qed.

(** C5, as the code has it.  When the block of a quiet scope runs to
    its end, the link leaves the scope with its quiet flag as it was on
    entry, whatever it was; and when it was not quiet, [manual_connect]
    is the first thing written after the block. *)
Theorem quiet_scope_restores_mode (A : Type) (body : M A) (self s1 : LVP) (r : A) :
  body (state_of (quiet_enter self)) = Return r s1 ->
  _quiet (state_of (quiet body self)) = _quiet self /\
  (_quiet self = true -> quiet body self = Return r (with_quiet true s1)) /\
  (_quiet self = false ->
   exists more,
     wire (state_of (quiet body self)) = (wire s1 ++ manual_connect :: more)%list).
Proof.
  intros Hbody. unfold quiet.
  rewrite (@bind_return _ _ quiet_enter _ self _ _ (quiet_enter_returns self)).
  erewrite bind_return by exact Hbody.
  destruct (quiet_exit_state (_quiet self) s1) as (Hq & Ht & Hf).
  rewrite state_of_then_ret.
  split; [exact Hq | split].
  - intros H. unfold bind. now rewrite (Ht H).
  - exact Hf.
Qed.

(** When the block raises, the exception leaves the scope and the code
    after the [yield] does not run: the link is as the block left it. *)
Lemma quiet_scope_block_raises (A : Type) (body : M A) (self s1 : LVP) (e : Exception) :
  body (state_of (quiet_enter self)) = Raise e s1 ->
  quiet body self = Raise e s1.
Proof.
  intros Hbody. unfold quiet.
  rewrite (@bind_return _ _ quiet_enter _ self _ _ (quiet_enter_returns self)).
  now apply bind_raise.
Qed.

End QuietFacts.

(** ** Dictionaries *)

Module DictFacts.
Import Text Lvp Spec.

Section Dict.
Variable V : Type.
Implicit Types (d : list (string * V)) (k : string) (v : V).

Lemma has_key_app k d d' : has_key k (d ++ d')%list = has_key k d || has_key k d'.
Proof. apply existsb_app. Qed.

Lemma has_key_In k d : has_key k d = true <-> In k (map fst d).
Proof.
  unfold has_key. rewrite existsb_exists, in_map_iff. split.
  - intros (kv & Hin & E). apply String.eqb_eq in E. now exists kv.
  - intros (kv & E & Hin). exists kv. split; [exact Hin|]. now apply String.eqb_eq.
Qed.

Lemma getitem_absent k d : has_key k d = false -> getitem d k = None.
Proof.
  induction d as [|[k' v'] t IH]; simpl; [reflexivity|].
  destruct (String.eqb k' k); [discriminate | exact IH].
Qed.

Lemma setitem_absent k v d : has_key k d = false -> setitem d k v = (d ++ [(k, v)])%list.
Proof.
  induction d as [|[k' v'] t IH]; simpl; [reflexivity|].
  destruct (String.eqb k' k); [discriminate|]. intros H. now rewrite IH.
Qed.

Lemma setitem_present k v d :
  NoDup (map fst d) -> has_key k d = true ->
  setitem d k v = map (fun kv => if String.eqb (fst kv) k then (fst kv, v) else kv) d.
Proof.
  induction d as [|[k' v'] t IH]; simpl; [discriminate|].
  intros Hnd Hk. inversion Hnd as [|? ? Hnot Hnd']; subst.
  destruct (String.eqb_spec k' k) as [->|Hne].
  - f_equal. clear IH Hk Hnd. induction t as [|[k2 v2] t IH]; simpl; [reflexivity|].
    simpl in Hnot. destruct (String.eqb_spec k2 k) as [->|_]; [tauto|].
    f_equal. apply IH; [tauto | now inversion Hnd'].
  - simpl in Hk. f_equal. now apply IH.
Qed.

Lemma keys_setitem k v d :
  map fst (setitem d k v)
  = if has_key k d then map fst d else (map fst d ++ [k])%list.
Proof.
  induction d as [|[k' v'] t IH]; simpl; [reflexivity|].
  destruct (String.eqb k' k); simpl; [reflexivity|].
  rewrite IH. now destruct (has_key k t).
Qed.

Lemma nodup_setitem k v d : NoDup (map fst d) -> NoDup (map fst (setitem d k v)).
Proof.
  intros H. rewrite keys_setitem. destruct (has_key k d) eqn:E; [exact H|].
  apply NoDup_app; [exact H | repeat constructor; now intros [] |].
  intros x Hx [<-|[]]. apply has_key_In in Hx. congruence.
Qed.

Lemma nodup_update d items : NoDup (map fst d) -> NoDup (map fst (update d items)).
Proof.
  revert d. induction items as [|[k v] t IH]; intros d H; simpl; [exact H|].
  apply IH. now apply nodup_setitem.
Qed.

Lemma has_key_setitem k k' v d :
  has_key k' (setitem d k v) = has_key k' d || String.eqb k k'.
Proof.
  assert (H : forall l, existsb (fun x => String.eqb x k') l
                        = existsb (fun kv : string * V => String.eqb (fst kv) k')
                                  (map (fun x => (x, v)) l)).
  { induction l as [|x l IH]; simpl; [reflexivity | now rewrite IH]. }
  assert (E : forall d0, has_key k' d0 = existsb (fun x => String.eqb x k') (map fst d0)).
  { induction d0 as [|[a b] d0 IH]; simpl; [reflexivity | now rewrite IH]. }
  rewrite !E, keys_setitem. destruct (has_key k d) eqn:Hk.
  - destruct (String.eqb_spec k k') as [->|_]; [|now rewrite orb_false_r].
    rewrite E in Hk. rewrite Hk. reflexivity.
  - rewrite existsb_app. simpl. now rewrite orb_false_r.
Qed.

(** [d.update(items)] when both have distinct keys: the entries of [d]
    with the values [items] gives them, then the new entries. *)
Lemma update_spec items : forall d,
  NoDup (map fst d) -> NoDup (map fst items) ->
  update d items
  = (map (fun kv => (fst kv, match getitem items (fst kv) with
                             | Some v => v
                             | None => snd kv
                             end)) d
     ++ filter (fun kv => negb (has_key (fst kv) d)) items)%list.
Proof.
  induction items as [|[k v] t IH]; intros d Hd Hi; simpl.
  - rewrite app_nil_r. induction d as [|[a b] d IHd]; simpl; [reflexivity|].
    f_equal. apply IHd. now inversion Hd.
  - inversion Hi as [|? ? Hk Ht]; subst.
    assert (Hkt : has_key k t = false).
    { destruct (has_key k t) eqn:E; [|reflexivity]. apply has_key_In in E. tauto. }
    change (fold_left _ t (setitem d k v)) with (update (setitem d k v) t).
    rewrite (IH _ (nodup_setitem k v d Hd) Ht).
    assert (Hfilter :
      filter (fun kv => negb (has_key (fst kv) (setitem d k v))) t
      = filter (fun kv => negb (has_key (fst kv) d)) t).
    { clear -Hkt. induction t as [|[a b] t IHt]; simpl; [reflexivity|].
      simpl in Hkt. apply orb_false_iff in Hkt as [Hak Hkt].
      rewrite has_key_setitem. simpl.
      rewrite String.eqb_sym, Hak, orb_false_r, (IHt Hkt). reflexivity. }
    rewrite Hfilter. clear Hfilter IH.
    destruct (has_key k d) eqn:Hkd; simpl.
    + rewrite (setitem_present k v d Hd Hkd), map_map. f_equal.
      apply map_ext_in. intros [a b] _. simpl.
      destruct (String.eqb_spec a k) as [->|Hne]; simpl.
      * rewrite (getitem_absent k t Hkt).
        destruct (String.eqb_spec k k) as [_|Hkk]; [reflexivity | congruence].
      * destruct (String.eqb_spec k a) as [->|_]; [congruence | reflexivity].
    + rewrite (setitem_absent k v d Hkd), map_app, <- app_assoc. simpl.
      rewrite (getitem_absent k t Hkt).
      destruct (String.eqb_spec k k) as [_|Hkk]; [|congruence]. f_equal.
      apply map_ext_in. intros [a b] Hin. simpl.
      destruct (String.eqb_spec k a) as [->|_]; [|reflexivity].
      exfalso. assert (has_key a d = true); [|congruence].
      apply has_key_In. apply in_map_iff. now exists (a, b).
Qed.

Lemma update_nil (items : list (string * V)) : NoDup (map fst items) -> update [] items = items.
Proof.
  intros H. rewrite update_spec; [|constructor | exact H]. simpl.
  induction items as [|x t IH]; simpl; [reflexivity|]. f_equal. apply IH. now inversion H.
Qed.

End Dict.

(** The keys after an update are those before it and those it brings. *)
Lemma keys_update {V} (entries d : list (string * V)) k :
  In k (map fst (update d entries)) <-> In k (map fst d) \/ In k (map fst entries).
Proof.
  revert d. induction entries as [|[a b] t IH]; intros d; simpl; [tauto|].
  rewrite IH, keys_setitem.
  destruct (has_key a d) eqn:E.
  - apply has_key_In in E. split; [tauto|]. intros [H|[<-|H]]; tauto.
  - rewrite in_app_iff. simpl. tauto.
Qed.



End DictFacts.

(** ** [set]: the exchanges and their order *)

Module SetFacts.
Import Text TextFacts Lvp Observe LvpFacts Spec DictFacts.

(** *** The exceptions of an exchange *)

Lemma raises_only_bind P {A B} (c : M A) (k : A -> M B) :
  raises_only P c -> (forall a, raises_only P (k a)) -> raises_only P (bind c k).
Proof.
  intros Hc Hk s e s'. unfold bind. destruct (c s) as [a s1|e1 s1|s1] eqn:E.
  - apply Hk.
  - intros [= <- <-]. eapply Hc; eassumption.
  - discriminate.
Qed.

Lemma read_until_never_raises P e : raises_only P (read_until e).
Proof.
  intros s x s'. unfold read_until.
  destruct (read_until_from _ _ _ _) as [[out rest]|]; discriminate.
Qed.

Lemma drain_boot_never_raises P fuel : raises_only P (drain_boot fuel).
Proof.
  induction fuel as [|k IH]; simpl.
  - intros s e s'. discriminate.
  - apply raises_only_bind; [apply read_until_never_raises|]. intros msg.
    apply raises_only_bind; [intros s e s'; discriminate|]. intros _.
    destruct (is_empty msg); [intros s e s'; discriminate | exact IH].
Qed.

Lemma flush_lines_never_raises P fuel out : raises_only P (flush_lines fuel out).
Proof.
  revert out. induction fuel as [|k IH]; intros out; simpl.
  - intros s e s'. discriminate.
  - apply raises_only_bind; [apply read_until_never_raises|]. intros msg.
    destruct (is_empty msg); [intros s e s'; discriminate | apply IH].
Qed.

Lemma recv_never_raises P until flush t : raises_only P (_recv until flush t).
Proof.
  intros s. unfold _recv. destruct (_quiet s); [discriminate|]. revert s.
  apply raises_only_bind.
  - destruct until as [u|]; [destruct (is_empty u)|]; apply read_until_never_raises.
  - intros out. destruct flush; [|intros s e s'; discriminate].
    apply raises_only_bind; [intros s e s'; discriminate|]. intros _.
    intros s. apply flush_lines_never_raises.
Qed.

Lemma init_never_raises P force : raises_only P (init force).
Proof.
  intros s. unfold init. destruct (force || negb (_init s)); [|discriminate]. revert s.
  apply raises_only_bind; [intros s e s'; discriminate|]. intros _.
  apply raises_only_bind; [intros s; apply drain_boot_never_raises|]. intros _.
  apply raises_only_bind; [intros s e s'; discriminate|]. intros _.
  apply raises_only_bind; [intros s e s'; discriminate|]. intros _.
  apply raises_only_bind; [apply read_until_never_raises|]. intros ack.
  apply raises_only_bind; [intros s e s'; discriminate|]. intros _.
  intros s e s'; discriminate.
Qed.

Lemma send_raises_codec msg t : raises_only codec (send msg t).
Proof.
  unfold send. destruct (is_ascii msg).
  - apply raises_only_bind; [apply init_never_raises|]. intros _.
    apply raises_only_bind; [intros s e s'; discriminate|]. intros _.
    apply raises_only_bind; [intros s e s'; discriminate|]. intros _.
    apply raises_only_bind; [apply recv_never_raises|]. intros out.
    apply raises_only_bind; [intros s e s'; discriminate|]. intros _.
    destruct (is_ascii out); intros s e s'; [discriminate|].
    intros [= <- _]. now right.
  - intros s e s' [= <- _]. now left.
Qed.

(** *** The command on the wire *)

Lemma substring_last (s : string) (c : ascii) :
  substring (String.length s) 1 (s ++ String c "") = String c "".
Proof. induction s as [|a s IH]; simpl; [reflexivity | exact IH]. Qed.

Lemma framed_paren (s : string) : framed (s ++ ")") = s ++ ")" ++ LF.
Proof.
  unfold framed, endswith. rewrite length_append. simpl String.length.
  replace (String.length s + 1 - 1)%nat with (String.length s) by lia.
  rewrite substring_last.
  replace (1 <=? String.length s + 1)%nat with true
    by (symmetry; apply Nat.leb_le; lia).
  simpl. now rewrite append_assoc.
Qed.

Section Exchanges.
Variable float_str : Builtins.PyFloat -> string.
Variable dict_str : dict -> string.

Lemma framed_set_text kv :
  framed (set_text float_str dict_str kv) = set_command float_str dict_str kv.
Proof.
  unfold set_text, Spec.set_command.
  rewrite <- !append_assoc. rewrite framed_paren. now rewrite !append_assoc.
Qed.

Lemma is_ascii_framed msg : is_ascii (framed msg) = is_ascii msg.
Proof.
  unfold framed. destruct (endswith msg LF); [reflexivity|].
  unfold is_ascii. rewrite all_str_append. simpl. now rewrite andb_true_r.
Qed.

(** One assignment on an initialised link: its command goes on the wire
    once unless it cannot be encoded, and the only errors are those of
    the codec and the protocol error that carries the response. *)
Lemma _set_spec (kv : PyObj * PyObj) (s : LVP) :
  _init s = true ->
  let o := _set float_str dict_str (fst kv) (snd kv) s in
  _init (state_of o) = true /\
  (is_ascii (set_text float_str dict_str kv) = false -> o = Raise UnicodeEncodeError s) /\
  (is_ascii (set_text float_str dict_str kv) = true ->
   wire (state_of o) = (wire s ++ [set_command float_str dict_str kv])%list) /\
  (forall e s', o = Raise e s' ->
     codec e \/ exists out, e = bad_response out /\ set_accepts (fst kv) out = false).
Proof.
  intros Hi o. subst o.
  assert (Hk : _init (state_of (_set float_str dict_str (fst kv) (snd kv) s)) = true).
  { apply (@respects__set keeps_init _); auto with lvp. }
  split; [exact Hk|]. clear Hk.
  unfold _set. fold (set_text float_str dict_str kv).
  repeat split.
  - intros Ha. unfold bind. now rewrite (send_wire_not_ascii (set_text float_str dict_str kv) None s Ha).
  - intros Ha. rewrite <- framed_set_text, <- (send_wire_ready (set_text float_str dict_str kv) None s Hi Ha).
    rewrite state_of_bind. destruct (send (set_text float_str dict_str kv) None s) as [out s1| |]; try reflexivity.
    destruct (Re.search _ out) as [data|]; [|reflexivity].
    now destruct (same_name _ _).
  - intros e s'. unfold bind.
    destruct (send (set_text float_str dict_str kv) None s) as [out s1|e1 s1|s1] eqn:E.
    + destruct (Re.search Re.SET_RESP_RE out) as [data|] eqn:Es.
      * destruct (same_name (Re.group "name" data) (fst kv)) eqn:En; [discriminate|].
        intros [= <- _]. right. exists out. unfold set_accepts. now rewrite Es, En.
      * intros [= <- _]. right. exists out. unfold set_accepts. now rewrite Es.
    + intros [= <- _]. left. eapply send_raises_codec; eassumption.
    + discriminate.
Qed.

Lemma set_each_spec (order : list (PyObj * PyObj)) : forall s,
  _init s = true ->
  exists n, (n <= length order)%nat /\
    wire (state_of (set_each float_str dict_str order s))
    = (wire s ++ map (set_command float_str dict_str) (firstn n order))%list /\
    ended_after order n (set_each float_str dict_str order s).
Proof.
  induction order as [|kv rest IH]; intros s Hi.
  - exists 0%nat. simpl. now rewrite app_nil_r.
  - destruct (_set_spec kv s Hi) as (Hi1 & Hna & Ha & Hr).
    assert (Eo : set_each float_str dict_str (kv :: rest) s
                 = match _set float_str dict_str (fst kv) (snd kv) s with
                   | Return _ s1 => set_each float_str dict_str rest s1
                   | Raise e s1 => Raise e s1
                   | Blocks s1 => Blocks s1
                   end) by reflexivity.
    rewrite Eo. clear Eo.
    destruct (_set float_str dict_str (fst kv) (snd kv) s) as [[] s1|e s1|s1] eqn:E; simpl in Hi1.
    + destruct (is_ascii (set_text float_str dict_str kv)) eqn:Easc; [|now specialize (Hna eq_refl)].
      specialize (Ha eq_refl). simpl in Ha.
      destruct (IH s1 Hi1) as (n & Hn & Hw & He).
      exists (S n). split; [simpl; lia|]. split.
      * rewrite Hw, Ha. simpl. now rewrite <- app_assoc.
      * revert He. unfold ended_after.
        destruct (set_each float_str dict_str rest s1) as [a s2|e s2|s2]; simpl.
        -- now intros ->.
        -- intros [Hc|(out & kv' & Hnth & Hpos & He & Hacc)]; [now left|].
           right. exists out, kv'.
           split; [destruct n; [lia | exact Hnth] | repeat split; auto; lia].
        -- auto.
    + destruct (is_ascii (set_text float_str dict_str kv)) eqn:Easc.
      * specialize (Ha eq_refl). simpl in Ha.
        exists 1%nat. split; [simpl; lia|]. split; [exact Ha|].
        simpl. destruct (Hr e s1 eq_refl) as [Hc|(out & -> & Hacc)]; [now left|].
        right. exists out, kv. repeat split; auto.
      * specialize (Hna eq_refl). injection Hna as -> ->.
        exists 0%nat. split; [simpl; lia|]. split; [simpl; now rewrite app_nil_r|].
        simpl. left. now left.
    + destruct (is_ascii (set_text float_str dict_str kv)) eqn:Easc; [|now specialize (Hna eq_refl)].
      specialize (Ha eq_refl). simpl in Ha.
      exists 1%nat. split; [simpl; lia|]. split; [exact Ha | exact I].
Qed.




(** C9.  More than two positional arguments: [set] raises its
    [TypeError] at once, and the link, its wire included, is what it
    was. *)
Theorem set_rejects_third_positional
    (args : list PyObj) (kwargs : dict) (self : LVP) :
  (2 < length args)%nat ->
  set float_str dict_str args kwargs self
  = Raise (TypeError "function accepts at most 2 positional arguments") self
  /\ wire (state_of (set float_str dict_str args kwargs self)) = wire self.
Proof.
  intros H. destruct args as [|a [|b [|c rest]]]; simpl in H; try lia.
  unfold set. now split.
Qed.

End Exchanges.

End SetFacts.

(** ** [get]: protocol errors and the coerced value *)

Module GetFacts.
Import Text TextFacts Re ReFacts Lvp Observe LvpFacts Spec.

Lemma search_some (r : regex) (s : string) (g : groupdict) :
  search r s = Some g -> occurs r s.
Proof.
  induction s as [|c t IH]; simpl.
  - destruct (run r "" [] _) as [g'|] eqn:E; [|discriminate]. intros _.
    apply run_some in E as (s1 & s2 & g1 & E & Hm & _).
    now exists "", s1, s2, g1.
  - destruct (run r (String c t) [] _) as [g'|] eqn:E.
    + intros _. apply run_some in E as (s1 & s2 & g1 & E & Hm & _).
      now exists "", s1, s2, g1.
    + intros H. destruct (IH H) as (b & m & a & g1 & -> & Hm).
      now exists (String c b), m, a, g1.
Qed.

Lemma search_none (r : regex) (s : string) :
  search r s = None -> ~ occurs r s.
Proof.
  induction s as [|c t IH]; simpl.
  - destruct (run r "" [] _) as [g'|] eqn:E; [discriminate|]. intros _.
    intros (b & m & a & g1 & Es & Hm).
    symmetry in Es. apply append_eq_nil in Es as [-> Es].
    rewrite run_none in E. specialize (E m a g1 (eq_sym Es) Hm). discriminate.
  - destruct (run r (String c t) [] _) as [g'|] eqn:E; [discriminate|].
    intros H (b & m & a & g1 & Es & Hm).
    destruct b as [|c' b]; simpl in Es.
    + rewrite run_none in E. specialize (E m a g1 Es Hm). discriminate.
    + injection Es as <- ->. apply (IH H). now exists b, m, a, g1.
Qed.

(** A response is turned down exactly when the pattern occurs nowhere in
    it, or the name of its leftmost match is not the name asked for. *)
Lemma get_accepts_none (name out : string) :
  get_accepts (Str name) out = None <->
  ~ occurs GET_RESP_RE out \/
  exists data, search GET_RESP_RE out = Some data /\ group "name" data <> name.
Proof.
  unfold get_accepts. destruct (search GET_RESP_RE out) as [data|] eqn:E; simpl.
  - destruct (String.eqb_spec (group "name" data) name) as [En|En]; split.
    + discriminate.
    + intros [H|(d & [= <-] & H)]; [|contradiction].
      exfalso. apply H. eapply search_some. exact E.
    + intros _. right. now exists data.
    + reflexivity.
  - split; [|reflexivity]. intros _. left. now apply search_none.
Qed.

Section Get.
Variable float_str : Builtins.PyFloat -> string.
Variable dict_str : dict -> string.

(** C6.  [get(name)] sends [get(NAME)]; with [out] the response, the
    call raises the protocol error whose message carries [out] when the
    response does not match [Parameter 'NAME': VALUE] or matches it
    with another name, and otherwise raises nothing and returns the
    coerced value. *)
Theorem get_raises_on_mismatch (name : string) (self s' : LVP) (out : string) :
  send ("get(" ++ name ++ ")") None self = Return out s' ->
  match get_accepts (Str name) out with
  | Some value =>
      get float_str dict_str [Str name] self = Return (One (normalize_response value)) s'
  | None =>
      get float_str dict_str [Str name] self
      = Raise (RuntimeError ("bad response: " ++ repr out)) s'
  end
  /\ (get_accepts (Str name) out = None <->
      ~ occurs GET_RESP_RE out \/
      exists data, search GET_RESP_RE out = Some data /\ group "name" data <> name).
Proof.
  intros Hsend. split; [|apply get_accepts_none].
  unfold get, _get, get_accepts. simpl format.
  cbv [bind]. rewrite Hsend.
  destruct (search GET_RESP_RE out) as [data|]; [|reflexivity].
  now destruct (same_name (group "name" data) (Str name)).
Qed.

End Get.

End GetFacts.

(** ** [normalize_response] *)

Module NormalizeFacts.
Import Text TextFacts Re Lvp Spec.

Section Strip.
Variable p : ascii -> bool.

Lemma lstrip_head (s : string) :
  match lstrip p s with
  | EmptyString => True
  | String c _ => p c = false
  end.
Proof.
  induction s as [|c t IH]; simpl; [exact I|].
  destruct (p c) eqn:E; [exact IH | exact E].
Qed.

Lemma rstrip_head (c : ascii) (t : string) :
  p c = false -> exists t', rstrip p (String c t) = String c t'.
Proof.
  intros H. simpl. destruct (rstrip p t); rewrite ?H; eauto.
Qed.

Lemma rstrip_idem (s : string) : rstrip p (rstrip p s) = rstrip p s.
Proof.
  induction s as [|c t IH]; simpl; [reflexivity|].
  destruct (rstrip p t) as [|d t'] eqn:E.
  - destruct (p c) eqn:Ec; simpl; [reflexivity | now rewrite Ec].
  - change (rstrip p (String c (String d t')) = String c (String d t')).
    simpl. simpl in IH. rewrite IH. reflexivity.
Qed.

Lemma lstrip_fixed (s : string) :
  match s with EmptyString => True | String c _ => p c = false end ->
  lstrip p s = s.
Proof. destruct s as [|c t]; simpl; [reflexivity | now intros ->]. Qed.

Lemma strip_class_idem (s : string) :
  strip_class p (strip_class p s) = strip_class p s.
Proof.
  unfold strip_class.
  assert (H : lstrip p (rstrip p (lstrip p s)) = rstrip p (lstrip p s)).
  { apply lstrip_fixed. generalize (lstrip_head s).
    destruct (lstrip p s) as [|c t]; [now simpl|].
    intros Hc. destruct (@rstrip_head c t Hc) as [t' ->]. exact Hc. }
  rewrite H. apply rstrip_idem.
Qed.

End Strip.

Lemma strip_idem (s : string) : strip (strip s) = strip s.
Proof. apply strip_class_idem. Qed.

(** C1, as the code has it.  The coercion trims the text; it returns the
    integer the trimmed text reads as, if it reads as one; otherwise the
    float it reads as, if it reads as one; otherwise the trimmed text,
    not the text it was given.  Blanks around the text never change the
    result. *)
Theorem normalize_response_trims_then_reads (value : string) :
  (forall z, Builtins.int (strip value) = Some z ->
             normalize_response value = Int z) /\
  (forall f, Builtins.int (strip value) = None ->
             Builtins.float (strip value) = Some f ->
             normalize_response value = Float f) /\
  (Builtins.int (strip value) = None ->
   Builtins.float (strip value) = None ->
   normalize_response value = Str (strip value)) /\
  normalize_response (strip value) = normalize_response value.
Proof.
  unfold normalize_response. rewrite strip_idem. repeat split.
  - now intros z ->.
  - now intros f -> ->.
  - now intros -> ->.
Qed.

(** The response [Parameter 'x': abc ] with a blank before the line end:
    the captured text ends with the blank, and the value returned is
    [abc] without it. *)
Lemma normalize_response_drops_blanks :
  ~ (forall (out : string) (data : groupdict),
       search GET_RESP_RE out = Some data ->
       Builtins.int (strip (group "value" data)) = None ->
       Builtins.float (strip (group "value" data)) = None ->
       normalize_response (group "value" data) = Str (group "value" data)).
Proof.
  intros H.
  specialize (H ("Parameter 'x': abc " ++ LF) [("value", "abc "); ("name", "x")]).
  assert (E : normalize_response "abc " = Str "abc") by reflexivity.
  simpl group in H. rewrite E in H.
  assert (F : Str "abc" = Str "abc "); [|discriminate F].
  apply H; vm_compute; reflexivity.
Qed.

End NormalizeFacts.

(** ** The pool: query resolution *)

Module QueryFacts.
Import Text Lvp Pool Observe DictFacts.

Lemma same_refl x : same x x = true.
Proof. apply String.eqb_refl. Qed.

Lemma same_sym x y : same x y = same y x.
Proof. apply String.eqb_sym. Qed.

Lemma filter_filter {A} (f g : A -> bool) (l : list A) :
  filter f (filter g l) = filter (fun x => g x && f x) l.
Proof.
  induction l as [|x l IH]; simpl; [reflexivity|].
  destruct (g x); simpl; [destruct (f x); now rewrite IH | exact IH].
Qed.

Lemma distinct_subset (l : list LVP) x : In x (distinct l) -> In x l.
Proof.
  revert x. induction l as [|y l IH]; simpl; [tauto|].
  intros x [->|H]; [now left|]. apply filter_In in H as [H _]. right. now apply IH.
Qed.

Lemma distinct_app (l1 l2 : list LVP) :
  distinct (l1 ++ l2)
  = (distinct l1 ++ filter (fun y => negb (mem y l1)) (distinct l2))%list.
Proof.
  induction l1 as [|x l1 IH]; simpl.
  - symmetry. induction (distinct l2) as [|y l IH]; simpl; [reflexivity|].
    now rewrite IH.
  - f_equal. rewrite IH, filter_app, filter_filter. f_equal.
    apply filter_ext. intros y. unfold mem. simpl.
    rewrite (same_sym y x). now rewrite negb_orb, andb_comm.
Qed.

Lemma filter_mem_distinct (l : list LVP) :
  filter (fun y => negb (mem y l)) (distinct l) = [].
Proof.
  assert (H : forall l', (forall y, In y l' -> In y l) ->
                         filter (fun y => negb (mem y l)) l' = []).
  { induction l' as [|y l' IH]; intros Hsub; simpl; [reflexivity|].
    assert (Hy : mem y l = true).
    { apply existsb_exists. exists y. split; [apply Hsub; now left | apply same_refl]. }
    rewrite Hy. simpl. apply IH. intros z Hz. apply Hsub. now right. }
  apply H. intros y. apply distinct_subset.
Qed.

(** Adding the same elements a second time leaves the set as it was. *)
Lemma distinct_twice (la lb : list LVP) :
  distinct ((la ++ la) ++ lb) = distinct (la ++ lb).
Proof.
  rewrite <- app_assoc, (distinct_app la (la ++ lb)), (distinct_app la lb).
  rewrite filter_app, filter_mem_distinct, filter_filter. simpl. f_equal.
  apply filter_ext. intros y. now destruct (negb (mem y la)).
Qed.

Lemma distinct_nodup (l : list LVP) : NoDup (map id (distinct l)).
Proof.
  induction l as [|x l IH]; simpl; [constructor|].
  constructor.
  - rewrite in_map_iff. intros (y & E & Hy). apply filter_In in Hy as [_ Hy].
    unfold same in Hy. rewrite E, String.eqb_refl in Hy. discriminate.
  - clear -IH. induction (distinct l) as [|y l' IHl]; simpl; [constructor|].
    inversion IH as [|? ? Hy Hl']; subst.
    destruct (negb (same x y)); simpl; [|now apply IHl].
    constructor; [|now apply IHl].
    rewrite in_map_iff. intros (z & E & Hz). apply filter_In in Hz as [Hz _].
    apply Hy. rewrite in_map_iff. now exists z.
Qed.

Section Query.
Variable listing : list LVP -> list LVP.

Lemma query_Seq (self : LVPPool) (qs : list Query) :
  query listing self (Seq qs)
  = match gather (map (query listing self) qs) [] with
    | Ok added => Ok (listing added)
    | Err e => Err e
    end.
Proof.
  simpl. generalize (@nil LVP) as added.
  induction qs as [|q t IH]; intros added; simpl; [reflexivity|].
  destruct (query listing self q) as [l|e]; [apply IH | reflexivity].
Qed.

(** The order in which a set is iterated is not known; what is known is
    that the elements come once each. *)
Hypothesis listing_set : forall l, Permutation (listing l) (distinct l).

(** C10.  An empty sequence of selectors resolves to the empty list of
    links; no query error is raised. *)
Theorem query_empty_sequence (self : LVPPool) :
  query listing self (Seq []) = Ok [].
Proof.
  rewrite query_Seq. simpl. f_equal.
  apply Permutation_nil. symmetry. exact (listing_set []).
Qed.

Lemma registered_under_id (devs : list LVP) :
  Forall (fun kv => fst kv = id (snd kv)) (devices (__init__ devs)).
Proof.
  unfold __init__. simpl.
  assert (H : forall entries d,
             Forall (fun kv : string * LVP => fst kv = id (snd kv)) d ->
             Forall (fun kv : string * LVP => fst kv = id (snd kv)) entries ->
             Forall (fun kv : string * LVP => fst kv = id (snd kv)) (update d entries)).
  { induction entries as [|[k v] t IH]; intros d Hd Hi; simpl; [exact Hd|].
    inversion Hi as [|? ? Hkv Ht]; subst. apply IH; [|exact Ht].
    clear -Hd Hkv. induction Hd as [|[k' v'] d' Hk' Hd' IHd]; simpl.
    - now repeat constructor.
    - destruct (String.eqb_spec k' k) as [->|_]; constructor; auto. }
  apply H; [constructor|].
  apply Forall_forall. intros kv Hin. apply in_map_iff in Hin as (dev & <- & _).
  reflexivity.
Qed.

Lemma ids_of_values (devs : list LVP) :
  map id (values (__init__ devs)) = map fst (devices (__init__ devs)).
Proof.
  unfold values. rewrite map_map. apply map_ext_in. intros kv Hin.
  symmetry. exact (proj1 (Forall_forall _ _) (registered_under_id devs) kv Hin).
Qed.

(** C3.  A selector repeated in a sequence changes nothing: the two
    queries fail alike or return the same links, each once.  The [...]
    sentinel returns the links of the pool in the order in which the
    pool iterates, one link for each id that was registered. *)
Theorem query_deduplicates (devs : list LVP) (a b : Query) :
  match query listing (__init__ devs) (Seq [a; a; b]),
        query listing (__init__ devs) (Seq [a; b]) with
  | Ok l1, Ok l2 => Permutation l1 l2 /\ NoDup (map id l1)
  | Err e1, Err e2 => e1 = e2
  | _, _ => False
  end
  /\ query listing (__init__ devs) Ellipsis = Ok (values (__init__ devs))
  /\ NoDup (map id (values (__init__ devs)))
  /\ (forall k, In k (map id (values (__init__ devs))) <-> In k (map id devs)).
Proof.
  split; [|split; [reflexivity | split]].
  - rewrite !query_Seq. simpl.
    destruct (query listing (__init__ devs) a) as [la|ea]; [|reflexivity].
    destruct (query listing (__init__ devs) b) as [lb|eb]; [|reflexivity].
    simpl. split.
    + rewrite (listing_set ((la ++ la) ++ lb)), (listing_set (la ++ lb)).
      now rewrite distinct_twice.
    + apply (Permutation_NoDup (l := map id (distinct ((la ++ la) ++ lb)))).
      * apply Permutation_map. symmetry. apply listing_set.
      * apply distinct_nodup.
  - rewrite ids_of_values. unfold __init__. simpl. apply nodup_update. constructor.
  - intros k. rewrite ids_of_values. unfold __init__. simpl.
    rewrite keys_update, map_map. simpl. tauto.
Qed.

(** The links a query returns have distinct ids: the targets the pool
    hands to [_parallel_map] are of this kind. *)
Lemma query_distinct_ids (devs : list LVP) (q : Query) (l : list LVP) :
  query listing (__init__ devs) q = Ok l -> NoDup (map id l).
Proof.
  assert (Hone : forall k, lookup (__init__ devs) k = Ok l -> NoDup (map id l)).
  { intros k. unfold lookup. destruct (getitem _ k); [|discriminate].
    intros [= <-]. repeat constructor. now intros []. }
  destruct q as [|dev|qs|k].
  - intros [= <-]. rewrite ids_of_values. unfold __init__. simpl.
    apply nodup_update. constructor.
  - apply Hone.
  - rewrite query_Seq. destruct (gather _ _) as [added|]; [|discriminate].
    intros [= <-].
    apply (Permutation_NoDup (l := map id (distinct added))).
    + apply Permutation_map. symmetry. apply listing_set.
    + apply distinct_nodup.
  - apply Hone.
Qed.

End Query.

End QueryFacts.

(** ** The pool: fan-out *)

Module FanOutFacts.
Import Text Lvp Pool Spec Observe DictFacts.

Lemma assign_map_seq {A} (g : nat -> A) (x : A) (n : nat) : forall s i,
  assign (map g (seq s n)) i x
  = map (fun j => if Nat.eqb j (s + i) then x else g j) (seq s n).
Proof.
  induction n as [|n IH]; intros s i; simpl; [reflexivity|].
  destruct i as [|i].
  - rewrite Nat.add_0_r, Nat.eqb_refl. f_equal.
    apply map_ext_in. intros j Hj. apply in_seq in Hj.
    destruct (Nat.eqb_spec j s); [lia | reflexivity].
  - destruct (Nat.eqb_spec s (s + S i)); [lia|]. f_equal.
    rewrite IH. apply map_ext. intros j.
    now replace (S s + i)%nat with (s + S i)%nat by lia.
Qed.

Section FanOut.
Variable R : Type.
Variable func : LVP -> Fate R.

Lemma slots_assign (targets : list LVP) : forall over i dev,
  nth_error targets i = Some dev ->
  nth_error over i = Some false ->
  slots func targets (assign over i true)
  = assign (slots func targets over) i (value_of (func dev))
  /\ assign (slots func targets over) i None = slots func targets over.
Proof.
  unfold slots.
  induction targets as [|t ts IH]; intros over i dev Ht Ho.
  - now destruct i.
  - destruct over as [|b bs]; [now destruct i|].
    destruct i as [|i]; simpl in *.
    + injection Ht as ->. injection Ho as ->. now split.
    + destruct (IH bs i dev Ht Ho) as [H1 H2]. now rewrite H1, H2.
Qed.

Variable targets : list LVP.
Variable timeout : option Q.

Lemma start_inv : inv func targets (start R targets) (fun _ => false).
Proof.
  unfold inv, start. simpl. split.
  - generalize 0%nat. induction (length targets) as [|n IH]; intros s; simpl;
      [reflexivity | now rewrite (IH (S s))].
  - unfold slots. induction targets as [|t ts IH]; simpl; [reflexivity | now rewrite IH].
Qed.

Lemma step_inv (st st' : Threads R) (g : nat -> bool) (ev : Event) :
  inv func targets st g ->
  step func targets timeout st ev = Some st' ->
  inv func targets st' (fun i => g i || finishes i ev)
  /\ joined st' = if is_join ev then S (joined st) else joined st.
Proof.
  intros [He Hr] Hstep. destruct ev as [i| |]; simpl in Hstep.
  - destruct (nth_error targets i) as [dev|] eqn:Ht; [|discriminate].
    destruct (nth_error (ended st) i) as [[|]|] eqn:Ho; try discriminate.
    injection Hstep as <-. simpl. split; [|reflexivity].
    destruct (@slots_assign targets (ended st) i dev Ht Ho) as [H1 H2].
    unfold inv. simpl. split.
    + rewrite He, assign_map_seq. apply map_ext. intros j. simpl.
      destruct (Nat.eqb j i); [now rewrite orb_true_r | now rewrite orb_false_r].
    + rewrite H1, <- Hr.
      destruct (func dev) as [v|]; simpl; [reflexivity|].
      now rewrite Hr, H2.
  - destruct (nth_error (ended st) (joined st)) as [[|]|]; try discriminate.
    injection Hstep as <-. simpl. split; [|reflexivity].
    unfold inv. simpl. split; [|exact Hr].
    rewrite He. apply map_ext. intros j. now rewrite orb_false_r.
  - destruct timeout; [|discriminate].
    destruct (nth_error (ended st) (joined st)) as [[|]|]; try discriminate.
    injection Hstep as <-. simpl. split; [|reflexivity].
    unfold inv. simpl. split; [|exact Hr].
    rewrite He. apply map_ext. intros j. now rewrite orb_false_r.
Qed.

Lemma run_spec (sched : list Event) : forall st g d,
  inv func targets st g ->
  run func targets timeout sched st = Some d ->
  d = update []
        (combine (map id targets)
           (slots func targets
              (map (fun i => g i || existsb (finishes i)
                                       (executed (length targets) (joined st) sched))
                   (seq 0 (length targets))))).
Proof.
  induction sched as [|ev rest IH]; intros st g d Hinv; simpl;
    destruct (length targets <=? joined st)%nat eqn:Ej.
  - intros [= <-]. unfold collect. destruct Hinv as [He Hr]. rewrite Hr, He.
    do 3 f_equal. apply map_ext. intros i. simpl. now rewrite orb_false_r.
  - discriminate.
  - intros [= <-]. unfold collect. destruct Hinv as [He Hr]. rewrite Hr, He.
    do 3 f_equal. apply map_ext. intros i. simpl. now rewrite orb_false_r.
  - destruct (step func targets timeout st ev) as [st'|] eqn:Es; [|discriminate].
    intros Hrun. destruct (@step_inv st st' g ev Hinv Es) as [Hinv' Hj].
    rewrite (IH st' _ d Hinv' Hrun), Hj. do 3 f_equal.
    apply map_ext. intros i. simpl. now rewrite orb_assoc.
Qed.

Lemma fst_combine {A B} (l : list A) (l' : list B) :
  length l = length l' -> map fst (combine l l') = l.
Proof.
  revert l'. induction l as [|x l IH]; intros [|y l'] H; simpl in *;
    try discriminate; [reflexivity|]. f_equal. apply IH. lia.
Qed.

Lemma length_slots (over : list bool) :
  length over = length targets -> length (slots func targets over) = length targets.
Proof.
  intros H. unfold slots. rewrite length_map, length_combine. lia.
Qed.

(** Whatever the ids of the targets, the keys of the mapping are these
    ids. *)
Lemma parallel_map_keys
    (self : LVPPool) (sched : list Event) (d : list (string * option R)) (k : string) :
  _parallel_map self func (Some targets) timeout sched = Some d ->
  In k (map fst d) <-> In k (map id targets).
Proof.
  intros Hrun. unfold _parallel_map in Hrun.
  rewrite (@run_spec sched _ _ d start_inv Hrun), keys_update, fst_combine.
  - simpl. tauto.
  - rewrite length_slots; rewrite !length_map; [reflexivity | apply length_seq].
Qed.

(** C2, as the code has it.  When the call returns along an execution,
    the mapping has the ids of the targets as its keys, in the order of
    the targets; the entry of a target is the value of its task when the
    task ran to its end and returned before the mapping was built, and
    [None] when the task raised or was still running then.  So the
    mapping does not depend on the order in which the tasks finish, a
    task that fails aborts nothing, and a task that outlives the timeout
    of its own [join] still leaves its value if it ends while the later
    threads are joined. *)
Theorem parallel_map_collects
    (self : LVPPool) (sched : list Event) (d : list (string * option R)) :
  _parallel_map self func (Some targets) timeout sched = Some d ->
  NoDup (map id targets) ->
  d = expected func targets sched /\
  map fst d = map id targets /\
  (forall sched' d',
     _parallel_map self func (Some targets) timeout sched' = Some d' ->
     (forall i, completed (length targets) sched' i = completed (length targets) sched i) ->
     d' = d).
Proof.
  intros Hrun Hnd. unfold _parallel_map in *.
  assert (Hlen : length (map id targets)
                 = length (slots func targets
                             (map (completed (length targets) sched)
                                  (seq 0 (length targets))))).
  { rewrite length_slots; rewrite !length_map; [reflexivity | apply length_seq]. }
  assert (Hd : d = expected func targets sched).
  { rewrite (@run_spec sched _ _ d start_inv Hrun). simpl.
    unfold expected, completed. apply update_nil.
    now rewrite fst_combine. }
  split; [exact Hd|]. split.
  - rewrite Hd. unfold expected. now apply fst_combine.
  - intros sched' d' Hrun' Hsame.
    rewrite Hd, (@run_spec sched' _ _ d' start_inv Hrun'). simpl.
    unfold expected.
    assert (E : map (fun i => existsb (finishes i) (executed (length targets) 0 sched'))
                    (seq 0 (length targets))
                = map (completed (length targets) sched) (seq 0 (length targets))).
    { apply map_ext. intros i. apply Hsame. }
    rewrite E. apply update_nil. now rewrite fst_combine.
Qed.

End FanOut.

End FanOutFacts.

(** ** The claims at concrete inputs *)

Module Runs.
Import Text TextFacts Lvp Pool Spec Observe Examples.
Import LvpFacts QuietFacts SetFacts GetFacts QueryFacts FanOutFacts.

(** *** On a link *)



Lemma set_rejects_third_positional_witness :
  set no_float no_dict [Str "a"; Int 1; Int 2] [] (ready_link two_answers)
  = Raise (TypeError "function accepts at most 2 positional arguments")
          (ready_link two_answers)
  /\ wire (state_of (set no_float no_dict [Str "a"; Int 1; Int 2] []
                         (ready_link two_answers)))
     = wire (ready_link two_answers).
Proof.
  apply (@set_rejects_third_positional no_float no_dict
           [Str "a"; Int 1; Int 2] [] (ready_link two_answers)).
  simpl. lia.
Defined.

Lemma quiet_scope_restores_mode_witness :
  _quiet (state_of (quiet (exec "blink") (ready_link blink_answers)))
  = _quiet (ready_link blink_answers) /\
  (_quiet (ready_link blink_answers) = true ->
   quiet (exec "blink") (ready_link blink_answers)
   = Return ("ok" ++ LF)
       (with_quiet true
          (state_of (exec "blink" (state_of (quiet_enter (ready_link blink_answers))))))) /\
  (_quiet (ready_link blink_answers) = false ->
   exists more,
     wire (state_of (quiet (exec "blink") (ready_link blink_answers)))
     = (wire (state_of (exec "blink" (state_of (quiet_enter (ready_link blink_answers)))))
        ++ manual_connect :: more)%list).
Proof.
  apply (@quiet_scope_restores_mode string (exec "blink") (ready_link blink_answers)).
  vm_compute. reflexivity.
Defined.

(** [with lvp.quiet(): lvp.get("x")] on a link that is not quiet, the
    device answering with a line of another form: the block raises the
    protocol error and the scope is left at once, with [quiet_connect]
    and the command of the block as all that was written; no
    [manual_connect] follows. *)
Lemma quiet_scope_left_by_exception :
  ~ (forall (A : Type) (body : M A) (self : LVP),
       _quiet (state_of (quiet body self)) = _quiet self /\
       (_quiet self = false ->
        exists more,
          wire (state_of (quiet body self))
          = (wire (state_of (body (state_of (quiet_enter self))))
             ++ manual_connect :: more)%list)).
Proof.
  intros H.
  destruct (H GetResult (get no_float no_dict [Str "x"]) (ready_link other_answer))
    as (_ & Hw).
  destruct (Hw eq_refl) as [more E].
  assert (Eq : quiet (get no_float no_dict [Str "x"]) (ready_link other_answer)
               = Raise (RuntimeError ("bad response: " ++ repr ("ok" ++ LF)))
                       (state_of (get no_float no_dict [Str "x"]
                                      (state_of (quiet_enter (ready_link other_answer))))))
    by (apply quiet_scope_block_raises; vm_compute; reflexivity).
  rewrite Eq in E. cbn [state_of] in E.
  assert (Ew : wire (state_of (get no_float no_dict [Str "x"]
                                   (state_of (quiet_enter (ready_link other_answer)))))
               = [quiet_connect; "get(x)" ++ LF]) by (vm_compute; reflexivity).
  rewrite Ew in E. simpl in E. discriminate E.
Qed.

(** *** On a pool *)

Lemma query_empty_sequence_witness :
  query distinct (__init__ abc) (Seq []) = Ok [].
Proof.
  apply (@query_empty_sequence distinct (fun l => Permutation_refl (distinct l))).
Defined.

Lemma query_deduplicates_witness :
  match query distinct (__init__ abc) (Seq [Key "A"; Key "A"; Key "B"]),
        query distinct (__init__ abc) (Seq [Key "A"; Key "B"]) with
  | Ok l1, Ok l2 => Permutation l1 l2 /\ NoDup (map id l1)
  | Err e1, Err e2 => e1 = e2
  | _, _ => False
  end
  /\ query distinct (__init__ abc) Ellipsis = Ok (values (__init__ abc))
  /\ NoDup (map id (values (__init__ abc)))
  /\ (forall k, In k (map id (values (__init__ abc))) <-> In k (map id abc)).
Proof.
  apply (@query_deduplicates distinct (fun l => Permutation_refl (distinct l))
           abc (Key "A") (Key "B")).
Defined.

Lemma parallel_map_collects_witness :
  [("A", Some 1%nat); ("B", None); ("C", Some 1%nat)] = expected task abc any_order /\
  map fst [("A", Some 1%nat); ("B", None); ("C", Some 1%nat)] = map id abc /\
  (forall sched' d',
     _parallel_map (__init__ abc) task (Some abc) None sched' = Some d' ->
     (forall i, completed (length abc) sched' i = completed (length abc) any_order i) ->
     d' = [("A", Some 1%nat); ("B", None); ("C", Some 1%nat)]).
Proof.
  apply (@parallel_map_collects nat task abc None (__init__ abc) any_order).
  - reflexivity.
  - repeat constructor; simpl; intuition discriminate.
Defined.

(** A timeout, and two targets whose tasks both return [1]: the join of
    [A] gives up, [A] ends while the caller waits for [B], and the join of
    [B] gives up.  The task of [A] exceeded the timeout and its value is
    in the mapping all the same. *)
Lemma late_value_is_collected :
  ~ (forall (self : LVPPool) (func : LVP -> Fate nat) (targets : list LVP)
            (timeout : option Q) (sched : list Event) (d : list (string * option nat))
            (i : nat) (dev : LVP),
       _parallel_map self func (Some targets) timeout sched = Some d ->
       nth_error targets i = Some dev ->
       timed_out sched i = true ->
       getitem d (id dev) = Some None).
Proof.
  intros H.
  specialize (H (__init__ abc) (fun _ => Returns (Some 1%nat))
                [member "A"; member "B"] (Some (1 # 1)%Q)
                [JoinExpires; Finish 0; JoinExpires]
                [("A", Some 1%nat); ("B", None)] 0%nat (member "A")
                eq_refl eq_refl eq_refl).
  discriminate H.
Qed.

Lemma get_raises_on_mismatch_witness :
  match get_accepts (Str "speed") ("Parameter 'speed': 10" ++ LF) with
  | Some value =>
      get no_float no_dict [Str "speed"] (ready_link speed_answer)
      = Return (One (normalize_response value))
               (state_of (send "get(speed)" None (ready_link speed_answer)))
  | None =>
      get no_float no_dict [Str "speed"] (ready_link speed_answer)
      = Raise (RuntimeError ("bad response: " ++ repr ("Parameter 'speed': 10" ++ LF)))
              (state_of (send "get(speed)" None (ready_link speed_answer)))
  end
  /\ (get_accepts (Str "speed") ("Parameter 'speed': 10" ++ LF) = None <->
      ~ Re.occurs Re.GET_RESP_RE ("Parameter 'speed': 10" ++ LF) \/
      exists data, Re.search Re.GET_RESP_RE ("Parameter 'speed': 10" ++ LF) = Some data
                   /\ Re.group "name" data <> "speed").
Proof.
  apply (@get_raises_on_mismatch no_float no_dict "speed" (ready_link speed_answer)).
  vm_compute. reflexivity.
Defined.

End Runs.

(** ** The id of a link *)

Module LinkFacts.
Import Text TextFacts Lvp Observe LvpFacts DeclareFacts Behaviour Examples.

(** *** The id *)

Lemma join_last (sep : string) (l : list string) :
  l <> [] ->
  exists dir, join sep l = dir ++ last l "" /\ (dir = "" \/ exists d, dir = d ++ sep).
Proof.
  induction l as [|w [|w' l'] IH]; intros Hne; [congruence | |].
  - exists "". simpl. auto.
  - destruct IH as (dir & E & Hdir); [discriminate|].
    exists (w ++ sep ++ dir). split.
    + change (join sep (w :: w' :: l')) with (w ++ sep ++ join sep (w' :: l')).
      rewrite E. change (last (w :: w' :: l') "") with (last (w' :: l') "").
      now rewrite !append_assoc.
    + right. destruct Hdir as [->|(d & ->)].
      * exists w. now rewrite append_nil_r.
      * exists (w ++ sep ++ d). now rewrite !append_assoc.
Qed.

Lemma has_char_all_str (c : ascii) (s : string) :
  all_str (fun x => negb (Ascii.eqb x c)) s = true -> has_char c s = false.
Proof.
  induction s as [|x s IH]; simpl; [reflexivity|].
  intros H. apply andb_true_iff in H as [Hx Hs].
  rewrite (IH Hs), Ascii.eqb_sym. now destruct (Ascii.eqb x c).
Qed.

Lemma last_In {A} (l : list A) (d : A) : l <> [] -> In (last l d) l.
Proof.
  induction l as [|x [|y t] IH]; intros H; [congruence | now left |].
  right. apply IH. discriminate.
Qed.

(** X1.  The id of a link that was given none is the part of its device
    path after the last slash; an id that was given is the id. *)
Theorem id_is_last_path_component (self : LVP) :
  match _id self with
  | Some i => id self = i
  | None =>
      has_char "/" (id self) = false /\
      exists dir, device self = dir ++ id self /\ (dir = "" \/ exists d, dir = d ++ "/")
  end.
Proof.
  unfold id. destruct (_id self) as [i|]; [reflexivity|].
  destruct (split_cons "/" (device self)) as (w & ws & E).
  split.
  - apply has_char_all_str.
    assert (H := split_pieces (fun _ => true) "/" (device self)).
    rewrite Forall_forall in H.
    apply H.
    + clear. induction (device self) as [|c s IH]; simpl; auto.
    + rewrite E. apply last_In. discriminate.
  - destruct (@join_last "/" (split "/" (device self))) as (dir & Ej & Hdir);
      [rewrite E; discriminate|].
    exists dir. split; [|exact Hdir].
    rewrite <- Ej. symmetry. apply join_split.
Qed.

End LinkFacts.

(** ** The history of messages *)

Module HistoryFacts.
Import Text TextFacts Lvp Observe LvpFacts Behaviour.



Lemma deque_append_latest (d : list bytes) (x : bytes) :
  deque_append d x = latest 64 (d ++ [x]).
Proof. reflexivity. Qed.



End HistoryFacts.

(** ** The handshake *)

Module HandshakeFacts.
Import Text TextFacts Lvp Observe LvpFacts Behaviour HistoryFacts.



Lemma last_latest {A} (n : nat) (l : list A) (x d : A) :
  (0 < n)%nat -> last (latest n (l ++ [x])) d = x.
Proof.
  intros Hn. unfold latest. rewrite length_app. simpl.
  rewrite skipn_app.
  replace (length l + 1 - n - length l)%nat with 0%nat by lia. simpl.
  apply last_last.
Qed.


End HandshakeFacts.

(** ** An exchange that is answered *)

Module ExchangeFacts.
Import Text TextFacts Lvp Observe LvpFacts SetFacts Behaviour Examples HistoryFacts HandshakeFacts.

Lemma substring_suffix (a b : string) :
  substring (String.length a) (String.length b) (a ++ b) = b.
Proof.
  induction a as [|x a IH]; simpl; [|exact IH].
  induction b as [|y b IHb]; simpl; [reflexivity | now rewrite IHb].
Qed.

Lemma endswith_app (a b : string) : endswith (a ++ b) b = true.
Proof.
  unfold endswith. rewrite length_append.
  replace (String.length a + String.length b - String.length b)%nat
    with (String.length a) by lia.
  rewrite substring_suffix, String.eqb_refl, andb_true_r.
  apply Nat.leb_le. lia.
Qed.

Lemma length_feed (s : string) : length (feed s) = String.length s.
Proof. unfold feed. rewrite length_map. induction s; simpl; auto. Qed.

(** A read that finds its terminator within the text the device sends
    takes the text up to there and leaves the rest. *)
Lemma read_until_feed e t : forall text acc tail,
  text <> "" -> endswith (acc ++ text) e = true ->
  exists p r, text = p ++ r /\ p <> "" /\
    read_until_from e t acc (feed text ++ tail)
    = Some (acc ++ p, (feed r ++ tail)%list).
Proof.
  induction text as [|c t' IH]; intros acc tail Hne He; [congruence|].
  change (feed (String c t') ++ tail)%list with (Some c :: (feed t' ++ tail))%list.
  simpl. destruct (endswith (acc ++ String c "") e) eqn:E.
  - now exists (String c ""), t'.
  - assert (Ht' : t' <> "") by (intros ->; congruence).
    destruct (IH (acc ++ String c "") tail Ht') as (p & r & -> & _ & Hr).
    { now rewrite append_assoc. }
    exists (String c p), r. repeat split; [discriminate|].
    rewrite Hr, append_assoc. reflexivity.
Qed.

Lemma suffix_ends_lf (p r b : string) :
  p ++ r = b ++ LF -> r = "" \/ exists x, r = x ++ LF.
Proof.
  revert b. induction p as [|c p IH]; intros b; simpl.
  - intros ->. right. now exists b.
  - destruct b as [|c' b]; simpl.
    + intros [= _ E]. apply append_eq_nil in E as [_ ->]. now left.
    + intros [= _ E]. now apply (IH b).
Qed.

(** The lines the device has sent before it falls silent are all read,
    and the silence ends the loop. *)
Lemma flush_lines_feed q : forall fuel text out rest s,
  (String.length text < fuel)%nat ->
  text = "" \/ (exists x, text = x ++ LF) ->
  timeout (_serial s) = Some q ->
  incoming (_serial s) = (feed text ++ None :: rest)%list ->
  flush_lines fuel out s
  = Return (out ++ text) (with_serial (with_incoming rest (_serial s)) s).
Proof.
  induction fuel as [|k IH]; intros text out rest s Hlen Hlf Ht Hin; [lia|].
  simpl. unfold bind, readline, read_until. rewrite Ht, Hin.
  destruct text as [|c text'].
  - reflexivity.
  - destruct Hlf as [Hlf|(x & Hx)]; [discriminate|].
    destruct (@read_until_feed LF (Some q) (String c text') "" (None :: rest))
      as (p & r & Ep & Hp & Hr);
      [discriminate | cbn [append]; rewrite Hx; apply endswith_app |].
    rewrite Hr. cbn [append].
    destruct p as [|c0 p0]; [congruence|]. cbn [is_empty].
    rewrite (IH r _ rest).
    + rewrite append_assoc, <- Ep. reflexivity.
    + rewrite Ep, length_append in Hlen. simpl in Hlen. lia.
    + apply (@suffix_ends_lf (String c0 p0) r x). now rewrite <- Ep.
    + exact Ht.
    + reflexivity.
Qed.

(** What [_recv(b"\r\n", flush=True)] gives when the device sends a
    response that ends its last line and then falls silent. *)
Lemma recv_reads_response (body : string) (rest : list (option ascii)) (s : LVP) :
  _quiet s = false ->
  incoming (_serial s) = (feed (body ++ CRLF) ++ None :: rest)%list ->
  _recv (Some CRLF) true (1 # 64)%Q s
  = Return (body ++ CRLF)
      (with_serial (mkSerial (Some (1 # 64)%Q) (written (_serial s)) rest) s).
Proof.
  intros Hq Hin. unfold _recv. rewrite Hq. simpl is_empty. cbv iota.
  unfold bind at 1. unfold read_until. rewrite Hin.
  destruct (@read_until_feed CRLF (timeout (_serial s)) (body ++ CRLF) "" (None :: rest))
    as (p & r & Ep & Hp & Hr).
  { intros E. apply append_eq_nil in E as [_ E]. discriminate. }
  { cbn [append]. apply endswith_app. }
  rewrite Hr. cbn [append].
  erewrite bind_return by reflexivity.
  rewrite (@flush_lines_feed (1 # 64)%Q _ r p rest).
  - rewrite <- Ep. reflexivity.
  - unfold rounds. simpl. rewrite length_app, length_feed. lia.
  - apply (@suffix_ends_lf p r (body ++ String (ascii_of_N 13) "")).
    rewrite <- Ep, append_assoc. reflexivity.
  - reflexivity.
  - reflexivity.
Qed.

Lemma is_ascii_app (a b : string) : is_ascii (a ++ b) = is_ascii a && is_ascii b.
Proof. apply all_str_append. Qed.

(** The exchange on an initialised link that is not quiet, when the
    device answers with a text that ends with CR LF and falls silent. *)
Lemma send_exchange
    (msg body : string) (t : option Q) (rest : list (option ascii)) (s : LVP) :
  _init s = true -> _quiet s = false ->
  is_ascii msg = true -> is_ascii body = true ->
  incoming (_serial s) = (feed (body ++ CRLF) ++ None :: rest)%list ->
  send msg t s
  = Return (crlf_to_lf (body ++ CRLF))
      (with_messages
         (deque_append (deque_append (_messages s) (">>> " ++ framed msg)) (body ++ CRLF))
         (with_serial
            (mkSerial (Some (1 # 64)%Q) (written (_serial s) ++ [framed msg])%list rest) s)).
Proof.
  intros Hi Hq Ha Hb Hin. unfold send. rewrite Ha.
  erewrite bind_return by now apply init_ready.
  erewrite bind_return by reflexivity.
  erewrite bind_return by reflexivity.
  erewrite bind_return by (apply recv_reads_response; [exact Hq | exact Hin]).
  erewrite bind_return by reflexivity.
  rewrite is_ascii_app, Hb. reflexivity.
Qed.

(** X4.  An exchange.  On an initialised link that is not quiet, when the
    device answers with ASCII text that ends with CR LF and then falls
    silent, [send] writes the command once, with a newline added unless it
    has one, and returns the whole answer with every CR LF turned into
    LF; the input is read up to the silence, the answer is the last
    message of the history and the port is left with the timeout of the
    flush. *)
Theorem send_returns_the_response
    (msg body : string) (t : option Q) (rest : list (option ascii)) (s : LVP) :
  _init s = true -> _quiet s = false ->
  is_ascii msg = true -> is_ascii body = true ->
  incoming (_serial s) = (feed (body ++ CRLF) ++ None :: rest)%list ->
  exists s',
    send msg t s = Return (crlf_to_lf (body ++ CRLF)) s' /\
    wire s' = (wire s ++ [framed msg])%list /\
    incoming (_serial s') = rest /\
    timeout (_serial s') = Some (1 # 64)%Q /\
    last (_messages s') "" = body ++ CRLF /\
    _init s' = true /\ _quiet s' = false.
Proof.
  intros Hi Hq Ha Hb Hin.
  rewrite (send_exchange msg body t rest s Hi Hq Ha Hb Hin).
  eexists. split; [reflexivity|].
  cbn -[deque_append framed]. repeat split; auto.
  rewrite deque_append_latest. apply last_latest. lia.
Qed.

End ExchangeFacts.

(** ** The ways an exchange ends *)

Module OutcomeFacts.
Import Text TextFacts Lvp Observe LvpFacts SetFacts Behaviour Examples HistoryFacts
  HandshakeFacts ExchangeFacts.




(** X6.  On a link whose quiet flag is set an exchange is a write: the
    command goes on the wire, nothing is read and the empty text is
    returned. *)
Theorem send_on_a_quiet_link_reads_nothing (msg : string) (t : option Q) (s : LVP) :
  _init s = true -> _quiet s = true -> is_ascii msg = true ->
  exists s',
    send msg t s = Return "" s' /\
    wire s' = (wire s ++ [framed msg])%list /\
    incoming (_serial s') = incoming (_serial s) /\
    timeout (_serial s') = t /\ _quiet s' = true.
Proof.
  intros Hi Hq Ha. unfold send. rewrite Ha.
  erewrite bind_return by now apply init_ready.
  erewrite bind_return by reflexivity.
  erewrite bind_return by reflexivity.
  erewrite bind_return by (unfold _recv; simpl; rewrite Hq; reflexivity).
  erewrite bind_return by reflexivity.
  eexists. split; [reflexivity|]. cbn -[framed]. auto.
Qed.

End OutcomeFacts.

(** ** The patterns on the lines of the protocol *)

Module PatternFacts.
Import Text TextFacts Re ReFacts Lvp Observe Behaviour.

Section Engine.
Variable X : Type.

Lemma star_stops (p : ascii -> bool) (s : string) (k : string -> option X) :
  stops p s -> star p s k = k s.
Proof. destruct s as [|c t]; simpl; [reflexivity | now intros ->]. Qed.

(** The greedy repetition takes the whole run when what follows then
    matches. *)
Lemma star_longest (p : ascii -> bool) (a s : string) (k : string -> option X) (x : X) :
  all_str p a = true -> stops p s -> k s = Some x -> star p (a ++ s) k = Some x.
Proof.
  intros Ha Hs Hk. induction a as [|c a IH]; simpl.
  - now rewrite star_stops.
  - simpl in Ha. apply andb_true_iff in Ha as [Hc Ha]. now rewrite Hc, (IH Ha).
Qed.

Lemma run_lit (l s : string) (g : groupdict) (k : string -> groupdict -> option X) :
  run (Lit l) (l ++ s) g k = k s g.
Proof.
  simpl. now rewrite (proj2 (lit_spec l (l ++ s) s) eq_refl).
Qed.

Lemma run_lit_all (l : string) (g : groupdict) (k : string -> groupdict -> option X) :
  run (Lit l) l g k = k "" g.
Proof.
  simpl. now rewrite (proj2 (lit_spec l l "") (eq_sym (append_nil_r l))).
Qed.

Lemma run_cat (r1 r2 : regex) (s : string) (g : groupdict)
    (k : string -> groupdict -> option X) :
  run (Cat r1 r2) s g k = run r1 s g (fun rest g' => run r2 rest g' k).
Proof. reflexivity. Qed.

Lemma run_plus_longest (p : ascii -> bool) (a s : string) (g : groupdict)
    (k : string -> groupdict -> option X) (x : X) :
  a <> "" -> all_str p a = true -> stops p s -> k s g = Some x ->
  run (Plus p) (a ++ s) g k = Some x.
Proof.
  intros Hne Ha Hs Hk. destruct a as [|c a]; [congruence|].
  simpl in *. apply andb_true_iff in Ha as [Hc Ha]. rewrite Hc.
  now apply star_longest.
Qed.

Lemma run_group_plus (n : string) (p : ascii -> bool) (a s : string) (g : groupdict)
    (k : string -> groupdict -> option X) (x : X) :
  a <> "" -> all_str p a = true -> stops p s -> k s ((n, a) :: g) = Some x ->
  run (Group n (Plus p)) (a ++ s) g k = Some x.
Proof.
  intros Hne Ha Hs Hk.
  change (run (Group n (Plus p)) (a ++ s) g k)
    with (run (Plus p) (a ++ s) g
            (fun rest g' => k rest ((n, consumed (a ++ s) rest) :: g'))).
  apply run_plus_longest; auto. now rewrite consumed_app.
Qed.

Lemma run_group_star (n : string) (p : ascii -> bool) (a s : string) (g : groupdict)
    (k : string -> groupdict -> option X) (x : X) :
  all_str p a = true -> stops p s -> k s ((n, a) :: g) = Some x ->
  run (Group n (Star p)) (a ++ s) g k = Some x.
Proof.
  intros Ha Hs Hk.
  change (run (Group n (Star p)) (a ++ s) g k)
    with (star p (a ++ s)
            (fun rest => k rest ((n, consumed (a ++ s) rest) :: g))).
  apply star_longest; auto. now rewrite consumed_app.
Qed.

End Engine.

Lemma search_head (r : regex) (s : string) (g : groupdict) :
  run r s [] (fun _ g' => Some g') = Some g -> search r s = Some g.
Proof. intros H. destruct s; simpl; now rewrite H. Qed.

Lemma all_str_impl (p q : ascii -> bool) (s : string) :
  (forall c, p c = true -> q c = true) -> all_str p s = true -> all_str q s = true.
Proof.
  intros H. induction s as [|c s IH]; simpl; [reflexivity|].
  intros Hs. apply andb_true_iff in Hs as [Hc Hs]. now rewrite (H c Hc), (IH Hs).
Qed.

Lemma lstrip_split (p : ascii -> bool) (s : string) :
  exists sp, s = sp ++ lstrip p s /\ all_str p sp = true.
Proof.
  induction s as [|c t (sp & E & Hsp)]; simpl.
  - now exists "".
  - destruct (p c) eqn:Hc.
    + exists (String c sp). simpl. now rewrite Hc, Hsp, <- E.
    + now exists "".
Qed.

Lemma lstrip_lstrip (p : ascii -> bool) (s : string) : lstrip p (lstrip p s) = lstrip p s.
Proof.
  induction s as [|c t IH]; simpl; [reflexivity|].
  destruct (p c) eqn:Hc; [exact IH | simpl; now rewrite Hc].
Qed.

(** The response to [get(NAME)], a line [Parameter 'NAME': VALUE]: the
    pattern finds the name, and the value without the blanks it starts
    with. *)
Lemma get_pattern_reads (name value : string) :
  name <> "" -> all_str is_word name = true ->
  all_str (not_in [10; 13]%N) value = true ->
  lstrip is_space value <> "" ->
  search GET_RESP_RE ("Parameter '" ++ name ++ "': " ++ value ++ LF)
  = Some [("value", lstrip is_space value); ("name", name)].
Proof.
  intros Hne Hw Hv Hl.
  destruct (lstrip_split is_space value) as (sp & E & Hsp).
  assert (Hhead : stops is_space (lstrip is_space value ++ LF)).
  { generalize (NormalizeFacts.lstrip_head is_space value).
    destruct (lstrip is_space value); [congruence | now simpl]. }
  assert (Hval : all_str (not_in [10; 13]%N) (lstrip is_space value) = true).
  { rewrite E, all_str_append in Hv. now apply andb_true_iff in Hv as [_ Hv]. }
  apply search_head. unfold GET_RESP_RE.
  change ("Parameter '" ++ name ++ "': " ++ value ++ LF)
    with ("Parameter" ++ " " ++ "'" ++ name ++ "':" ++ " " ++ value ++ LF).
  rewrite run_cat, run_lit.
  rewrite run_cat. apply run_plus_longest; [discriminate | reflexivity | reflexivity |].
  rewrite run_cat, run_lit.
  rewrite run_cat. apply run_group_plus; [exact Hne | exact Hw | reflexivity |].
  rewrite run_cat, run_lit.
  rewrite run_cat. rewrite E at 1. rewrite <- !append_assoc.
  change (" " ++ sp) with (String " " sp). rewrite !append_assoc.
  apply run_plus_longest; [discriminate | simpl; exact Hsp | exact Hhead |].
  apply run_group_plus; [exact Hl | exact Hval | reflexivity |].
  reflexivity.
Qed.


(** A specification [NAME(ARGS)]. *)
Lemma spec_pattern_reads (name args : string) :
  name <> "" -> all_str is_word name = true ->
  all_str (not_in [40; 41]%N) args = true ->
  fullmatch FUNC_SPEC_RE (name ++ "(" ++ args ++ ")")
  = Some [("args", args); ("name", name)].
Proof.
  intros Hne Hw Ha. unfold fullmatch, FUNC_SPEC_RE.
  rewrite run_cat. apply run_group_plus; [exact Hne | exact Hw | reflexivity |].
  rewrite run_cat, run_lit.
  rewrite run_cat. apply run_group_star; [exact Ha | reflexivity |].
  rewrite run_lit_all. reflexivity.
Qed.

Lemma crlf_to_lf_cons (c d : ascii) (t : string) :
  crlf_to_lf (String c (String d t))
  = if (code c =? 13)%N && (code d =? 10)%N then String d (crlf_to_lf t)
    else String c (crlf_to_lf (String d t)).
Proof. reflexivity. Qed.

(** A line without a carriage return of its own. *)
Lemma crlf_to_lf_line (x : string) :
  all_str (fun c => negb (code c =? 13)%N) x = true ->
  crlf_to_lf (x ++ CRLF) = x ++ LF.
Proof.
  induction x as [|c x IH]; [reflexivity|].
  simpl all_str. intros H. apply andb_true_iff in H as [Hc Hx].
  specialize (IH Hx).
  destruct x as [|d x].
  - simpl append. unfold CRLF. rewrite crlf_to_lf_cons.
    apply negb_true_iff in Hc. rewrite Hc. reflexivity.
  - change (String c (String d x) ++ CRLF) with (String c (String d (x ++ CRLF))).
    rewrite crlf_to_lf_cons. apply negb_true_iff in Hc. rewrite Hc. simpl andb.
    change (String d (x ++ CRLF)) with (String d x ++ CRLF). now rewrite IH.
Qed.

Lemma word_no_cr (c : ascii) : is_word c = true -> negb (code c =? 13)%N = true.
Proof.
  destruct c as [[] [] [] [] [] [] [] []]; vm_compute; intros H;
    first [reflexivity | discriminate H].
Qed.

Lemma no_newline_no_cr (c : ascii) :
  not_in [10; 13]%N c = true -> negb (code c =? 13)%N = true.
Proof.
  destruct c as [[] [] [] [] [] [] [] []]; vm_compute; intros H;
    first [reflexivity | discriminate H].
Qed.


End PatternFacts.

(** ** Reading and writing a parameter, declaring a function *)

Module RoundTripFacts.
Import Text TextFacts Re Lvp Observe LvpFacts SetFacts Spec Behaviour Examples.
Import HistoryFacts HandshakeFacts ExchangeFacts PatternFacts DeclareFacts.

Lemma normalize_response_lstrip (value : string) :
  normalize_response (lstrip is_space value) = normalize_response value.
Proof.
  unfold normalize_response, strip, strip_class. now rewrite lstrip_lstrip.
Qed.

Lemma framed_call (f x : string) : framed (f ++ x ++ ")") = f ++ x ++ ")" ++ LF.
Proof.
  rewrite <- !append_assoc. rewrite framed_paren. now rewrite !append_assoc.
Qed.

Section Protocol.
Variable float_str : Builtins.PyFloat -> string.
Variable dict_str : dict -> string.

(** X7.  Reading a parameter.  On an initialised link that is not quiet,
    when the device answers [get(NAME)] with the line
    [Parameter 'NAME': VALUE] and falls silent, [get] writes the command
    and returns the coerced value. *)
Theorem get_returns_the_reported_value
    (name value : string) (rest : list (option ascii)) (s : LVP) :
  _init s = true -> _quiet s = false ->
  name <> "" -> all_str is_word name = true -> is_ascii name = true ->
  all_str (not_in [10; 13]%N) value = true -> is_ascii value = true ->
  lstrip is_space value <> "" ->
  incoming (_serial s)
  = (feed ("Parameter '" ++ name ++ "': " ++ value ++ CRLF) ++ None :: rest)%list ->
  exists s',
    get float_str dict_str [Str name] s = Return (One (normalize_response value)) s' /\
    wire s' = (wire s ++ [get_command float_str dict_str (Str name)])%list /\
    incoming (_serial s') = rest.
Proof.
  intros Hi Hq Hne Hw Han Hv Hav Hl Hin.
  assert (Hbody : "Parameter '" ++ name ++ "': " ++ value ++ CRLF
                  = ("Parameter '" ++ name ++ "': " ++ value) ++ CRLF)
    by now rewrite !append_assoc.
  rewrite Hbody in Hin.
  assert (Hsend := @send_exchange ("get(" ++ name ++ ")")
                      ("Parameter '" ++ name ++ "': " ++ value) None rest s Hi Hq).
  rewrite (framed_call "get(" name) in Hsend.
  specialize (Hsend ltac:(rewrite !is_ascii_app, Han; reflexivity)
                    ltac:(rewrite !is_ascii_app, Han, Hav; reflexivity) Hin).
  rewrite crlf_to_lf_line in Hsend.
  2:{ rewrite !all_str_append. simpl.
      rewrite (all_str_impl _ _ name word_no_cr Hw).
      now rewrite (all_str_impl _ _ value no_newline_no_cr Hv). }
  unfold get, _get, bind. simpl format. rewrite Hsend.
  rewrite !append_assoc, (@get_pattern_reads name value Hne Hw Hv Hl).
  replace (group "name" [("value", lstrip is_space value); ("name", name)])
    with name by reflexivity.
  replace (group "value" [("value", lstrip is_space value); ("name", name)])
    with (lstrip is_space value) by reflexivity.
  unfold same_name. rewrite String.eqb_refl.
  rewrite normalize_response_lstrip.
  eexists. split; [reflexivity|]. now split.
Qed.


End Protocol.

(** *** Declarations that are accepted *)

Lemma split_plain (sep : ascii) (w : string) :
  all_str (fun c => negb (Ascii.eqb c sep)) w = true -> split sep w = [w].
Proof.
  induction w as [|c w IH]; simpl; [reflexivity|].
  intros H. apply andb_true_iff in H as [Hc Hw].
  apply negb_true_iff in Hc. now rewrite Hc, (IH Hw).
Qed.

Lemma split_app (sep : ascii) (w rest : string) :
  all_str (fun c => negb (Ascii.eqb c sep)) w = true ->
  split sep (w ++ String sep rest) = w :: split sep rest.
Proof.
  induction w as [|c w IH]; simpl.
  - now rewrite Ascii.eqb_refl.
  - intros H. apply andb_true_iff in H as [Hc Hw].
    apply negb_true_iff in Hc. now rewrite Hc, (IH Hw).
Qed.

Lemma split_join (sep : ascii) (ws : list string) :
  ws <> [] ->
  Forall (fun w => all_str (fun c => negb (Ascii.eqb c sep)) w = true) ws ->
  split sep (join (String sep "") ws) = ws.
Proof.
  intros Hne H. induction H as [|w ws Hw Hws IH]; [congruence|].
  destruct ws as [|w' ws'].
  - now apply split_plain.
  - change (join (String sep "") (w :: w' :: ws'))
      with (w ++ String sep (join (String sep "") (w' :: ws'))).
    rewrite (@split_app sep w _ Hw), IH; [reflexivity | discriminate].
Qed.

(** What [declare] makes of a specification of the form. *)
Lemma declare_reads (name : string) (args : list string) (bind : bool) (s : LVP) :
  name <> "" -> all_str is_word name = true ->
  Forall (fun a => all_str no_paren a = true /\ all_str no_comma a = true) args ->
  let argnames := map strip match args with [] => [""] | _ => args end in
  declare (name ++ "(" ++ join "," args ++ ")") bind s
  = Return (name, argnames)
      (if bind then with_functions (setitem (functions s) name argnames) s else s).
Proof.
  intros Hne Hw Hargs argnames. unfold declare.
  rewrite (@spec_pattern_reads name (join "," args) Hne Hw).
  2:{ rewrite (all_str_ext _ _ _ not_in_parens).
      apply join_pieces; [reflexivity|].
      eapply Forall_impl; [|exact Hargs]. now intros a [Ha _]. }
  replace (group "name" [("args", join "," args); ("name", name)]) with name by reflexivity.
  replace (group "args" [("args", join "," args); ("name", name)])
    with (join "," args) by reflexivity.
  assert (E : map strip (split "," (join "," args)) = argnames).
  { subst argnames. destruct args as [|a args']; [reflexivity|].
    rewrite split_join; [reflexivity | discriminate |].
    eapply Forall_impl; [|exact Hargs]. now intros x [_ Hx]. }
  rewrite E. now destruct bind.
Qed.

(** X9.  A specification [NAME(A1,...,An)] of the form is accepted
    whatever the link: [declare] gives the function its name and the
    argument names with the blanks around them removed, and a list with no
    name at all declares one argument, the empty name.  Nothing is read
    or written; without [bind] the link is untouched, and with [bind],
    under a name that is not one of the attributes the link has already,
    the function takes its place among the attributes of the link and
    nothing else changes. *)
Theorem declare_captures_the_argument_names
    (name : string) (args : list string) (bind : bool) (s : LVP) :
  name <> "" -> all_str is_word name = true ->
  Forall (fun a => all_str no_paren a = true /\ all_str no_comma a = true) args ->
  bind = false \/ ~ In name attributes ->
  let argnames := map strip match args with [] => [""] | _ => args end in
  declare (name ++ "(" ++ join "," args ++ ")") bind s
  = Return (name, argnames)
      (if bind then with_functions (setitem (functions s) name argnames) s else s).
Proof. intros Hne Hw Hargs _. now apply declare_reads. Qed.

End RoundTripFacts.

(** ** [get] with several names *)

Module ReadFacts.
Import Text TextFacts Re Lvp Observe LvpFacts SetFacts Spec Behaviour Examples.
Import HistoryFacts HandshakeFacts ExchangeFacts PatternFacts RoundTripFacts.

Section Protocol.
Variable float_str : Builtins.PyFloat -> string.
Variable dict_str : dict -> string.





End Protocol.

End ReadFacts.

(** ** Declared functions, the scopes and the quiet flag *)

Module CallFacts.
Import Text TextFacts Re Lvp Observe LvpFacts SetFacts Spec Behaviour Examples DictFacts.
Import QuietFacts HistoryFacts HandshakeFacts ExchangeFacts PatternFacts RoundTripFacts ReadFacts.

#[export] Instance loud_preorder : PreOrder loud.
Proof. split; [now intros s | intros a b c H1 H2 H; auto]. Qed.

Lemma loud_read s t i m :
  loud s (with_messages m (with_serial (mkSerial t (written (_serial s)) i) s)).
Proof. now intros H. Qed.

Lemma loud_write s msg :
  loud s (with_serial (mkSerial (timeout (_serial s)) (written (_serial s) ++ [msg])%list
                                (incoming (_serial s))) s).
Proof. now intros H. Qed.

Lemma loud_init s : loud s (with_init true s).
Proof. now intros H. Qed.

#[export] Hint Resolve loud_read loud_write loud_init : lvp.

Lemma bind_returns {A B} (c : M A) (k : A -> M B) (s s' : LVP) (b : B) :
  bind c k s = Return b s' -> exists a s1, c s = Return a s1 /\ k a s1 = Return b s'.
Proof.
  unfold bind. destruct (c s) as [a s1| |]; try discriminate. intros H. now exists a, s1.
Qed.

Section Protocol.
Variable float_str : Builtins.PyFloat -> string.
Variable dict_str : dict -> string.

Section Respects.
Context (R : LVP -> LVP -> Prop) `{!PreOrder R}.
Hypothesis R_read : forall s t i m,
  R s (with_messages m (with_serial (mkSerial t (written (_serial s)) i) s)).
Hypothesis R_write : forall s msg,
  R s (with_serial (mkSerial (timeout (_serial s)) (written (_serial s) ++ [msg])%list
                             (incoming (_serial s))) s).
Hypothesis R_init : forall s, R s (with_init true s).

Lemma respects_get (args : list PyObj) : respects R (get float_str dict_str args).
Proof.
  assert (Hg : forall name, respects R (_get float_str dict_str name))
    by (intros name; now apply respects__get).
  assert (Hm : forall l, respects R (vs <- map_m (_get float_str dict_str) l ;; ret (Tuple vs))).
  { intros l. apply respects_bind; [exact _ | now apply respects_map_m |].
    intros vs. now apply respects_ret. }
  unfold get.
  destruct args as [|a [|b rest]]; [apply Hm | | destruct a; apply Hm].
  destruct a; [| apply respects_raise; exact _ | apply respects_raise; exact _ | apply Hm].
  apply respects_bind; [exact _ | apply Hg |]. intros v. now apply respects_ret.
Qed.

End Respects.

(** X11.  A declared function called with more arguments than it
    declared ignores the surplus: the call is that with the first
    arguments alone. *)
Theorem call_ignores_surplus_arguments
    (f : Func) (args : list PyObj) (quiet_flag : bool) (s : LVP) :
  call float_str dict_str f args quiet_flag s
  = call float_str dict_str f (firstn (length (snd f)) args) quiet_flag s.
Proof. unfold call. now rewrite <- combine_firstn_l. Qed.

(** The block of a declared function on an initialised link. *)
Lemma call_block_wire (name : string) (argnames : list string) (args : list PyObj)
    (s s' : LVP) (out : string) :
  _init s = true ->
  (set float_str dict_str [Mapping (update [] (combine argnames args))] [] ;; exec name) s
  = Return out s' ->
  _init s' = true /\
  wire s'
  = (wire s
     ++ map (set_command float_str dict_str) (items (update [] (combine argnames args)))
     ++ [framed name])%list.
Proof.
  intros Hi. unfold set.
  change (update (update [] (update [] (combine argnames args))) [])
    with (update [] (update [] (combine argnames args))).
  rewrite (update_nil (update [] (combine argnames args)))
    by (apply nodup_update; constructor).
  destruct (set_each_spec float_str dict_str
              (items (update [] (combine argnames args))) s Hi) as (n & Hn & Hw & He).
  assert (Hk : _init (state_of (set_each float_str dict_str
                                  (items (update [] (combine argnames args))) s)) = true).
  { apply (@respects_set_each keeps_init _); auto with lvp. }
  unfold bind.
  destruct (set_each float_str dict_str (items (update [] (combine argnames args))) s)
    as [[] s1|e s1|s1]; try discriminate.
  simpl in He, Hw, Hk. subst n. rewrite firstn_all in Hw.
  unfold exec. intros Hsend.
  assert (Ha : is_ascii name = true).
  { destruct (is_ascii name) eqn:Ha; [reflexivity|].
    rewrite (send_wire_not_ascii name None s1 Ha) in Hsend. discriminate. }
  assert (Hw' := send_wire_ready name None s1 Hk Ha).
  assert (Hk' : _init (state_of (send name None s1)) = true)
    by (apply send_keeps_init; exact Hk).
  rewrite Hsend in Hw', Hk'. simpl in Hw', Hk'.
  split; [exact Hk'|]. rewrite Hw', Hw, <- app_assoc. reflexivity.
Qed.

(** X12.  Calling a declared function.  On an initialised link that is not
    quiet, a call that returns has set the arguments, one exchange for
    each declared name that got a value and in the order of the
    declaration, and then sent the name of the function; with [quiet]
    these exchanges come between [quiet_connect] and [manual_connect]. *)
Theorem call_sets_the_arguments_then_runs
    (name : string) (argnames : list string) (args : list PyObj) (quiet_flag : bool)
    (s s' : LVP) (out : string) :
  _init s = true -> _quiet s = false ->
  call float_str dict_str (name, argnames) args quiet_flag s = Return out s' ->
  wire s'
  = (wire s
     ++ (if quiet_flag then [quiet_connect] else [])
     ++ map (set_command float_str dict_str) (items (update [] (combine argnames args)))
     ++ [framed name]
     ++ (if quiet_flag then [manual_connect] else []))%list.
Proof.
  intros Hi Hq. unfold call, _maybe_quiet. cbn [fst snd].
  destruct quiet_flag.
  - unfold quiet.
    rewrite (@bind_return _ _ quiet_enter _ s _ _ (quiet_enter_returns s)).
    destruct (quiet_enter_state s) as (Hq1 & Hw1 & _).
    assert (Hi1 : _init (state_of (quiet_enter s)) = true).
    { unfold quiet_enter. rewrite Hq. exact Hi. }
    rewrite Hq in Hw1 |- *.
    intros Hc. apply bind_returns in Hc as (r & s1 & Eb & Hc).
    destruct (@call_block_wire _ _ _ _ _ _ Hi1 Eb) as (Hi2 & Hw2).
    apply bind_returns in Hc as ([] & s2 & Hx & Hc). injection Hc as _ <-.
    unfold quiet_exit in Hx. erewrite bind_return in Hx by reflexivity.
    cbn [negb] in Hx. apply bind_returns in Hx as (r3 & s3 & Hs & Hx).
    injection Hx as <-.
    assert (Hw3 := send_wire_ready "manual_connect" None (with_quiet false s1) Hi2 eq_refl).
    rewrite Hs in Hw3. simpl state_of in Hw3. rewrite Hw3.
    change (wire (with_quiet false s1)) with (wire s1).
    rewrite Hw2, Hw1, <- !app_assoc. reflexivity.
  - intros Hb. destruct (@call_block_wire _ _ _ _ _ _ Hi Hb) as (_ & Hw).
    rewrite Hw, app_nil_r. reflexivity.
Qed.

End Protocol.

(** X13.  The scope [_force_manual] on a link that is not quiet.  When its
    block runs to its end the flag is as it was, not quiet, and the last
    thing written is [quiet_connect]: the device is told to be quiet while
    the link goes on reading its responses. *)
Theorem force_manual_ends_with_quiet_connect
    (A : Type) (body : M A) (self s1 : LVP) (r : A) :
  _quiet self = false ->
  body (with_quiet false self) = Return r s1 ->
  exists s2,
    _force_manual body self = Return r s2 /\
    wire s2 = (wire s1 ++ [quiet_connect])%list /\
    _quiet s2 = false /\
    incoming (_serial s2) = incoming (_serial s1).
Proof.
  intros Hq Hb. unfold _force_manual.
  erewrite bind_return by reflexivity. rewrite Hq.
  erewrite bind_return by reflexivity.
  erewrite bind_return by reflexivity.
  erewrite bind_return by exact Hb.
  erewrite bind_return by reflexivity.
  cbn [negb]. erewrite bind_return by reflexivity.
  eexists. split; [reflexivity|]. now repeat split.
Qed.

(** X14.  No method of the link sets the quiet flag.  A link that is not
    quiet is not quiet after [init], [send], [get], [set] or the call of
    a declared function, however they end, nor after a scope [quiet],
    [_force_manual] or [_maybe_quiet] whose block leaves it so, nor after
    a [declare] that does not bind or binds under a name that is not one
    of the attributes of the link (a function bound as [_quiet] is the
    flag from then on, and counts as set). *)
Theorem no_method_makes_the_link_quiet
    (float_str : Builtins.PyFloat -> string) (dict_str : dict -> string) :
  (forall force, respects loud (init force)) /\
  (forall msg t, respects loud (send msg t)) /\
  (forall args, respects loud (get float_str dict_str args)) /\
  (forall args kwargs, respects loud (set float_str dict_str args kwargs)) /\
  (forall spec bind,
     bind = false \/ ~ In (name_of spec) attributes ->
     respects loud (declare spec bind)) /\
  (forall A (body : M A),
     respects loud body ->
     respects loud (quiet body) /\ respects loud (_force_manual body) /\
     forall flag, respects loud (_maybe_quiet flag body)) /\
  (forall f args flag, respects loud (call float_str dict_str f args flag)).
Proof.
  assert (Hsend : forall msg t, respects loud (send msg t))
    by (intros; apply respects_send; auto with lvp; exact _).
  assert (Hset : forall args kwargs, respects loud (set float_str dict_str args kwargs))
    by (intros; apply respects_set; auto with lvp; exact _).
  assert (Hquiet : forall A (body : M A), respects loud body -> respects loud (quiet body)).
  { intros A body Hb s Hs. unfold quiet.
    rewrite (@bind_return _ _ quiet_enter _ s _ _ (quiet_enter_returns s)).
    destruct (quiet_enter_state s) as (Hq1 & _). rewrite Hs in Hq1 |- *.
    rewrite state_of_bind. specialize (Hb _ Hq1).
    destruct (body (state_of (quiet_enter s))) as [r s1|e s1|s1]; simpl in Hb; auto.
    rewrite state_of_then_ret.
    destruct (quiet_exit_state false s1) as (H & _). exact H. }
  repeat split.
  - intros force. apply respects_init; auto with lvp. exact _.
  - exact Hsend.
  - intros args. apply respects_get; auto with lvp. exact _.
  - exact Hset.
  - intros spec bind _ s Hs. unfold declare.
    destruct (fullmatch FUNC_SPEC_RE spec); [|exact Hs]. now destruct bind.
  - now apply Hquiet.
  - intros s Hs. unfold _force_manual.
    erewrite bind_return by reflexivity. rewrite Hs.
    erewrite bind_return by reflexivity.
    erewrite bind_return by reflexivity.
    rewrite state_of_bind. specialize (H (with_quiet false s) eq_refl).
    destruct (body (with_quiet false s)) as [r s1|e s1|s1]; simpl in H; auto.
  - intros [|]; [now apply Hquiet | exact H].
  - intros f args flag. unfold call, _maybe_quiet.
    assert (Hb : respects loud
                   (set float_str dict_str [Mapping (update [] (combine (snd f) args))] [] ;;
                    exec (fst f))).
    { apply respects_bind; [exact _ | apply Hset | intros _; apply Hsend]. }
    destruct flag; [now apply Hquiet | exact Hb].
Qed.

End CallFacts.

(** ** The constructor *)

Module ConstructorFacts.
Import Text TextFacts Re Lvp Observe LvpFacts SetFacts Spec Behaviour Examples DictFacts.
Import DeclareFacts PatternFacts RoundTripFacts CallFacts Console.

Lemma word_no_paren (c : ascii) :
  is_word c = true -> negb (Ascii.eqb c "(") = true.
Proof.
  destruct c as [[] [] [] [] [] [] [] []]; vm_compute; intros H;
    first [reflexivity | discriminate H].
Qed.

(** The name the pattern captures is the text before the first opening
    parenthesis. *)
Lemma name_of_spec (name rest : string) :
  all_str is_word name = true -> name_of (name ++ "(" ++ rest) = name.
Proof.
  intros Hw. unfold name_of.
  change (name ++ "(" ++ rest) with (name ++ String "(" rest).
  rewrite split_app; [reflexivity|].
  exact (all_str_impl _ _ name word_no_paren Hw).
Qed.

Lemma declare_of_form (spec : string) (s : LVP) :
  spec_form spec ->
  exists argnames,
    declare spec true s
    = Return (name_of spec, argnames)
        (with_functions (setitem (functions s) (name_of spec) argnames) s).
Proof.
  intros (name & args & Hne & Hw & Hargs & ->).
  rewrite (@name_of_spec name _ Hw).
  eexists. now apply (@declare_reads name args true s).
Qed.

Lemma keys_after_setitem {V} (d : list (string * V)) (k : string) (v : V) (x : string) :
  In x (map fst (setitem d k v)) <-> In x (map fst d) \/ x = k.
Proof.
  rewrite keys_setitem. destruct (has_key k d) eqn:E.
  - apply has_key_In in E. split; [tauto|]. intros [H| ->]; tauto.
  - rewrite in_app_iff. simpl. split; [intros [H|[<-|[]]]; tauto | intros [H| ->]; tauto].
Qed.

Lemma declare_all (fresh : LVP) (specs : list string) : forall fs0,
  exists fs,
    state_of (for_each (fun spec => declare spec true ;; ret tt) specs
                (with_functions fs0 fresh))
    = with_functions fs fresh /\
    match for_each (fun spec => declare spec true ;; ret tt) specs
            (with_functions fs0 fresh) with
    | Return _ _ =>
        Forall spec_form specs /\
        forall name, In name (map fst fs) <->
                     In name (map fst fs0) \/ In name (map name_of specs)
    | Raise e _ =>
        exists good bad rest,
          specs = (good ++ bad :: rest)%list /\ Forall spec_form good /\ ~ spec_form bad /\
          e = ValueError ("invalid specification: " ++ repr bad) /\
          forall name, In name (map fst fs) <->
                       In name (map fst fs0) \/ In name (map name_of good)
    | Blocks _ => False
    end.
Proof.
  induction specs as [|spec t IH]; intros fs0.
  - exists fs0. simpl. split; [reflexivity|]. split; [constructor | tauto].
  - cbn [for_each].
    destruct (fullmatch FUNC_SPEC_RE spec) as [data|] eqn:Em.
    + assert (Hf : spec_form spec) by (apply fullmatch_spec_form; congruence).
      destruct (declare_of_form (with_functions fs0 fresh) Hf) as (argnames & Hd).
      erewrite bind_return by (erewrite bind_return by exact Hd; reflexivity).
      destruct (IH (setitem fs0 (name_of spec) argnames)) as (fs & Hs & Ho).
      exists fs. split; [exact Hs|].
      change (with_functions (setitem (functions (with_functions fs0 fresh))
                                (name_of spec) argnames) (with_functions fs0 fresh))
        with (with_functions (setitem fs0 (name_of spec) argnames) fresh).
      destruct (for_each _ t (with_functions (setitem fs0 (name_of spec) argnames) fresh))
        as [[] s1|e s1|s1].
      * destruct Ho as (Hall & Hk). split; [now constructor|].
        intros name. rewrite Hk, keys_after_setitem. simpl. intuition auto.
      * destruct Ho as (good & bad & rest & -> & Hg & Hb & -> & Hk).
        exists (spec :: good), bad, rest. repeat split; auto.
        -- intros H. apply Hk in H. rewrite keys_after_setitem in H. simpl. intuition auto.
        -- intros H. apply Hk. rewrite keys_after_setitem. simpl in H. intuition auto.
      * exact Ho.
    + assert (Hd : declare spec true (with_functions fs0 fresh)
                   = Raise (ValueError ("invalid specification: " ++ repr spec))
                           (with_functions fs0 fresh))
        by (unfold declare; now rewrite Em).
      erewrite bind_raise by (erewrite bind_raise by exact Hd; reflexivity).
      exists fs0. split; [reflexivity|].
      exists [], spec, t. repeat split; auto.
      * intros H. apply fullmatch_spec_form in H. congruence.
      * simpl. tauto.
Qed.

(** X15.  The constructor.  [LVP(device, functions=specs, id=ident)]
    neither reads nor writes the port: the link it makes is not
    initialised and not quiet, with an empty history, and differs from a
    bare link only by the functions it has bound.  It declares the
    specifications in order; it returns when all of them are of the form,
    with one function bound for each name; and at the first one that is
    not it raises the error of [declare], the functions declared before it
    being bound.  (A device is given, and no specification bears the name
    of an attribute the link has already.) *)
Theorem constructor_declares_the_functions
    (dev : string) (ident : option string) (specs : list string)
    (input : list (option ascii)) :
  dev <> "" -> Forall (fun spec => ~ In (name_of spec) attributes) specs ->
  let fresh := mkLVP ident dev false false [] (mkSerial None [] input) [] in
  exists fs,
    state_of (__init__ dev ident specs input) = with_functions fs fresh /\
    match __init__ dev ident specs input with
    | Return _ _ =>
        Forall spec_form specs /\
        forall name, In name (map fst fs) <-> In name (map name_of specs)
    | Raise e _ =>
        exists good bad rest,
          specs = (good ++ bad :: rest)%list /\ Forall spec_form good /\ ~ spec_form bad /\
          e = ValueError ("invalid specification: " ++ repr bad) /\
          forall name, In name (map fst fs) <-> In name (map name_of good)
    | Blocks _ => False
    end.
Proof.
  intros _ _ fresh. unfold __init__.
  destruct (declare_all fresh specs []) as (fs & Hs & Ho).
  exists fs. split; [exact Hs|].
  change (mkLVP ident dev false false [] (mkSerial None [] input) [])
    with (with_functions [] fresh).
  destruct (for_each _ specs (with_functions [] fresh)) as [[] s1|e s1|s1].
  - destruct Ho as (Hall & Hk). split; [exact Hall|].
    intros name. rewrite Hk. simpl. tauto.
  - destruct Ho as (good & bad & rest & E & Hg & Hb & He & Hk).
    exists good, bad, rest. repeat split; auto; intros H.
    + apply Hk in H. simpl in H. tauto.
    + apply Hk. now right.
  - exact Ho.
Qed.

End ConstructorFacts.

(** ** The interactive loop *)

Module ConsoleFacts.
Import Text TextFacts Lvp Observe LvpFacts SetFacts Spec Behaviour Examples Console.

(** X16.  The interactive loop on an initialised link sends the lines the
    user types, each as one exchange and in the order typed, up to the
    line [quit], which is not sent and after which nothing is; it
    returns, with one text printed per line sent, only when [quit] was
    typed.  The errors that end it are those of the codec, raised by an
    exchange, and the [EOFError] of [input], raised when the input ends
    with no [quit] in it, after every line was sent. *)
Theorem interact_sends_the_lines_before_quit (typed : list string) (eof : bool) (s : LVP) :
  _init s = true ->
  exists n, (n <= length (before_quit typed))%nat /\
    wire (state_of (interact typed eof s))
    = (wire s ++ map framed (firstn n (before_quit typed)))%list /\
    match interact typed eof s with
    | Return printed _ =>
        In "quit" typed /\ n = length (before_quit typed) /\ length printed = n
    | Raise e _ =>
        codec e \/
        e = EOFError /\ eof = true /\ ~ In "quit" typed /\ n = length typed
    | Blocks _ => True
    end.
Proof.
  revert s. induction typed as [|msg more IH]; intros s Hi.
  - exists 0%nat. destruct eof; simpl; rewrite app_nil_r; auto.
    split; [lia|]. split; [reflexivity|]. right. tauto.
  - cbn [interact before_quit]. destruct (String.eqb_spec msg "quit") as [->|Hne].
    + exists 0%nat. simpl. rewrite app_nil_r. auto.
    + assert (Hk : _init (state_of (send msg None s)) = true)
        by (apply send_keeps_init; exact Hi).
      unfold bind.
      destruct (is_ascii msg) eqn:Ha.
      * assert (Hw := send_wire_ready msg None s Hi Ha).
        destruct (send msg None s) as [out s1|e s1|s1] eqn:Es; simpl in Hw, Hk.
        -- destruct (IH s1 Hk) as (n & Hn & Hwn & Ho).
           exists (S n). split; [simpl; lia|].
           destruct (interact more eof s1) as [printed s2|e s2|s2]; simpl in *.
           ++ split; [rewrite Hwn, Hw, <- app_assoc; reflexivity|].
              destruct Ho as (Hq & -> & Hp).
              split; [now right | split; [reflexivity | now rewrite Hp]].
           ++ split; [rewrite Hwn, Hw, <- app_assoc; reflexivity|].
              destruct Ho as [Hc|(-> & He & Hq & ->)]; [now left|].
              right. split; [reflexivity|]. split; [exact He|]. split; [|reflexivity].
              intros [Hm|Hm]; [exact (Hne Hm) | exact (Hq Hm)].
           ++ split; [rewrite Hwn, Hw, <- app_assoc; reflexivity | exact I].
        -- exists 1%nat. split; [simpl; lia|]. split; [exact Hw|].
           left. eapply send_raises_codec; eassumption.
        -- exists 1%nat. split; [simpl; lia|]. split; [exact Hw | exact I].
      * rewrite (send_wire_not_ascii msg None s Ha).
        exists 0%nat. split; [lia|]. simpl. rewrite app_nil_r. split; [reflexivity|].
        left. now left.
Qed.

End ConsoleFacts.

(** ** Integers through the coercion *)

Module IntegerFacts.
Import Text TextFacts Builtins NormalizeFacts Behaviour PatternFacts.

Lemma read_digits_acc (u : Decimal.uint) : forall p,
  read_digits (N.pos p) u = N.pos (Pos.of_uint_acc u p).
Proof.
  induction u; intros p; cbn [read_digits Pos.of_uint_acc]; [reflexivity|..];
    match goal with
    | |- read_digits ?a _ = _ =>
        match goal with
        | |- _ = N.pos (Pos.of_uint_acc _ ?q) =>
            replace a with (N.pos q) by (cbn [N.mul N.add]; f_equal; lia); apply IHu
        end
    end.
Qed.

Lemma read_digits_of_uint (u : Decimal.uint) : read_digits 0 u = Pos.of_uint u.
Proof.
  induction u; cbn [read_digits Pos.of_uint]; [reflexivity | exact IHu|..];
    match goal with
    | |- read_digits ?a _ = N.pos (Pos.of_uint_acc _ ?q) =>
        replace a with (N.pos q) by reflexivity; apply read_digits_acc
    end.
Qed.

Lemma digits_step (acc : N) (prev : bool) (c : ascii) (t : string) :
  is_digit c = true ->
  digits acc prev (String c t) = digits (10 * acc + digit_val c) true t.
Proof. intros H. simpl. now rewrite H. Qed.

Lemma digits_of_uint (u : Decimal.uint) : forall acc,
  digits acc true (NilEmpty.string_of_uint u) = Some (read_digits acc u).
Proof.
  induction u; intros acc; cbn [NilEmpty.string_of_uint read_digits]; [reflexivity|..];
    rewrite digits_step by reflexivity; rewrite IHu; do 2 f_equal;
    first [reflexivity | apply N.add_0_r].
Qed.

Lemma digits_of_number (u : Decimal.uint) :
  u <> Decimal.Nil ->
  digits 0 false (NilEmpty.string_of_uint u) = Some (Pos.of_uint u).
Proof.
  intros Hne. rewrite <- read_digits_of_uint.
  destruct u; [congruence|..]; cbn [NilEmpty.string_of_uint read_digits];
    rewrite digits_step by reflexivity; rewrite digits_of_uint; do 2 f_equal;
    first [reflexivity | apply N.add_0_r].
Qed.

Lemma rstrip_none (p : ascii -> bool) (s : string) :
  all_str (fun c => negb (p c)) s = true -> rstrip p s = s.
Proof.
  induction s as [|c t IH]; simpl; [reflexivity|].
  intros H. apply andb_true_iff in H as [Hc Ht]. rewrite (IH Ht).
  apply negb_true_iff in Hc. rewrite Hc. now destruct t.
Qed.

Lemma strip_none (p : ascii -> bool) (s : string) :
  all_str (fun c => negb (p c)) s = true -> strip_class p s = s.
Proof.
  intros H. unfold strip_class.
  assert (E : lstrip p s = s).
  { destruct s as [|c t]; [reflexivity|]. simpl in *.
    apply andb_true_iff in H as [Hc _]. apply negb_true_iff in Hc. now rewrite Hc. }
  rewrite E. now apply rstrip_none.
Qed.

Lemma string_of_uint_digits (u : Decimal.uint) :
  all_str is_digit (NilEmpty.string_of_uint u) = true.
Proof. induction u; simpl; auto. Qed.

Lemma digit_no_space (c : ascii) : is_digit c = true -> negb (is_space c) = true.
Proof.
  destruct c as [[] [] [] [] [] [] [] []]; vm_compute; intros H;
    first [reflexivity | discriminate H].
Qed.

Lemma digit_no_blank (c : ascii) : is_digit c = true -> negb (is_blank c) = true.
Proof.
  destruct c as [[] [] [] [] [] [] [] []]; vm_compute; intros H;
    first [reflexivity | discriminate H].
Qed.

Lemma head_digit (u : Decimal.uint) :
  u <> Decimal.Nil ->
  exists c t, NilEmpty.string_of_uint u = String c t /\ is_digit c = true.
Proof. destruct u; [congruence|..]; intros _; simpl; eauto. Qed.

Lemma int_of_digits (u : Decimal.uint) :
  u <> Decimal.Nil ->
  int (NilEmpty.string_of_uint u) = Some (Z.of_N (Pos.of_uint u)) /\
  int (String "-" (NilEmpty.string_of_uint u)) = Some (- Z.of_N (Pos.of_uint u))%Z.
Proof.
  intros Hne. unfold int.
  assert (Hd := string_of_uint_digits u).
  rewrite (strip_none is_blank (NilEmpty.string_of_uint u))
    by exact (all_str_impl _ _ _ digit_no_blank Hd).
  rewrite (strip_none is_blank (String "-" (NilEmpty.string_of_uint u)))
    by (simpl; exact (all_str_impl _ _ _ digit_no_blank Hd)).
  rewrite (digits_of_number Hne). split; [|reflexivity].
  destruct (head_digit Hne) as (c & t & E & Hc).
  assert (Hdig := digits_of_number Hne). rewrite E in *.
  destruct c as [[] [] [] [] [] [] [] []]; try discriminate Hc; now rewrite Hdig.
Qed.

Lemma string_of_nonnil (u : Decimal.uint) :
  u <> Decimal.Nil -> NilZero.string_of_uint u = NilEmpty.string_of_uint u.
Proof. destruct u; [congruence | reflexivity..]. Qed.

(** X17.  An integer of at most 640 digits written in decimal, as [str]
    writes it, is read back by the coercion as that integer.  (Beyond
    its limit on digits the interpreter refuses the conversion, and the
    coercion goes on to [float].) *)
Theorem normalize_response_reads_back_an_integer (z : Z) :
  (Z.abs z < 10 ^ sure_digits)%Z ->
  normalize_response (str_of_int z) = Int z.
Proof.
  intros _. unfold normalize_response, str_of_int.
  assert (H : strip (NilZero.string_of_int (Z.to_int z)) = NilZero.string_of_int (Z.to_int z)
              /\ int (NilZero.string_of_int (Z.to_int z)) = Some z).
  { destruct z as [|p|p]; [split; reflexivity | |];
      assert (Hne := DecimalPos.Unsigned.to_uint_nonnil p);
      cbn [Z.to_int NilZero.string_of_int]; rewrite (string_of_nonnil Hne); split.
    - apply strip_none.
      exact (all_str_impl _ _ _ digit_no_space (string_of_uint_digits _)).
    - rewrite (proj1 (int_of_digits Hne)), DecimalPos.Unsigned.of_to. reflexivity.
    - apply strip_none. simpl.
      exact (all_str_impl _ _ _ digit_no_space (string_of_uint_digits _)).
    - rewrite (proj2 (int_of_digits Hne)), DecimalPos.Unsigned.of_to. reflexivity. }
  destruct H as [-> ->]. reflexivity.
Qed.

End IntegerFacts.

(** ** The lines of a logged message *)

Module LoggerFacts.
Import Text TextFacts Lvp Logger.

Lemma join_nil_cons (w : string) (ws : list string) : join "" (w :: ws) = w ++ join "" ws.
Proof. destruct ws; simpl; [now rewrite append_nil_r | reflexivity]. Qed.

(** The lines of a message, put end to end, are the message. *)
Lemma splitlines_join (msg : bytes) : join "" (splitlines msg) = msg.
Proof.
  assert (H : forall n msg, (String.length msg <= n)%nat -> join "" (splitlines msg) = msg).
  { induction n as [|n IH]; intros [|c t] Hn; try reflexivity; simpl in Hn; [lia|].
    cbn [splitlines].
    destruct (code c =? 10)%N.
    - rewrite join_nil_cons, IH by lia. reflexivity.
    - destruct (code c =? 13)%N.
      + destruct t as [|d t'].
        * reflexivity.
        * simpl in Hn. destruct (code d =? 10)%N.
          -- rewrite join_nil_cons, (IH t') by lia. reflexivity.
          -- rewrite join_nil_cons, (IH (String d t')) by (simpl; lia). reflexivity.
      + assert (E := IH t ltac:(lia)).
        destruct (splitlines t) as [|ln lns].
        * simpl in E. now subst t.
        * rewrite join_nil_cons in *. simpl. now rewrite E. }
  apply (H (String.length msg)). lia.
Qed.

Lemma splitlines_nonempty (msg : bytes) : Forall (fun ln => ln <> "") (splitlines msg).
Proof.
  assert (H : forall n msg, (String.length msg <= n)%nat ->
                            Forall (fun ln => ln <> "") (splitlines msg)).
  { induction n as [|n IH]; intros [|c t] Hn; try (now constructor); simpl in Hn; [lia|].
    cbn [splitlines].
    destruct (code c =? 10)%N.
    - constructor; [discriminate | apply IH; lia].
    - destruct (code c =? 13)%N.
      + destruct t as [|d t'].
        * repeat constructor. discriminate.
        * simpl in Hn. destruct (code d =? 10)%N.
          -- constructor; [discriminate | apply (IH t'); lia].
          -- constructor; [discriminate | apply (IH (String d t')); simpl; lia].
      + assert (E := IH t ltac:(lia)).
        destruct (splitlines t) as [|ln lns].
        * repeat constructor. discriminate.
        * inversion E; subst. constructor; [discriminate | assumption]. }
  apply (H (String.length msg)). lia.
Qed.

Lemma length_join_prefixed (prefix : bytes) (lns : list bytes) :
  String.length (join "" (map (fun ln => prefix ++ ln) lns))
  = (String.length (join "" lns) + String.length prefix * length lns)%nat.
Proof.
  induction lns as [|ln lns IH]; simpl map.
  - simpl. lia.
  - rewrite !join_nil_cons, !length_append, IH. simpl length. lia.
Qed.

(** X18.  [prefix_lines] puts the prefix before each line of the message
    and loses nothing: the output is the message when the prefix is
    empty, it is longer than the message by one prefix per line, a message
    that is not empty gives an output that starts with the prefix, and the
    empty message gives the empty output, with no prefix at all.  No
    line is empty, so no prefix stands alone. *)
Theorem prefix_lines_prefixes_every_line (prefix msg : bytes) :
  prefix_lines "" msg = msg /\
  String.length (prefix_lines prefix msg)
  = (String.length msg + String.length prefix * length (splitlines msg))%nat /\
  (msg <> "" -> exists rest, prefix_lines prefix msg = prefix ++ rest) /\
  prefix_lines prefix "" = "" /\
  Forall (fun ln => ln <> "") (splitlines msg).
Proof.
  unfold prefix_lines. split; [|split; [|split; [|split; [reflexivity|]]]];
    [| | |apply splitlines_nonempty].
  - rewrite <- (splitlines_join msg) at 2. f_equal.
    rewrite <- (map_id (splitlines msg)) at 2. now apply map_ext.
  - rewrite length_join_prefixed, splitlines_join. reflexivity.
  - intros Hne. destruct (splitlines msg) as [|ln lns] eqn:E.
    + exfalso. apply Hne. rewrite <- (splitlines_join msg), E. reflexivity.
    + simpl map. rewrite join_nil_cons, append_assoc. eauto.
Qed.

End LoggerFacts.

(** ** The pool: the registry of links *)

Module RegistryFacts.
Import Text Lvp Pool Observe DictFacts QueryFacts.

Section Dict.
Variable V : Type.
Implicit Types (d : list (string * V)) (k : string) (v : V).

Lemma getitem_setitem d k v k' :
  getitem (setitem d k v) k' = if String.eqb k k' then Some v else getitem d k'.
Proof.
  induction d as [|[a b] t IH]; simpl.
  - reflexivity.
  - destruct (String.eqb_spec a k) as [->|Hak]; simpl.
    + now destruct (String.eqb k k').
    + rewrite IH. destruct (String.eqb_spec a k') as [->|_]; [|reflexivity].
      destruct (String.eqb_spec k k') as [E|_]; [congruence | reflexivity].
Qed.

Lemma getitem_app d d' k :
  getitem (d ++ d')%list k
  = match getitem d k with Some v => Some v | None => getitem d' k end.
Proof.
  induction d as [|[a b] t IH]; simpl; [reflexivity|].
  now destruct (String.eqb a k).
Qed.

(** Looking a key up after an update: the last of the new entries that
    bears the key, and the old entry when none does. *)
Lemma getitem_update entries : forall d k,
  getitem (update d entries) k
  = match getitem (rev entries) k with
    | Some v => Some v
    | None => getitem d k
    end.
Proof.
  induction entries as [|[a b] t IH]; intros d k; simpl; [reflexivity|].
  change (fold_left _ t (setitem d a b)) with (update (setitem d a b) t).
  rewrite IH, getitem_app, getitem_setitem. simpl.
  destruct (getitem (rev t) k); [reflexivity|].
  now destruct (String.eqb a k).
Qed.

End Dict.

Lemma getitem_keyed (devs : list LVP) (k : string) :
  getitem (map (fun dev => (id dev, dev)) devs) k
  = find (fun dev => String.eqb (id dev) k) devs.
Proof.
  induction devs as [|x t IH]; simpl; [reflexivity|].
  now destruct (String.eqb (id x) k).
Qed.

Section Query.
Variable listing : list LVP -> list LVP.

(** X19.  A literal selector finds the link registered under that id, which
    is the last of the links the pool was built from that bears it; a
    literal that is no id of the pool is the query error.  A link used as
    a selector stands for its id. *)
Theorem query_key_finds_last_registered (devs : list LVP) (k : string) (dev : LVP) :
  query listing (__init__ devs) (Key k)
  = match find (fun d => String.eqb (id d) k) (rev devs) with
    | Some d => Ok [d]
    | None => Err (ValueError "invalid query")
    end
  /\ query listing (__init__ devs) (Link dev) = query listing (__init__ devs) (Key (id dev)).
Proof.
  split; [|reflexivity].
  simpl. unfold lookup, __init__. simpl.
  rewrite getitem_update, <- map_rev, getitem_keyed. simpl.
  now destruct (find _ (rev devs)).
Qed.

End Query.

End RegistryFacts.

(** ** The pool: what a query selects *)

Module SelectFacts.
Import Text Lvp Pool Observe DictFacts QueryFacts RegistryFacts.

Lemma Query_nested_ind (P : Query -> Prop) :
  P Ellipsis ->
  (forall dev, P (Link dev)) ->
  (forall qs, Forall P qs -> P (Seq qs)) ->
  (forall k, P (Key k)) ->
  forall q, P q.
Proof.
  intros He Hl Hs Hk. fix IH 1. intros [|dev|qs|k].
  - exact He.
  - apply Hl.
  - apply Hs. induction qs as [|q t IHt]; constructor; [apply IH | exact IHt].
  - apply Hk.
Qed.

Lemma getitem_In {V} (d : list (string * V)) (k : string) (v : V) :
  getitem d k = Some v -> In v (map snd d).
Proof.
  induction d as [|[a b] t IH]; simpl; [discriminate|].
  destruct (String.eqb a k); [intros [= ->]; now left | right; now apply IH].
Qed.

Lemma gather_Ok (rs : list (Result (list LVP))) : forall added l,
  gather rs added = Ok l ->
  exists ls, rs = map (@Ok _) ls /\ l = (added ++ concat ls)%list.
Proof.
  induction rs as [|[l0|e] t IH]; intros added l; simpl.
  - intros [= <-]. exists []. now rewrite app_nil_r.
  - intros H. apply IH in H as (ls & -> & ->). exists (l0 :: ls).
    simpl. now rewrite app_assoc.
  - discriminate.
Qed.

Lemma gather_Err (rs : list (Result (list LVP))) : forall added e,
  gather rs added = Err e -> In (Err e) rs.
Proof.
  induction rs as [|[l0|e0] t IH]; intros added e; simpl.
  - discriminate.
  - intros H. right. eapply IH. exact H.
  - intros [= ->]. now left.
Qed.

Lemma gather_all_Ok (ls : list (list LVP)) : forall added,
  gather (map (@Ok _) ls) added = Ok (added ++ concat ls)%list.
Proof.
  induction ls as [|l t IH]; intros added; simpl.
  - now rewrite app_nil_r.
  - rewrite IH. now rewrite app_assoc.
Qed.

(** When two objects with the same id are the same object, a set holds
    the objects that were added, each once. *)
Lemma distinct_members (l : list LVP) :
  (forall x y, In x l -> In y l -> same x y = true -> x = y) ->
  forall x, In x (distinct l) <-> In x l.
Proof.
  intros Hinj x. split; [apply distinct_subset|].
  induction l as [|y t IH]; simpl; [tauto|].
  intros [->|Hx]; [now left|].
  destruct (same y x) eqn:E.
  - left. apply Hinj; simpl; auto.
  - right. apply filter_In. split; [|now rewrite E].
    apply IH; [|exact Hx]. intros a b Ha Hb. apply Hinj; simpl; auto.
Qed.

Lemma unique_by_id (l : list LVP) (x y : LVP) :
  NoDup (map id l) -> In x l -> In y l -> same x y = true -> x = y.
Proof.
  intros Hnd Hx Hy E. apply String.eqb_eq in E.
  induction l as [|z t IH]; simpl in *; [tauto|].
  inversion Hnd as [|? ? Hz Ht]; subst.
  destruct Hx as [->|Hx], Hy as [->|Hy]; auto.
  - exfalso. apply Hz. rewrite E. now apply in_map.
  - exfalso. apply Hz. rewrite <- E. now apply in_map.
Qed.

Section Query.
Variable listing : list LVP -> list LVP.
Hypothesis listing_set : forall l, Permutation (listing l) (distinct l).

Lemma query_members (self : LVPPool) (q : Query) :
  match query listing self q with
  | Ok l => forall x, In x l -> In x (values self)
  | Err e => e = ValueError "invalid query"
  end.
Proof.
  assert (Hone : forall k,
            match lookup self k with
            | Ok l => forall x, In x l -> In x (values self)
            | Err e => e = ValueError "invalid query"
            end).
  { intros k. unfold lookup. destruct (getitem (devices self) k) as [dev|] eqn:E;
      [|reflexivity].
    intros x [<-|[]]. eapply getitem_In. exact E. }
  induction q as [|dev|qs IH|k] using Query_nested_ind.
  - now intros x.
  - apply Hone.
  - rewrite query_Seq.
    destruct (gather (map (query listing self) qs) []) as [added|e] eqn:G.
    + apply gather_Ok in G as (ls & Els & ->). simpl.
      intros x Hx. apply (Permutation_in _ (listing_set _)) in Hx.
      apply distinct_subset in Hx. apply in_concat in Hx as (l & Hl & Hx).
      assert (Hin : In (Ok l) (map (query listing self) qs))
        by (rewrite Els; now apply in_map).
      apply in_map_iff in Hin as (q & Eq & Hq).
      rewrite Forall_forall in IH. specialize (IH q Hq). rewrite Eq in IH. now apply IH.
    + apply gather_Err in G. apply in_map_iff in G as (q & Eq & Hq).
      rewrite Forall_forall in IH. specialize (IH q Hq). now rewrite Eq in IH.
  - apply Hone.
Qed.

(** X20.  For a selector made of the sentinel, of links, of texts and of
    sequences of these, a query returns links of the pool and nothing
    else, and the only error it raises is the query error. *)
Theorem query_selects_registered_links (self : LVPPool) (q : Query) :
  match query listing self q with
  | Ok l => forall x, In x l -> In x (values self)
  | Err e => e = ValueError "invalid query"
  end.
Proof. apply query_members. Qed.

(** X21.  The links a sequence of selectors returns are those its
    selectors return, each once. *)
Theorem query_sequence_is_union (devs : list LVP) (qs : list Query) (l : list LVP) :
  query listing (__init__ devs) (Seq qs) = Ok l ->
  NoDup l /\
  forall x, In x l <->
            exists q l', In q qs /\ query listing (__init__ devs) q = Ok l' /\ In x l'.
Proof.
  rewrite query_Seq.
  destruct (gather (map (query listing (__init__ devs)) qs) []) as [added|e] eqn:G;
    [|discriminate].
  intros [= <-]. apply gather_Ok in G as (ls & Els & ->). simpl.
  assert (Hres : forall l', In l' ls <->
                   exists q, In q qs /\ query listing (__init__ devs) q = Ok l').
  { intros l'. split.
    - intros Hl. assert (Hin : In (Ok l') (map (query listing (__init__ devs)) qs))
        by (rewrite Els; now apply in_map).
      apply in_map_iff in Hin as (q & Eq & Hq). now exists q.
    - intros (q & Hq & Eq).
      assert (Hin : In (Ok l') (map (@Ok _) ls)).
      { rewrite <- Els, <- Eq. now apply in_map. }
      apply in_map_iff in Hin as (l0 & [= ->] & Hl0). exact Hl0. }
  assert (Hmem : forall x, In x (concat ls) -> In x (values (__init__ devs))).
  { intros x Hx. apply in_concat in Hx as (l' & Hl' & Hx).
    apply Hres in Hl' as (q & Hq & Eq).
    generalize (query_members (__init__ devs) q).
    rewrite Eq. auto. }
  assert (Hnd : NoDup (map id (values (__init__ devs)))).
  { rewrite ids_of_values. unfold __init__. simpl. apply nodup_update. constructor. }
  split.
  - apply (Permutation_NoDup (l := distinct (concat ls))).
    + symmetry. apply listing_set.
    + apply (NoDup_map_inv id). apply distinct_nodup.
  - intros x.
    assert (Hp : In x (listing (concat ls)) <-> In x (distinct (concat ls))).
    { split; apply Permutation_in; [|symmetry]; apply listing_set. }
    rewrite Hp, distinct_members.
    + rewrite in_concat. split.
      * intros (l' & Hl' & Hx). apply Hres in Hl' as (q & Hq & Eq). now exists q, l'.
      * intros (q & l' & Hq & Eq & Hx). exists l'. split; [|exact Hx].
        apply Hres. now exists q.
    + intros a b Ha Hb. apply (@unique_by_id _ a b Hnd); auto.
Qed.

(** X22.  A sequence of selectors raises exactly when one of its selectors
    raises: there is no partial result. *)
Theorem query_sequence_fails_with_a_selector (self : LVPPool) (qs : list Query) :
  query listing self (Seq qs) = Err (ValueError "invalid query") <->
  exists q, In q qs /\ query listing self q = Err (ValueError "invalid query").
Proof.
  rewrite query_Seq. split.
  - destruct (gather _ _) as [added|e] eqn:G; [discriminate|].
    intros [= ->]. apply gather_Err in G. apply in_map_iff in G as (q & Eq & Hq).
    now exists q.
  - intros (q & Hq & Eq).
    destruct (gather _ _) as [added|e] eqn:G.
    + apply gather_Ok in G as (ls & Els & _).
      assert (Hin : In (Err (ValueError "invalid query")) (map (@Ok (list LVP)) ls)).
      { rewrite <- Els, <- Eq. now apply in_map. }
      apply in_map_iff in Hin as (l0 & [=] & _).
    + generalize (query_members self (Seq qs)).
      rewrite query_Seq, G. now intros ->.
Qed.

End Query.

(** The keys of a dict built from the links, in order: the ids in the
    order in which each was first met. *)
Lemma keys_registered (devs : list LVP) : forall d : list (string * LVP),
  map fst (update d (map (fun dev => (id dev, dev)) devs))
  = (map fst d
     ++ map id (filter (fun y => negb (has_key (id y) d)) (distinct devs)))%list.
Proof.
  induction devs as [|x t IH]; intros d; simpl.
  - now rewrite app_nil_r.
  - change (fold_left _ (map _ t) (setitem d (id x) x))
      with (update (setitem d (id x) x) (map (fun dev => (id dev, dev)) t)).
    rewrite IH, keys_setitem, filter_filter.
    destruct (has_key (id x) d) eqn:E; simpl.
    + f_equal. f_equal. apply filter_ext_in. intros y _.
      rewrite has_key_setitem. unfold same.
      destruct (String.eqb_spec (id x) (id y)) as [Exy|_]; simpl.
      * rewrite <- Exy, E. reflexivity.
      * now rewrite orb_false_r.
    + rewrite <- app_assoc. simpl. f_equal. f_equal. f_equal.
      apply filter_ext. intros y. rewrite has_key_setitem. unfold same.
      now rewrite negb_orb, andb_comm.
Qed.

Lemma registered_ids (devs : list LVP) (k : string) :
  In k (map id (values (__init__ devs))) <-> In k (map id devs).
Proof.
  rewrite ids_of_values. unfold __init__. simpl.
  rewrite keys_update, map_map. simpl. tauto.
Qed.

Lemma ids_in_registration_order (devs : list LVP) :
  map id (values (__init__ devs)) = map id (distinct devs).
Proof.
  rewrite ids_of_values. unfold __init__. simpl. rewrite keys_registered. simpl.
  f_equal. induction (distinct devs) as [|y l IH]; simpl; [reflexivity | now rewrite IH].
Qed.

Lemma len_registered (devs : list LVP) : __len__ (__init__ devs) = length (distinct devs).
Proof.
  unfold __len__.
  rewrite <- (length_map fst), <- ids_of_values, ids_in_registration_order.
  apply length_map.
Qed.

(** X23.  The pool iterates over one link per id, the ids in the order in
    which they were first given; when the ids of the links given are
    distinct, over those very links in that order. *)
Theorem pool_iterates_in_registration_order (devs : list LVP) :
  map id (values (__init__ devs)) = map id (distinct devs) /\
  __len__ (__init__ devs) = length (distinct devs) /\
  (NoDup (map id devs) -> values (__init__ devs) = devs).
Proof.
  split; [apply ids_in_registration_order|]. split; [apply len_registered|].
  intros Hnd. unfold values, __init__. simpl.
  rewrite update_nil.
  - rewrite map_map. simpl. apply map_id.
  - rewrite map_map. simpl. exact Hnd.
Qed.

End SelectFacts.

(** ** The pool: joining the threads *)

Module JoinFacts.
Import Text Lvp Pool Spec Observe Behaviour DictFacts FanOutFacts.

Section Join.
Variable R : Type.
Variable func : LVP -> Fate R.
Variable targets : list LVP.

Lemma nth_error_flags (g : nat -> bool) (n i : nat) (b : bool) :
  nth_error (map g (seq 0 n)) i = Some b -> (i < n)%nat /\ g i = b.
Proof.
  rewrite nth_error_map, nth_error_seq.
  destruct (Nat.ltb_spec i n); simpl; [|discriminate].
  intros [= <-]. now split.
Qed.

Lemma slots_all_over :
  slots func targets (map (fun _ => true) (seq 0 (length targets)))
  = map (fun dev => value_of (func dev)) targets.
Proof.
  unfold slots. generalize 0%nat.
  induction targets as [|t ts IH]; intros s; simpl; [reflexivity|].
  now rewrite IH.
Qed.

(** With no timeout a [join] returns only when its thread has ended:
    the threads joined so far are over. *)
Lemma run_without_timeout (sched : list Event) : forall st g d,
  inv func targets st g ->
  (forall i, (i < joined st)%nat -> (i < length targets)%nat -> g i = true) ->
  run func targets None sched st = Some d ->
  d = update [] (combine (map id targets)
                         (map (fun dev => value_of (func dev)) targets)).
Proof.
  induction sched as [|ev rest IH]; intros st g d Hinv Hj; simpl;
    destruct (length targets <=? joined st)%nat eqn:Ej.
  1,3: intros [= <-]; unfold collect; destruct Hinv as [He Hr];
       rewrite Hr, He, <- slots_all_over; do 3 f_equal;
       apply map_ext_in; intros i Hi; apply in_seq in Hi;
       apply Nat.leb_le in Ej; apply Hj; lia.
  - discriminate.
  - destruct (step func targets None st ev) as [st'|] eqn:Es; [|discriminate].
    intros Hrun. destruct (@step_inv R func targets None st st' g ev Hinv Es) as [Hinv' Hj'].
    apply (IH st' _ d Hinv'); [|exact Hrun].
    intros i Hi Hn. rewrite Hj' in Hi.
    destruct ev as [k| |]; simpl in *.
    + rewrite Hj by lia. reflexivity.
    + destruct (Nat.eq_dec i (joined st)) as [->|Hne].
      * destruct (nth_error (ended st) (joined st)) as [[|]|] eqn:En; try discriminate.
        destruct Hinv as [He _]. rewrite He in En.
        apply nth_error_flags in En as [_ ->]. reflexivity.
      * rewrite Hj by lia. reflexivity.
    + discriminate.
Qed.

(** X24.  With no timeout the call returns only when every task has run
    to its end: the mapping holds what each task returned, and [None]
    only for a task that raised or returned [None]. *)
Theorem parallel_map_without_timeout_waits_for_all
    (self : LVPPool) (sched : list Event) (d : list (string * option R)) :
  _parallel_map self func (Some targets) None sched = Some d ->
  d = update [] (combine (map id targets)
                         (map (fun dev => value_of (func dev)) targets)).
Proof.
  intros Hrun. unfold _parallel_map in Hrun.
  apply (@run_without_timeout sched _ _ d (start_inv func targets)); [|exact Hrun].
  simpl. intros i Hi. lia.
Qed.

Lemma run_one_by_one (timeout : option Q) (n : nat) : forall st g,
  inv func targets st g ->
  (joined st + n = length targets)%nat ->
  (forall i, (joined st <= i)%nat -> g i = false) ->
  run func targets timeout (one_by_one (joined st) n) st <> None.
Proof.
  induction n as [|n IH]; intros st g Hinv Hlen Hg.
  - simpl. replace (length targets <=? joined st)%nat with true; [discriminate|].
    symmetry. apply Nat.leb_le. lia.
  - cbn -[step Nat.leb].
    replace (length targets <=? joined st)%nat with false
      by (symmetry; apply Nat.leb_gt; lia).
    assert (Hk : (joined st < length targets)%nat) by lia.
    destruct (nth_error targets (joined st)) as [dev|] eqn:Et;
      [|apply nth_error_None in Et; lia].
    assert (Ee : nth_error (ended st) (joined st) = Some false).
    { destruct Hinv as [He _]. rewrite He, nth_error_map, nth_error_seq.
      replace (joined st <? length targets)%nat with true
        by (symmetry; apply Nat.ltb_lt; lia).
      simpl. now rewrite Hg. }
    destruct (step func targets timeout st (Finish (joined st))) as [st1|] eqn:E1;
      [|simpl in E1; rewrite Et, Ee in E1; discriminate].
    destruct (@step_inv R func targets timeout st st1 _ _ Hinv E1) as [Hinv1 Hj1].
    simpl in Hj1.
    cbn -[step Nat.leb]. replace (length targets <=? joined st1)%nat with false
      by (symmetry; apply Nat.leb_gt; lia).
    assert (Ee1 : nth_error (ended st1) (joined st1) = Some true).
    { destruct Hinv1 as [He1 _]. rewrite He1, nth_error_map, nth_error_seq, Hj1.
      replace (joined st <? length targets)%nat with true
        by (symmetry; apply Nat.ltb_lt; lia).
      simpl. now rewrite Nat.eqb_refl, orb_true_r. }
    destruct (step func targets timeout st1 JoinEnds) as [st2|] eqn:E2;
      [|simpl in E2; rewrite Ee1 in E2; discriminate].
    destruct (@step_inv R func targets timeout st1 st2 _ _ Hinv1 E2) as [Hinv2 Hj2].
    simpl in Hj2.
    replace (S (joined st)) with (joined st2) by lia.
    apply (IH st2 _ Hinv2); [lia|].
    intros i Hi. simpl. rewrite Hg by lia.
    destruct (Nat.eqb_spec i (joined st)); [lia | reflexivity].
Qed.

Lemma executed_one_by_one (total n : nat) : forall j,
  (j + n = total)%nat -> executed total j (one_by_one j n) = one_by_one j n.
Proof.
  induction n as [|n IH]; intros j Hj.
  - simpl. now destruct (total <=? j)%nat.
  - cbn -[Nat.leb].
    replace (total <=? j)%nat with false by (symmetry; apply Nat.leb_gt; lia).
    cbn -[Nat.leb].
    replace (total <=? j)%nat with false by (symmetry; apply Nat.leb_gt; lia).
    do 2 f_equal. apply IH. lia.
Qed.

(** X25.  Whatever the tasks and the timeout, the call returns along the
    execution in which the threads end one after the other, each joined
    as it ends. *)
Theorem parallel_map_returns_when_tasks_end (self : LVPPool) (timeout : option Q) :
  _parallel_map self func (Some targets) timeout (one_by_one 0 (length targets))
  = Some (update [] (combine (map id targets)
                             (map (fun dev => value_of (func dev)) targets))).
Proof.
  unfold _parallel_map.
  destruct (run func targets timeout (one_by_one 0 (length targets)) (start R targets))
    as [d|] eqn:E.
  - f_equal.
    rewrite (@run_spec R func targets timeout _ _ _ d (start_inv func targets) E).
    simpl. rewrite <- slots_all_over. do 3 f_equal.
    apply map_ext_in. intros i Hi. apply in_seq in Hi.
    apply existsb_exists. exists (Finish i). split; [|simpl; apply Nat.eqb_refl].
    rewrite executed_one_by_one by reflexivity.
    apply in_flat_map. exists i. split; [now apply in_seq | now left].
  - exfalso. revert E.
    apply (@run_one_by_one timeout (length targets) (start R targets) (fun _ => false)
             (start_inv func targets)); [reflexivity | reflexivity].
Qed.

End Join.

End JoinFacts.

(** ** The pool: its constructor from the ports, [declare] and [get] *)

Module PoolApiFacts.
Import Text TextFacts Re Lvp Pool Spec Observe Behaviour DictFacts QueryFacts FanOutFacts.
Import DeclareFacts RegistryFacts SelectFacts JoinFacts RoundTripFacts ConstructorFacts PoolApi.

Lemma values_update {V} (entries : list (string * V)) : forall d v,
  In v (map snd (update d entries)) -> In v (map snd d) \/ In v (map snd entries).
Proof.
  induction entries as [|[a b] t IH]; intros d v; simpl; [tauto|].
  intros H. apply IH in H as [H|H]; [|tauto].
  assert (Hs : forall d0, In v (map snd (setitem d0 a b)) -> In v (map snd d0) \/ b = v).
  { induction d0 as [|[k x] d0 IHd]; simpl; [tauto|].
    destruct (String.eqb k a); simpl; [tauto|]. intros [E|Hin]; [tauto|].
    apply IHd in Hin. tauto. }
  apply Hs in H. tauto.
Qed.

(** The links of a pool are among those it was built from. *)
Lemma values_registered (devs : list LVP) (dev : LVP) :
  In dev (values (Pool.__init__ devs)) -> In dev devs.
Proof.
  unfold values, Pool.__init__. cbn [devices]. intros H.
  apply values_update in H as [[]|H].
  rewrite map_map in H. cbn [snd] in H. now rewrite map_id in H.
Qed.

Lemma excluded_spec (device : string) (exclude : list string) :
  negb (existsb (String.eqb device) exclude) = true <-> ~ In device exclude.
Proof.
  rewrite negb_true_iff. split.
  - intros H Hin. assert (E : existsb (String.eqb device) exclude = true); [|congruence].
    apply existsb_exists. exists device. split; [exact Hin | apply String.eqb_refl].
  - intros H. destruct (existsb _ exclude) eqn:E; [|reflexivity].
    apply existsb_exists in E as (x & Hx & Ex). apply String.eqb_eq in Ex. now subst.
Qed.

(** X26.  The pool of all devices has one link for each port that is not
    excluded, registered under the last component of the path of its
    device, so that two ports whose paths end alike share one entry; no
    excluded port is in it; and its links are fresh: not initialised, with
    nothing written and no function bound. *)
Theorem all_devices_registers_the_ports_not_excluded
    (comports exclude : list string) (tape : string -> list (option ascii)) :
  Forall (fun device => device <> "") comports ->
  let pool := all_devices comports exclude tape in
  (forall k, In k (map id (values pool)) <->
             exists device, In device comports /\ ~ In device exclude /\
                            k = last (split "/" device) "") /\
  Forall (fun dev => In (device dev) comports /\ ~ In (device dev) exclude /\
                     _init dev = false /\ wire dev = [] /\ functions dev = [])
         (values pool) /\
  (__len__ pool <= length comports)%nat.
Proof.
  intros _ pool. subst pool. unfold all_devices.
  match goal with |- context [__init__ ?l] => set (devs := l) end.
  assert (Hlen := len_registered devs).
  repeat split.
  - intros Hk. apply (proj1 (registered_ids devs k)) in Hk. apply in_map_iff in Hk as (dev & <- & Hdev).
    unfold devs in Hdev.
    apply in_map_iff in Hdev as (p & <- & Hp). apply filter_In in Hp as [Hp Hex].
    exists p. repeat split; [exact Hp | now apply excluded_spec].
  - intros (p & Hp & Hex & ->). apply (proj2 (registered_ids devs _)).
    unfold devs. rewrite map_map. apply in_map_iff. exists p.
    split; [reflexivity|]. apply filter_In. split; [exact Hp | now apply excluded_spec].
  - apply Forall_forall. intros dev Hdev. apply values_registered in Hdev.
    unfold devs in Hdev. apply in_map_iff in Hdev as (p & <- & Hp).
    apply filter_In in Hp as [Hp Hex]. simpl.
    repeat split; [exact Hp | now apply excluded_spec].
  - rewrite Hlen.
    assert (Hd : forall l, (length (distinct l) <= length l)%nat).
    { induction l as [|x l IH]; simpl; [lia|].
      assert (H := filter_length_le (fun y => negb (same x y)) (distinct l)). lia. }
    etransitivity; [apply Hd|]. unfold devs. rewrite length_map. apply filter_length_le.
Qed.

Lemma declare_unbound (spec : string) :
  spec_form spec ->
  exists argnames, forall dev, Lvp.declare spec false dev = Return (name_of spec, argnames) dev.
Proof.
  intros (name & args & Hne & Hw & Hargs & ->).
  rewrite (@name_of_spec name _ Hw).
  eexists. intros dev. now apply (@declare_reads name args false dev).
Qed.

Lemma declare_on_spec (spec : string) (devs : list LVP) :
  match declare_on spec devs with
  | Some (Ok funcs) =>
      (devs = [] \/ spec_form spec) /\ map fst funcs = map id devs /\
      (spec_form spec ->
       exists argnames, Forall (fun kv => snd kv = (name_of spec, argnames)) funcs)
  | Some (Err e) =>
      devs <> [] /\ ~ spec_form spec /\
      e = ValueError ("invalid specification: " ++ repr spec)
  | None => False
  end.
Proof.
  destruct (fullmatch FUNC_SPEC_RE spec) as [data|] eqn:Em.
  - assert (Hf : spec_form spec) by (apply fullmatch_spec_form; congruence).
    destruct (declare_unbound Hf) as (argnames & Hd).
    assert (E : declare_on spec devs
                = Some (Ok (map (fun dev => (id dev, (name_of spec, argnames))) devs))).
    { induction devs as [|dev t IH]; simpl; [reflexivity|]. now rewrite Hd, IH. }
    rewrite E. split; [now right|]. split.
    + rewrite map_map. reflexivity.
    + intros _. exists argnames. apply Forall_forall. intros kv Hkv.
      apply in_map_iff in Hkv as (dev & <- & _). reflexivity.
  - assert (Hn : ~ spec_form spec).
    { intros H. apply fullmatch_spec_form in H. congruence. }
    destruct devs as [|dev t]; simpl.
    + split; [now left|]. split; [reflexivity|]. intros H. contradiction.
    + unfold Lvp.declare. rewrite Em. simpl. repeat split; [discriminate | exact Hn].
Qed.

(** X27.  Declaring a function on a pool declares it on every link without
    binding it there.  On a pool that has links the specification must
    be of the form, or the error of [declare] is raised and nothing is
    bound; every link then gives the same function, and the name the
    pool gives to its own function, the text before the first
    parenthesis, is the name the links captured.  A pool with no link
    accepts any text.  With [bind] the function is one more attribute of
    the pool under that name, and without it the pool has what it had.
    (A function that is bound does not bear the name of an attribute the
    pool has already.) *)
Theorem pool_declare_checks_the_specification_on_its_links
    (devs : list LVP) (bound : list (string * PoolFunc)) (spec : string) (bind : bool) :
  bind = false \/ ~ In (name_of spec) pool_attributes ->
  match PoolApi.declare (Pool.__init__ devs) bound spec bind with
  | Some (Ok ((name, funcs), bound')) =>
      (devs = [] \/ spec_form spec) /\ name = name_of spec /\
      map fst funcs = map id (values (Pool.__init__ devs)) /\
      (spec_form spec ->
       exists argnames, Forall (fun kv => snd kv = (name, argnames)) funcs) /\
      bound' = (if bind then setitem bound name (name, funcs) else bound)
  | Some (Err e) =>
      devs <> [] /\ ~ spec_form spec /\
      e = ValueError ("invalid specification: " ++ repr spec)
  | None => False
  end.
Proof.
  intros _. unfold PoolApi.declare.
  assert (Hv : values (Pool.__init__ devs) = [] -> devs = []).
  { intros E. destruct devs as [|d t]; [reflexivity|]. exfalso.
    assert (H : In (id d) (map id (values (Pool.__init__ (d :: t)))))
      by (apply registered_ids; now left).
    rewrite E in H. exact H. }
  generalize (declare_on_spec spec (values (Pool.__init__ devs))).
  destruct (declare_on spec (values (Pool.__init__ devs))) as [[funcs|e]|]; [| |tauto].
  - intros (Hd & Hk & Hf).
    assert (Hnd : NoDup (map fst funcs)).
    { rewrite Hk, ids_of_values. unfold Pool.__init__. simpl.
      apply nodup_update. constructor. }
    rewrite (update_nil funcs Hnd). cbv zeta.
    split; [destruct Hd as [Hd|Hd]; [left; now apply Hv | now right]|].
    split; [reflexivity|]. split; [exact Hk|]. split; [exact Hf | reflexivity].
  - intros (Hd & Hn & He). split; [|split; [exact Hn | exact He]].
    intros ->. now apply Hd.
Qed.

Section Get.
Variable listing : list LVP -> list LVP.
Hypothesis listing_set : forall l, Permutation (listing l) (distinct l).
Variable R : Type.

(** X28.  [get] on a pool first resolves the selector, and an invalid one
    raises the query error before any thread is started.  Otherwise the
    call waits for every selected link, whatever timeout it is given, and
    the mapping it returns has one entry for each selected link, under its
    id: the value its task returned, or [None] when its task raised. *)
Theorem pool_get_returns_one_entry_per_selected_link
    (devs : list LVP) (ref : Query) (task : LVP -> Fate R) (timeout : option Q)
    (sched : list Event) :
  match PoolApi.get listing (Pool.__init__ devs) ref task timeout sched with
  | Err e =>
      query listing (Pool.__init__ devs) ref = Err e /\ e = ValueError "invalid query"
  | Ok None => True
  | Ok (Some d) =>
      exists l,
        query listing (Pool.__init__ devs) ref = Ok l /\
        d = combine (map id l) (map (fun dev => value_of (task dev)) l)
  end.
Proof.
  unfold PoolApi.get.
  generalize (@query_members listing listing_set (Pool.__init__ devs) ref).
  destruct (query listing (Pool.__init__ devs) ref) as [l|e] eqn:Eq.
  - intros _.
    destruct (_parallel_map (Pool.__init__ devs) task (Some l) None sched) as [d|] eqn:Ep;
      [|exact I].
    exists l. split; [reflexivity|].
    unfold _parallel_map in Ep.
    rewrite (@run_without_timeout R task l sched _ _ d (start_inv task l)
               ltac:(simpl; intros; lia) Ep).
    apply update_nil. rewrite fst_combine by now rewrite !length_map.
    exact (@query_distinct_ids listing listing_set devs ref l Eq).
  - intros ->. now split.
Qed.

End Get.

End PoolApiFacts.

(** ** The same properties at concrete inputs *)

Module Cases.
Import Text TextFacts Lvp Pool Spec Observe Examples Behaviour Console Logger PoolApi Samples.
Import LvpFacts QuietFacts SetFacts GetFacts QueryFacts FanOutFacts.
Import RegistryFacts SelectFacts JoinFacts LinkFacts HistoryFacts HandshakeFacts ExchangeFacts
  OutcomeFacts PatternFacts RoundTripFacts ReadFacts CallFacts ConstructorFacts ConsoleFacts
  IntegerFacts LoggerFacts PoolApiFacts.

(** *** On a pool *)

Lemma query_selects_registered_links_witness :
  match query distinct (Pool.__init__ abc) (Seq [Key "A"; Link (member "C")]) with
  | Ok l => forall x, In x l -> In x (values (Pool.__init__ abc))
  | Err e => e = ValueError "invalid query"
  end.
Proof.
  apply (@query_selects_registered_links distinct (fun l => Permutation_refl (distinct l))).
Defined.

Lemma query_sequence_is_union_witness :
  NoDup [member "A"; member "B"] /\
  forall x, In x [member "A"; member "B"] <->
            exists q l', In q [Key "A"; Key "B"; Key "A"] /\
                         query distinct (Pool.__init__ abc) q = Ok l' /\ In x l'.
Proof.
  apply (@query_sequence_is_union distinct (fun l => Permutation_refl (distinct l))
           abc [Key "A"; Key "B"; Key "A"]).
  reflexivity.
Defined.

Lemma query_sequence_fails_with_a_selector_witness :
  query distinct (Pool.__init__ abc) (Seq [Key "A"; Key "Z"])
  = Err (ValueError "invalid query") <->
  exists q, In q [Key "A"; Key "Z"] /\
            query distinct (Pool.__init__ abc) q = Err (ValueError "invalid query").
Proof.
  apply (@query_sequence_fails_with_a_selector distinct
           (fun l => Permutation_refl (distinct l))).
Defined.

Lemma parallel_map_without_timeout_waits_for_all_witness :
  [("A", Some 1%nat); ("B", None); ("C", Some 1%nat)]
  = update [] (combine (map id abc) (map (fun dev => value_of (task dev)) abc)).
Proof.
  apply (@parallel_map_without_timeout_waits_for_all nat task abc (Pool.__init__ abc)
           any_order).
  reflexivity.
Defined.

Lemma all_devices_registers_the_ports_not_excluded_witness :
  (forall k, In k (map id (values (all_devices ports ["COM3"] silent))) <->
             exists device, In device ports /\ ~ In device ["COM3"] /\
                            k = last (split "/" device) "") /\
  Forall (fun dev => In (device dev) ports /\ ~ In (device dev) ["COM3"] /\
                     _init dev = false /\ wire dev = [] /\ functions dev = [])
         (values (all_devices ports ["COM3"] silent)) /\
  (__len__ (all_devices ports ["COM3"] silent) <= length ports)%nat.
Proof.
  apply (@all_devices_registers_the_ports_not_excluded ports ["COM3"] silent).
  repeat constructor; discriminate.
Defined.

Lemma pool_declare_checks_the_specification_on_its_links_witness :
  match PoolApi.declare (Pool.__init__ abc) [] "blink(n)" true with
  | Some (Ok ((name, funcs), bound')) =>
      (abc = [] \/ spec_form "blink(n)") /\ name = name_of "blink(n)" /\
      map fst funcs = map id (values (Pool.__init__ abc)) /\
      (spec_form "blink(n)" ->
       exists argnames, Forall (fun kv => snd kv = (name, argnames)) funcs) /\
      bound' = (if true then setitem [] name (name, funcs) else [])
  | Some (Err e) =>
      abc <> [] /\ ~ spec_form "blink(n)" /\
      e = ValueError ("invalid specification: " ++ repr "blink(n)")
  | None => False
  end.
Proof.
  apply (@pool_declare_checks_the_specification_on_its_links abc [] "blink(n)" true).
  right. simpl. intuition discriminate.
Defined.

Lemma pool_get_returns_one_entry_per_selected_link_witness :
  match PoolApi.get distinct (Pool.__init__ abc) (Seq [Key "A"; Key "B"]) task
          (Some (1 # 1)%Q) [Finish 1; Finish 0; JoinEnds; JoinEnds] with
  | Err e =>
      query distinct (Pool.__init__ abc) (Seq [Key "A"; Key "B"]) = Err e /\
      e = ValueError "invalid query"
  | Ok None => True
  | Ok (Some d) =>
      exists l,
        query distinct (Pool.__init__ abc) (Seq [Key "A"; Key "B"]) = Ok l /\
        d = combine (map id l) (map (fun dev => value_of (task dev)) l)
  end.
Proof.
  apply (@pool_get_returns_one_entry_per_selected_link distinct
           (fun l => Permutation_refl (distinct l)) nat abc).
Defined.

(** *** On a link *)



Lemma send_returns_the_response_witness :
  exists s',
    send "blink" None (ready_link ok_answer) = Return (crlf_to_lf ("ok" ++ CRLF)) s' /\
    wire s' = (wire (ready_link ok_answer) ++ [framed "blink"])%list /\
    incoming (_serial s') = [] /\
    timeout (_serial s') = Some (1 # 64)%Q /\
    last (_messages s') "" = "ok" ++ CRLF /\
    _init s' = true /\ _quiet s' = false.
Proof.
  apply (@send_returns_the_response "blink" "ok" None [] (ready_link ok_answer));
    reflexivity.
Defined.

Lemma send_on_a_quiet_link_reads_nothing_witness :
  exists s',
    send "blink" None (with_quiet true (ready_link ok_answer)) = Return "" s' /\
    wire s' = (wire (with_quiet true (ready_link ok_answer)) ++ [framed "blink"])%list /\
    incoming (_serial s') = incoming (_serial (with_quiet true (ready_link ok_answer))) /\
    timeout (_serial s') = None /\ _quiet s' = true.
Proof.
  apply (@send_on_a_quiet_link_reads_nothing "blink" None
           (with_quiet true (ready_link ok_answer))); reflexivity.
Defined.

Lemma get_returns_the_reported_value_witness :
  exists s',
    Lvp.get no_float no_dict [Str "speed"] (ready_link speed_answer)
    = Return (One (normalize_response "10")) s' /\
    wire s' = (wire (ready_link speed_answer) ++ [get_command no_float no_dict (Str "speed")])%list /\
    incoming (_serial s') = [].
Proof.
  apply (@get_returns_the_reported_value no_float no_dict "speed" "10" []
           (ready_link speed_answer));
    first [reflexivity | discriminate].
Defined.


Lemma declare_captures_the_argument_names_witness :
  Lvp.declare ("blink" ++ "(" ++ join "," ["n"; " ms "] ++ ")") true (ready_link [])
  = Return ("blink", map strip ["n"; " ms "])
      (with_functions (setitem (functions (ready_link [])) "blink" (map strip ["n"; " ms "]))
                      (ready_link [])).
Proof.
  apply (@declare_captures_the_argument_names "blink" ["n"; " ms "] true (ready_link [])).
  - discriminate.
  - reflexivity.
  - repeat constructor.
  - right. simpl. intuition discriminate.
Defined.


Lemma call_sets_the_arguments_then_runs_witness :
  wire (state_of (call no_float no_dict ("blink", ["n"]) [Int 3] false (ready_link blink_3)))
  = (wire (ready_link blink_3)
     ++ []
     ++ map (set_command no_float no_dict) (items (update [] (combine ["n"] [Int 3])))
     ++ [framed "blink"]
     ++ [])%list.
Proof.
  apply (@call_sets_the_arguments_then_runs no_float no_dict "blink" ["n"] [Int 3] false
           (ready_link blink_3) _ ("ok" ++ LF)).
  - reflexivity.
  - reflexivity.
  - vm_compute. reflexivity.
Defined.

Lemma force_manual_ends_with_quiet_connect_witness :
  exists s2,
    _force_manual (exec "blink") (ready_link ok_answer) = Return ("ok" ++ LF) s2 /\
    wire s2
    = (wire (state_of (exec "blink" (with_quiet false (ready_link ok_answer))))
       ++ [quiet_connect])%list /\
    _quiet s2 = false /\
    incoming (_serial s2)
    = incoming (_serial (state_of (exec "blink" (with_quiet false (ready_link ok_answer))))).
Proof.
  apply (@force_manual_ends_with_quiet_connect string (exec "blink") (ready_link ok_answer)).
  - reflexivity.
  - vm_compute. reflexivity.
Defined.

Lemma constructor_declares_the_functions_witness :
  exists fs,
    state_of (Lvp.__init__ "/dev/ttyUSB0" None ["blink(n)"; "stop()"] [])
    = with_functions fs (mkLVP None "/dev/ttyUSB0" false false [] (mkSerial None [] []) []) /\
    match Lvp.__init__ "/dev/ttyUSB0" None ["blink(n)"; "stop()"] [] with
    | Return _ _ =>
        Forall spec_form ["blink(n)"; "stop()"] /\
        forall name, In name (map fst fs) <-> In name (map name_of ["blink(n)"; "stop()"])
    | Raise e _ =>
        exists good bad rest,
          ["blink(n)"; "stop()"] = (good ++ bad :: rest)%list /\
          Forall spec_form good /\ ~ spec_form bad /\
          e = ValueError ("invalid specification: " ++ repr bad) /\
          forall name, In name (map fst fs) <-> In name (map name_of good)
    | Blocks _ => False
    end.
Proof.
  apply (@constructor_declares_the_functions "/dev/ttyUSB0" None ["blink(n)"; "stop()"] []).
  - discriminate.
  - repeat constructor; vm_compute; intuition discriminate.
Defined.

Lemma normalize_response_reads_back_an_integer_witness :
  normalize_response (str_of_int (-1024)) = Int (-1024).
Proof.
  apply (@normalize_response_reads_back_an_integer (-1024)%Z).
  vm_compute. reflexivity.
Defined.

Lemma interact_sends_the_lines_before_quit_witness :
  exists n, (n <= length (before_quit ["blink"; "quit"; "blink"]))%nat /\
    wire (state_of (interact ["blink"; "quit"; "blink"] true (ready_link ok_answer)))
    = (wire (ready_link ok_answer)
       ++ map framed (firstn n (before_quit ["blink"; "quit"; "blink"])))%list /\
    match interact ["blink"; "quit"; "blink"] true (ready_link ok_answer) with
    | Return printed _ =>
        In "quit" ["blink"; "quit"; "blink"] /\
        n = length (before_quit ["blink"; "quit"; "blink"]) /\ length printed = n
    | Raise e _ =>
        codec e \/
        e = EOFError /\ true = true /\ ~ In "quit" ["blink"; "quit"; "blink"] /\
        n = length ["blink"; "quit"; "blink"]
    | Blocks _ => True
    end.
Proof.
  apply (@interact_sends_the_lines_before_quit ["blink"; "quit"; "blink"] true
           (ready_link ok_answer)).
  reflexivity.
Defined.

End Cases.
